(** * WorkerRender: cache, revalidation, navigation and middleware contracts

    A shallow embedding of the offline-first core of WorkerRender
    (packages/core/src: middleware.ts, version.ts, cache.ts, sw-strategy.ts,
    navigation-controller.ts) together with the properties the specification
    states about it, and of utils/html.ts and prefetch.ts, with further
    properties of all of them that the code itself shows.

    Conventions of the embedding.
    - A JavaScript [Map] is a [gmap]; promises, abort controllers and timers
      are identified by natural numbers drawn from counters of the state.
    - Asynchronous code is cut at its [await]s: every synchronous segment is
      one function on the state, and the environment (loader, network, object
      store, timers) resumes a suspended segment through an event.
    - A step of a model is one synchronous run of the program between two
      suspensions.  Where a body awaits twice in a row without reading
      shared state in between (the digest of [generateETag] after the
      loader, [clients.matchAll] inside [notifyClientsOfUpdate], the body
      of a response after [fetch]) the two resumptions are one step.
    - The object store of IndexedDB is a finite map, and a transaction on it
      is one step that completes; a store that fails is not modelled.  The
      loader and the network can fail, and their failures are modelled.
    - [console.log] and the [onNavigationStart]/[onNavigationEnd] callbacks
      are left out.
    - The first part of the file holds the definitions, the second part the
      lemmas and theorems. *)

From Stdlib Require Import ZArith String Ascii List Lia Bool.
From stdpp Require Import gmap strings list fin_maps.

Local Open Scope Z_scope.

(* ===================================================================== *)
(** * Part I: the model                                                   *)
(* ===================================================================== *)

(** ** middleware.ts *)

Module Middleware.

(** Errors that travel through the chain.  [NextCalledMultipleTimes] is
    [new Error('next() called multiple times')] of [compose]; [TypeError]
    is what calling [undefined] as a middleware raises; [Thrown] is any
    error of an interceptor or of the loader. *)
Inductive Error :=
| NextCalledMultipleTimes
| TypeError
| Thrown (msg : string).

(** How an awaited promise settles. *)
Inductive Outcome (T : Type) :=
| Resolved (v : T)
| Rejected (e : Error).
Arguments Resolved {T} v.
Arguments Rejected {T} e.

Record LoaderCtx := {
  url : string;
  headers : list (string * string);
  params : list (string * string)
}.

(** The body of a [LoaderMiddleware<T>], seen from the executor: it
    returns a value, throws, or calls [next()] and goes on with the way
    that call settled (an interceptor may catch a rejection).  Each
    [next()] is awaited before the body continues. *)
Inductive Action (T : Type) :=
| Return (v : T)
| Throw (e : Error)
| CallNext (k : Outcome T -> Action T).
Arguments Return {T} v.
Arguments Throw {T} e.
Arguments CallNext {T} k.

Definition LoaderMiddleware (T : Type) := LoaderCtx -> Action T.

(** The mutable variable [index] of the executor's closure, and the
    number of times the terminal loader has been entered so far. *)
Record Run := { index : Z; loaderCalls : nat }.

Section Executors.
Context {T : Type}.
Variable ctx : LoaderCtx.
(** [handler n] is how the terminal loader settles when it is entered
    for the [n]-th time (counting from 0). *)
Variable handler : nat -> Outcome T.
Variable middlewares : list (LoaderMiddleware T).

Definition callHandler (s : Run) : Outcome T * Run :=
  (handler (loaderCalls s),
   {| index := index s; loaderCalls := S (loaderCalls s) |}).

(** Running a middleware body against a continuation.  [None] only
    when the continuation ran out of fuel. *)
Fixpoint runAction (a : Action T)
    (next : Run -> option (Outcome T * Run)) (s : Run)
    : option (Outcome T * Run) :=
  match a with
  | Return v => Some (Resolved v, s)
  | Throw e => Some (Rejected e, s)
  | CallNext k =>
      match next s with
      | Some (o, s') => runAction (k o) next s'
      | None => None
      end
  end.

(** [dispatch(i)] of [compose].  The fuel bounds the nesting depth. *)
Fixpoint dispatch (fuel : nat) (i : Z) (s : Run)
    : option (Outcome T * Run) :=
  if i <=? index s then Some (Rejected NextCalledMultipleTimes, s)
  else
    let s1 := {| index := i; loaderCalls := loaderCalls s |} in
    if Z.of_nat (length middlewares) <=? i then Some (callHandler s1)
    else
      match fuel with
      | O => None
      | S fuel' =>
          match middlewares !! Z.to_nat i with
          | Some middleware =>
              runAction (middleware ctx) (dispatch fuel' (i + 1)) s1
          | None => Some (Rejected TypeError, s1)
          end
      end.

(** [compose(...middlewares)(ctx, next)]: [index] starts at -1. *)
Definition compose : option (Outcome T * Run) :=
  dispatch (length middlewares) 0 {| index := -1; loaderCalls := 0 |}.

(** [next()] of [runMiddleware]: no guard, [index++] on entry. *)
Fixpoint next (fuel : nat) (s : Run) : option (Outcome T * Run) :=
  if Z.of_nat (length middlewares) <=? index s then Some (callHandler s)
  else
    match fuel with
    | O => None
    | S fuel' =>
        let s1 := {| index := index s + 1; loaderCalls := loaderCalls s |} in
        match middlewares !! Z.to_nat (index s) with
        | Some middleware => runAction (middleware ctx) (next fuel') s1
        | None => Some (Rejected TypeError, s1)
        end
    end.

(** [runMiddleware(ctx, middlewares, handler)]: [index] starts at 0. *)
Definition runMiddleware : option (Outcome T * Run) :=
  next (length middlewares) {| index := 0; loaderCalls := 0 |}.

(** The loader has run at most once, and once it has run [index] is
    past the last interceptor. *)
Definition loaderOnce (s : Run) : Prop :=
  loaderCalls s = 0%nat
  \/ (loaderCalls s = 1%nat /\ Z.of_nat (length middlewares) <= index s).

End Executors.

(** An interceptor that awaits [next()] twice and returns the second
    result. *)
Definition callsNextTwice {T} : LoaderMiddleware T :=
  fun _ =>
    CallNext (fun _ =>
    CallNext (fun o =>
      match o with
      | Resolved v => Return v
      | Rejected e => Throw e
      end)).

(** An interceptor that awaits [next()] once and passes the result on. *)
Definition passThrough {T} : LoaderMiddleware T :=
  fun _ =>
    CallNext (fun o =>
      match o with
      | Resolved v => Return v
      | Rejected e => Throw e
      end).

Definition sampleCtx : LoaderCtx :=
  {| url := "https://app.example/posts"; headers := []; params := [] |}.

End Middleware.

(** ** version.ts *)

Module Version.

Definition APP_VERSION : string := "1.0.0".

(** [injected] is the build-time constant [__APP_VERSION__]; [None] when
    the bundler did not define it. *)
Definition getAppVersion (injected : option string) : string :=
  match injected with
  | Some v => v
  | None => APP_VERSION
  end.

Definition isVersionCompatible (injected : option string)
    (cachedVersion : string) : bool :=
  bool_decide (cachedVersion = getAppVersion injected).

Definition VERSION_HEADER : string := "X-App-Version".

End Version.

(** ** generateETag of sw-strategy.ts *)

Module Fingerprint.

Definition quote : ascii := ascii_of_nat 34.

(** ToInt32 of ECMAScript on an integer-valued number. *)
Definition toInt32 (z : Z) : Z := (z + 2 ^ 31) mod 2 ^ 32 - 2 ^ 31.

Definition digitChar (d : Z) : ascii :=
  match String.get (Z.to_nat d) "0123456789abcdefghijklmnopqrstuvwxyz" with
  | Some c => c
  | None => "0"%char
  end.

Fixpoint digits (fuel : nat) (radix n : Z) (acc : string) : string :=
  match fuel with
  | O => acc
  | S fuel' =>
      let acc' := String (digitChar (n mod radix)) acc in
      if n / radix =? 0 then acc' else digits fuel' radix (n / radix) acc'
  end.

(** [n.toString(radix)] for a natural number [n]. *)
Definition toStringRadix (radix n : Z) : string :=
  digits (S (Z.to_nat (Z.log2 n))) radix n EmptyString.

(** [b.toString(16).padStart(2, '0')] for a byte. *)
Definition hexByte (b : Z) : string :=
  String (digitChar (b / 16)) (String (digitChar (b mod 16)) EmptyString).

(** One round of the fallback loop:
    [hash = ((hash << 5) - hash) + data.charCodeAt(i); hash = hash & hash]. *)
Definition mix (hash : Z) (c : ascii) : Z :=
  toInt32 (toInt32 (Z.shiftl hash 5) - hash + Z.of_nat (nat_of_ascii c)).

Definition fallbackETag (data : string) : string :=
  let hash := fold_left mix (take 1000 (list_ascii_of_string data)) 0 in
  String quote
    (String.append (toStringRadix 36 (Z.abs hash))
       (String.append "-"
          (String.append (toStringRadix 10 (Z.of_nat (String.length data)))
             (String quote EmptyString)))).

(** [digest] is [crypto.subtle.digest('SHA-256', _)] as a list of bytes:
    [None] when [crypto.subtle] is missing, and the function returns
    [None] when the digest throws. *)
Definition generateETag (digest : option (string -> option (list Z)))
    (data : string) : string :=
  match digest with
  | Some sha256 =>
      match sha256 data with
      | Some hashArray =>
          let hashHex := fold_right String.append EmptyString (map hexByte hashArray) in
          String quote
            (String.append (String.substring 0 16 hashHex)
               (String quote EmptyString))
      | None => fallbackETag data
      end
  | None => fallbackETag data
  end.

End Fingerprint.

(** ** cache.ts *)

Module Cache.

Record CachedRoute (Data : Type) := {
  url : string;
  data : Data;
  version : string;
  timestamp : Z;
  etag : option string
}.
Arguments url {Data} _.
Arguments data {Data} _.
Arguments version {Data} _.
Arguments timestamp {Data} _.
Arguments etag {Data} _.

Section Store.
Context {Data : Type}.

(** The object store [routes] (key path [url]) is a finite map; a
    transaction is one step on it.  [now] is [Date.now()] read by the
    transaction's callback. *)
Definition cacheRouteData (now : Z) (url : string) (data : Data)
    (version : string) (etag : option string)
    (routes : gmap string (CachedRoute Data)) : gmap string (CachedRoute Data) :=
  let cached :=
    {| url := url; data := data; version := version;
       timestamp := now; etag := etag |} in
  <[url := cached]> routes.

Definition getCachedRouteData (url : string)
    (routes : gmap string (CachedRoute Data)) : option (CachedRoute Data) :=
  routes !! url.

Definition clearCacheByVersion (v : string)
    (routes : gmap string (CachedRoute Data)) : gmap string (CachedRoute Data) :=
  filter (fun row => version row.2 <> v) routes.

Definition clearAllCache
    (routes : gmap string (CachedRoute Data)) : gmap string (CachedRoute Data) :=
  ∅.

(** [IDBKeyRange.upperBound(cutoff)] includes the bound. *)
Definition clearOldCache (now maxAge : Z)
    (routes : gmap string (CachedRoute Data)) : gmap string (CachedRoute Data) :=
  let cutoff := now - maxAge in
  filter (fun row => cutoff < timestamp row.2) routes.

End Store.

End Cache.

(** ** sw-strategy.ts *)

Module SwStrategy.
Import Cache.

Inductive LoadError :=
| LoadFailure (msg : string)
| LoadTimeout (ms : Z).

(** How [runLoaderWithTimeout] settles: the race of the load operation
    (the loader, through [runMiddleware] when the route has interceptors)
    against the timer. *)
Inductive Outcome (Data : Type) :=
| Loaded (data : Data)
| Failed (e : LoadError).
Arguments Loaded {Data} data.
Arguments Failed {Data} e.

Record URL := { pathname : string; search : string }.

Record RenderContext := {
  url : URL;
  headers : list (string * string);
  params : list (string * string)
}.

Record Response := {
  status : Z;
  responseHeaders : list (string * string);
  body : string
}.

(** What the promise of [renderWithCache] settles with. *)
Inductive Reply :=
| Responded (r : Response)
| Threw (e : LoadError).

(** A suspended asynchronous body, named after the [await] it waits at. *)
Inductive Task (Data : Type) :=
| RenderAwaitGet (ctx : RenderContext)
| FetchAwaitLoader (cacheKey version : string)
| FetchAwaitPut (cacheKey version : string) (data : Data) (etag : string)
| RevalAwaitLoader (cacheKey version : string) (cachedEtag : option string)
| RevalAwaitPut (cacheKey version : string) (freshData : Data) (freshEtag : string)
| RevalSettled (cacheKey : string).
Arguments RenderAwaitGet {Data} ctx.
Arguments FetchAwaitLoader {Data} cacheKey version.
Arguments FetchAwaitPut {Data} cacheKey version data etag.
Arguments RevalAwaitLoader {Data} cacheKey version cachedEtag.
Arguments RevalAwaitPut {Data} cacheKey version freshData freshEtag.
Arguments RevalSettled {Data} cacheKey.

(** The service worker: the object store, the module-level map
    [pendingRevalidations] (a ticket is the identifier of the promise it
    holds), [navigator.onLine], the clock, the suspended bodies, and a
    record of what has been done: loader runs, store writes issued by the
    strategy, calls of [notifyClientsOfUpdate], and settled renders. *)
Record State (Data : Type) := {
  routes : gmap string (CachedRoute Data);
  pendingRevalidations : gmap string nat;
  onLine : bool;
  now : Z;
  tasks : gmap nat (Task Data);
  nextTask : nat;
  loaderRuns : list (nat * string);
  cacheWrites : list (nat * CachedRoute Data);
  notifications : list (nat * (string * Data));
  replies : list (nat * Reply)
}.
Arguments routes {Data} _.
Arguments pendingRevalidations {Data} _.
Arguments onLine {Data} _.
Arguments now {Data} _.
Arguments tasks {Data} _.
Arguments nextTask {Data} _.
Arguments loaderRuns {Data} _.
Arguments cacheWrites {Data} _.
Arguments notifications {Data} _.
Arguments replies {Data} _.

Inductive Event (Data : Type) :=
| Render (ctx : RenderContext)
| CacheRead (t : nat)
| LoaderSettled (t : nat) (o : Outcome Data)
| CacheWritten (t : nat)
| Finally (t : nat)
| Connectivity (online : bool)
| Tick (dt : Z)
| ApiCacheRouteData (url : string) (data : Data) (version : string) (etag : option string)
| ApiClearCacheByVersion (version : string)
| ApiClearAllCache
| ApiClearOldCache (maxAge : Z).
Arguments Render {Data} ctx.
Arguments CacheRead {Data} t.
Arguments LoaderSettled {Data} t o.
Arguments CacheWritten {Data} t.
Arguments Finally {Data} t.
Arguments Connectivity {Data} online.
Arguments Tick {Data} dt.
Arguments ApiCacheRouteData {Data} url data version etag.
Arguments ApiClearCacheByVersion {Data} version.
Arguments ApiClearAllCache {Data}.
Arguments ApiClearOldCache {Data} maxAge.

Section Strategy.
Context {Data : Type}.
(** [JSON.stringify], the route's render function, the injected
    [__APP_VERSION__] and [crypto.subtle.digest]. *)
Variable stringify : Data -> string.
Variable renderFn : Data -> string.
Variable injected : option string.
Variable digest : option (string -> option (list Z)).

Definition init : State Data :=
  {| routes := ∅; pendingRevalidations := ∅; onLine := true; now := 0;
     tasks := ∅; nextTask := 0; loaderRuns := []; cacheWrites := [];
     notifications := []; replies := [] |}.

Definition setRoutes (r : gmap string (CachedRoute Data)) (s : State Data) : State Data :=
  {| routes := r; pendingRevalidations := pendingRevalidations s;
     onLine := onLine s; now := now s; tasks := tasks s;
     nextTask := nextTask s; loaderRuns := loaderRuns s;
     cacheWrites := cacheWrites s; notifications := notifications s;
     replies := replies s |}.

Definition setPending (p : gmap string nat) (s : State Data) : State Data :=
  {| routes := routes s; pendingRevalidations := p;
     onLine := onLine s; now := now s; tasks := tasks s;
     nextTask := nextTask s; loaderRuns := loaderRuns s;
     cacheWrites := cacheWrites s; notifications := notifications s;
     replies := replies s |}.

Definition setOnLine (b : bool) (s : State Data) : State Data :=
  {| routes := routes s; pendingRevalidations := pendingRevalidations s;
     onLine := b; now := now s; tasks := tasks s;
     nextTask := nextTask s; loaderRuns := loaderRuns s;
     cacheWrites := cacheWrites s; notifications := notifications s;
     replies := replies s |}.

Definition setNow (t : Z) (s : State Data) : State Data :=
  {| routes := routes s; pendingRevalidations := pendingRevalidations s;
     onLine := onLine s; now := t; tasks := tasks s;
     nextTask := nextTask s; loaderRuns := loaderRuns s;
     cacheWrites := cacheWrites s; notifications := notifications s;
     replies := replies s |}.

Definition setTasks (m : gmap nat (Task Data)) (s : State Data) : State Data :=
  {| routes := routes s; pendingRevalidations := pendingRevalidations s;
     onLine := onLine s; now := now s; tasks := m;
     nextTask := nextTask s; loaderRuns := loaderRuns s;
     cacheWrites := cacheWrites s; notifications := notifications s;
     replies := replies s |}.

(** A new suspended body: the next identifier is taken. *)
Definition spawn (k : Task Data) (s : State Data) : State Data :=
  {| routes := routes s; pendingRevalidations := pendingRevalidations s;
     onLine := onLine s; now := now s; tasks := <[nextTask s := k]> (tasks s);
     nextTask := S (nextTask s); loaderRuns := loaderRuns s;
     cacheWrites := cacheWrites s; notifications := notifications s;
     replies := replies s |}.

Definition logLoaderRun (t : nat) (cacheKey : string) (s : State Data) : State Data :=
  {| routes := routes s; pendingRevalidations := pendingRevalidations s;
     onLine := onLine s; now := now s; tasks := tasks s;
     nextTask := nextTask s; loaderRuns := loaderRuns s ++ [(t, cacheKey)];
     cacheWrites := cacheWrites s; notifications := notifications s;
     replies := replies s |}.

Definition logNotification (t : nat) (url : string) (data : Data)
    (s : State Data) : State Data :=
  {| routes := routes s; pendingRevalidations := pendingRevalidations s;
     onLine := onLine s; now := now s; tasks := tasks s;
     nextTask := nextTask s; loaderRuns := loaderRuns s;
     cacheWrites := cacheWrites s;
     notifications := notifications s ++ [(t, (url, data))];
     replies := replies s |}.

Definition reply (t : nat) (r : Reply) (s : State Data) : State Data :=
  {| routes := routes s; pendingRevalidations := pendingRevalidations s;
     onLine := onLine s; now := now s; tasks := delete t (tasks s);
     nextTask := nextTask s; loaderRuns := loaderRuns s;
     cacheWrites := cacheWrites s; notifications := notifications s;
     replies := replies s ++ [(t, r)] |}.

(** [await cacheRouteData(cacheKey, data, version, etag)] made by body
    [t]: the write transaction. *)
Definition storeRoute (t : nat) (cacheKey : string) (data : Data)
    (version etag : string) (s : State Data) : State Data :=
  {| routes := cacheRouteData (now s) cacheKey data version (Some etag) (routes s);
     pendingRevalidations := pendingRevalidations s;
     onLine := onLine s; now := now s; tasks := tasks s;
     nextTask := nextTask s; loaderRuns := loaderRuns s;
     cacheWrites := cacheWrites s ++
       [(t, {| Cache.url := cacheKey; data := data; version := version;
               timestamp := now s; etag := Some etag |})];
     notifications := notifications s;
     replies := replies s |}.

(** [ctx.url.pathname + ctx.url.search] *)
Definition cacheKeyOf (ctx : RenderContext) : string :=
  String.append (pathname (url ctx)) (search (url ctx)).

(** [revalidateInBackground(route, ctx, cacheKey, version, cachedEtag)]:
    the synchronous call.  The asynchronous body starts at once and
    runs up to its first [await]: offline it returns, so its promise
    is already settled; online it enters the load operation and
    suspends.  Either way the promise is then stored under [cacheKey]
    and the [finally] callback is attached. *)
Definition revalidateInBackground (cacheKey appVersion : string)
    (cachedEtag : option string) (s : State Data) : State Data :=
  match pendingRevalidations s !! cacheKey with
  | Some _ => s
  | None =>
      let promise := nextTask s in
      let s1 :=
        if onLine s
        then spawn (RevalAwaitLoader cacheKey appVersion cachedEtag)
                   (logLoaderRun promise cacheKey s)
        else spawn (RevalSettled cacheKey) s in
      setPending (<[cacheKey := promise]> (pendingRevalidations s1)) s1
  end.

(** [fetchAndCache]: the load operation is entered, the body suspends. *)
Definition fetchAndCache (t : nat) (cacheKey appVersion : string)
    (s : State Data) : State Data :=
  setTasks (<[t := FetchAwaitLoader cacheKey appVersion]> (tasks s))
           (logLoaderRun t cacheKey s).

Definition hitHeaders (cached : CachedRoute Data) : list (string * string) :=
  [("content-type", "text/html; charset=utf-8");
   ("x-cache", "HIT");
   ("x-cache-version", version cached)]
  ++ match etag cached with
     | Some e => if bool_decide (e = EmptyString) then [] else [("etag", e)]
     | None => []
     end.

Definition missHeaders (appVersion etag : string) : list (string * string) :=
  [("content-type", "text/html; charset=utf-8");
   ("x-cache", "MISS");
   (Version.VERSION_HEADER, appVersion);
   ("etag", etag)].

(** [renderWithCache(route, ctx, renderFn)]: the call suspends at
    [await getCachedRouteData(cacheKey)]. *)
Definition renderWithCache (ctx : RenderContext) (s : State Data) : State Data :=
  spawn (RenderAwaitGet ctx) s.

(** [renderWithCache] resumed by the read transaction of body [t]. *)
Definition afterGetCachedRouteData (t : nat) (s : State Data)
    : option (State Data) :=
  match tasks s !! t with
  | Some (RenderAwaitGet ctx) =>
      let cacheKey := cacheKeyOf ctx in
      let appVersion := Version.getAppVersion injected in
      match getCachedRouteData cacheKey (routes s) with
      | Some cached =>
          if Version.isVersionCompatible injected (version cached) then
            let html := renderFn (data cached) in
            let s1 := revalidateInBackground cacheKey appVersion (etag cached) s in
            Some (reply t
                    (Responded {| status := 200;
                                  responseHeaders := hitHeaders cached;
                                  body := html |})
                    s1)
          else Some (fetchAndCache t cacheKey appVersion s)
      | None => Some (fetchAndCache t cacheKey appVersion s)
      end
  | _ => None
  end.

(** A body resumed by the load operation: [fetchAndCache] goes on to
    store the data or rethrows; the revalidation compares the fresh
    fingerprint with the one it was started with, and catches a
    failure. *)
Definition afterLoader (t : nat) (o : Outcome Data) (s : State Data)
    : option (State Data) :=
  match tasks s !! t with
  | Some (FetchAwaitLoader cacheKey appVersion) =>
      match o with
      | Loaded data =>
          let etag := Fingerprint.generateETag digest (stringify data) in
          Some (setTasks (<[t := FetchAwaitPut cacheKey appVersion data etag]> (tasks s)) s)
      | Failed e => Some (reply t (Threw e) s)
      end
  | Some (RevalAwaitLoader cacheKey appVersion cachedEtag) =>
      match o with
      | Loaded freshData =>
          let freshEtag := Fingerprint.generateETag digest (stringify freshData) in
          if bool_decide (Some freshEtag <> cachedEtag)
          then Some (setTasks (<[t := RevalAwaitPut cacheKey appVersion freshData freshEtag]>
                                 (tasks s)) s)
          else Some (setTasks (<[t := RevalSettled cacheKey]> (tasks s)) s)
      | Failed _ => Some (setTasks (<[t := RevalSettled cacheKey]> (tasks s)) s)
      end
  | _ => None
  end.

(** A body resumed by its write transaction: [fetchAndCache] renders
    and responds; the revalidation calls [notifyClientsOfUpdate] and
    completes. *)
Definition afterCacheRouteData (t : nat) (s : State Data)
    : option (State Data) :=
  match tasks s !! t with
  | Some (FetchAwaitPut cacheKey appVersion data etag) =>
      let s1 := storeRoute t cacheKey data appVersion etag s in
      Some (reply t
              (Responded {| status := 200;
                            responseHeaders := missHeaders appVersion etag;
                            body := renderFn data |})
              s1)
  | Some (RevalAwaitPut cacheKey appVersion freshData freshEtag) =>
      let s1 := storeRoute t cacheKey freshData appVersion freshEtag s in
      let s2 := logNotification t cacheKey freshData s1 in
      Some (setTasks (<[t := RevalSettled cacheKey]> (tasks s2)) s2)
  | _ => None
  end.

(** [promise.finally(() => pendingRevalidations.delete(cacheKey))] *)
Definition revalidationFinally (t : nat) (s : State Data)
    : option (State Data) :=
  match tasks s !! t with
  | Some (RevalSettled cacheKey) =>
      Some (setTasks (delete t (tasks s))
              (setPending (delete cacheKey (pendingRevalidations s)) s))
  | _ => None
  end.

Definition step (e : Event Data) (s : State Data) : option (State Data) :=
  match e with
  | Render ctx => Some (renderWithCache ctx s)
  | CacheRead t => afterGetCachedRouteData t s
  | LoaderSettled t o => afterLoader t o s
  | CacheWritten t => afterCacheRouteData t s
  | Finally t => revalidationFinally t s
  | Connectivity b => Some (setOnLine b s)
  | Tick dt => if 0 <=? dt then Some (setNow (now s + dt) s) else None
  | ApiCacheRouteData u d v e =>
      Some (setRoutes (cacheRouteData (now s) u d v e (routes s)) s)
  | ApiClearCacheByVersion v =>
      Some (setRoutes (clearCacheByVersion v (routes s)) s)
  | ApiClearAllCache => Some (setRoutes (clearAllCache (routes s)) s)
  | ApiClearOldCache maxAge =>
      Some (setRoutes (clearOldCache (now s) maxAge (routes s)) s)
  end.

Fixpoint run (es : list (Event Data)) (s : State Data) : option (State Data) :=
  match es with
  | [] => Some s
  | e :: es' =>
      match step e s with
      | Some s' => run es' s'
      | None => None
      end
  end.

Inductive reachable : State Data -> Prop :=
| reachable_init : reachable init
| reachable_step s e s' : reachable s -> step e s = Some s' -> reachable s'.

(** The key a suspended body revalidates, when it is a background
    revalidation. *)
Definition revalidationKey (k : Task Data) : option string :=
  match k with
  | RevalAwaitLoader cacheKey _ _ => Some cacheKey
  | RevalAwaitPut cacheKey _ _ _ => Some cacheKey
  | RevalSettled cacheKey => Some cacheKey
  | _ => None
  end.

(** Body [t] is a background revalidation of [cacheKey] that has not
    yet released its ticket. *)
Definition revalidating (s : State Data) (t : nat) (cacheKey : string) : Prop :=
  tasks s !! t ≫= revalidationKey = Some cacheKey.

(** The store writes and the notifications made by body [t]. *)
Definition writesBy (t : nat) (s : State Data) : list (CachedRoute Data) :=
  omap (fun w => if bool_decide (w.1 = t) then Some w.2 else None) (cacheWrites s).

Definition notificationsBy (t : nat) (s : State Data) : list (string * Data) :=
  omap (fun n => if bool_decide (n.1 = t) then Some n.2 else None) (notifications s).

(** The body an event resumes. *)
Definition target (e : Event Data) : option nat :=
  match e with
  | CacheRead t | LoaderSettled t _ | CacheWritten t | Finally t => Some t
  | _ => None
  end.

(** *** Invariants of the reachable states *)

(** Every revalidation body that has not released its ticket holds
    the ticket of its key, and identifiers are never reused. *)
Definition ticketedOn (ts : gmap nat (Task Data)) (ps : gmap string nat)
    (n : nat) : Prop :=
  (forall t cacheKey, ts !! t ≫= revalidationKey = Some cacheKey ->
     ps !! cacheKey = Some t)
  /\ (forall t, is_Some (ts !! t) -> (t < n)%nat).

Definition ticketed (s : State Data) : Prop :=
  ticketedOn (tasks s) (pendingRevalidations s) (nextTask s).

(** Body [t] has written and notified nothing. *)
Definition quiet (s : State Data) (t : nat) : Prop :=
  writesBy t s = [] /\ notificationsBy t s = [].

(** A body that has not reached its write, and an identifier not yet
    given out, have written and notified nothing. *)
Definition unspent (s : State Data) : Prop :=
  (forall t, (nextTask s <= t)%nat -> quiet s t)
  /\ (forall t k, tasks s !! t = Some k ->
        (forall cacheKey, k <> RevalSettled cacheKey) -> quiet s t).

(** Body [t] has completed, or has gone. *)
Definition finished (s : State Data) (t : nat) : Prop :=
  tasks s !! t = None \/ exists cacheKey, tasks s !! t = Some (RevalSettled cacheKey).

End Strategy.

End SwStrategy.

(** ** navigation-controller.ts *)

Module NavigationController.

Record NavigationOptions := {
  skipHistory : bool;
  replace : bool;
  signal : option nat
}.

Inductive NavError :=
| AbortError
| NavigationFailed (status : Z) (statusText : string)
| PrefetchFailed (status : Z)
| NetworkError (msg : string).

Record NavigationResult := {
  ok : bool;
  html : option string;
  error : option NavError;
  fromCache : option bool
}.

Record FetchResponse := {
  responseOk : bool;
  status : Z;
  statusText : string;
  text : string;
  xFromCache : option string
}.

(** How [fetch] (and the reading of the body) settles. *)
Inductive FetchOutcome :=
| Fulfilled (r : FetchResponse)
| RejectedWith (e : NavError).

Inductive Kind := Navigation | Prefetch.

(** A [fetch] that was issued: its URL, the controller whose signal it
    was given, who issued it, and the timeout timer armed for it. *)
Record Request := {
  requestUrl : string;
  requestSignal : nat;
  requestKind : Kind;
  requestTimer : option nat
}.

Inductive TimerAction :=
| AbortOnTimeout (url : string) (signal : nat)
| EvictPrefetch (url : string) (promise : nat).

(** The controller's fields ([pending], [activeRequests],
    [navigationHistory]) and the part of the browser it acts on: the
    fetches issued (by the promise that tracks each), the promises that
    have settled, the promises resolved with another promise, the
    controllers aborted so far, the listeners put on callers' signals,
    the armed timers and the clock. *)
Record State := {
  pending : gmap string nat;
  activeRequests : gmap string nat;
  navigationHistory : list string;
  requests : gmap nat Request;
  settled : gmap nat NavigationResult;
  adopted : gmap nat nat;
  aborted : gset nat;
  listeners : list (nat * nat);
  timers : gmap nat (Z * TimerAction);
  clock : Z;
  nextPromise : nat;
  nextController : nat;
  nextTimer : nat
}.

Inductive Event :=
| Navigate (url : string) (options : NavigationOptions)
| PrefetchUrl (url : string)
| Cancel (url : string)
| CancelAll
| ClearHistory
| FetchSettled (promise : nat) (o : FetchOutcome)
| TimerFired (timer : nat)
| SignalAborted (sig : nat)
| Tick (dt : Z).

Definition maxHistorySize : nat := 50.
Definition defaultTimeout : Z := 30000.
Definition prefetchGrace : Z := 5000.

Definition init : State :=
  {| pending := ∅; activeRequests := ∅; navigationHistory := [];
     requests := ∅; settled := ∅; adopted := ∅; aborted := ∅;
     listeners := []; timers := ∅; clock := 0;
     nextPromise := 0; nextController := 0; nextTimer := 0 |}.

Definition setPending (m : gmap string nat) (s : State) : State :=
  {| pending := m; activeRequests := activeRequests s;
     navigationHistory := navigationHistory s; requests := requests s;
     settled := settled s; adopted := adopted s; aborted := aborted s;
     listeners := listeners s; timers := timers s; clock := clock s;
     nextPromise := nextPromise s; nextController := nextController s;
     nextTimer := nextTimer s |}.

Definition setActiveRequests (m : gmap string nat) (s : State) : State :=
  {| pending := pending s; activeRequests := m;
     navigationHistory := navigationHistory s; requests := requests s;
     settled := settled s; adopted := adopted s; aborted := aborted s;
     listeners := listeners s; timers := timers s; clock := clock s;
     nextPromise := nextPromise s; nextController := nextController s;
     nextTimer := nextTimer s |}.

Definition setHistory (h : list string) (s : State) : State :=
  {| pending := pending s; activeRequests := activeRequests s;
     navigationHistory := h; requests := requests s;
     settled := settled s; adopted := adopted s; aborted := aborted s;
     listeners := listeners s; timers := timers s; clock := clock s;
     nextPromise := nextPromise s; nextController := nextController s;
     nextTimer := nextTimer s |}.

Definition setAborted (a : gset nat) (s : State) : State :=
  {| pending := pending s; activeRequests := activeRequests s;
     navigationHistory := navigationHistory s; requests := requests s;
     settled := settled s; adopted := adopted s; aborted := a;
     listeners := listeners s; timers := timers s; clock := clock s;
     nextPromise := nextPromise s; nextController := nextController s;
     nextTimer := nextTimer s |}.

Definition setTimers (t : gmap nat (Z * TimerAction)) (s : State) : State :=
  {| pending := pending s; activeRequests := activeRequests s;
     navigationHistory := navigationHistory s; requests := requests s;
     settled := settled s; adopted := adopted s; aborted := aborted s;
     listeners := listeners s; timers := t; clock := clock s;
     nextPromise := nextPromise s; nextController := nextController s;
     nextTimer := nextTimer s |}.

Definition setClock (c : Z) (s : State) : State :=
  {| pending := pending s; activeRequests := activeRequests s;
     navigationHistory := navigationHistory s; requests := requests s;
     settled := settled s; adopted := adopted s; aborted := aborted s;
     listeners := listeners s; timers := timers s; clock := c;
     nextPromise := nextPromise s; nextController := nextController s;
     nextTimer := nextTimer s |}.

Definition settle (p : nat) (r : NavigationResult) (s : State) : State :=
  {| pending := pending s; activeRequests := activeRequests s;
     navigationHistory := navigationHistory s; requests := requests s;
     settled := <[p := r]> (settled s); adopted := adopted s;
     aborted := aborted s;
     listeners := listeners s; timers := timers s; clock := clock s;
     nextPromise := nextPromise s; nextController := nextController s;
     nextTimer := nextTimer s |}.

(** [setTimeout(action, delay)] *)
Definition setTimeout (action : TimerAction) (delay : Z) (s : State) : State :=
  {| pending := pending s; activeRequests := activeRequests s;
     navigationHistory := navigationHistory s; requests := requests s;
     settled := settled s; adopted := adopted s; aborted := aborted s;
     listeners := listeners s;
     timers := <[nextTimer s := (clock s + delay, action)]> (timers s);
     clock := clock s;
     nextPromise := nextPromise s; nextController := nextController s;
     nextTimer := S (nextTimer s) |}.

Section Controller.
(** [new URL(url, window.location.origin)] with its hash cleared, as
    [href]; [None] when the constructor throws.  [optionsTimeout] is
    the [timeout] given to the constructor of the controller. *)
Variable hrefWithoutHash : string -> option string.
Variable optionsTimeout : option Z.

Definition normalizeUrl (url : string) : string :=
  default url (hrefWithoutHash url).

(** [this.options.timeout || 30000], the constructor's default
    being 30000 as well. *)
Definition timeout : Z :=
  match optionsTimeout with
  | Some t => if t =? 0 then defaultTimeout else t
  | None => defaultTimeout
  end.

Definition addToHistory (url : string) (h : list string) : list string :=
  let h' := h ++ [url] in
  if (maxHistorySize <? length h')%nat
  then drop (length h' - maxHistorySize)%nat h'
  else h'.

(** [cancelAll()]: every controller of [activeRequests] is aborted,
    then both maps are cleared. *)
Definition cancelAll (s : State) : State :=
  setPending ∅
    (setActiveRequests ∅
       (setAborted (aborted s ∪ map_img (activeRequests s)) s)).

(** [cancel(url)] *)
Definition cancel (url : string) (s : State) : State :=
  let normalizedUrl := normalizeUrl url in
  match activeRequests s !! normalizedUrl with
  | Some controller =>
      setPending (delete normalizedUrl (pending s))
        (setActiveRequests (delete normalizedUrl (activeRequests s))
           (setAborted (aborted s ∪ {[controller]}) s))
  | None => s
  end.

(** [navigate(url, options)].  The method is [async]: what the caller
    receives is a new promise each time, resolved with the promise the
    body returns.  The result is that new promise and the state. *)
Definition navigate (url : string) (options : NavigationOptions)
    (s : State) : nat * State :=
  let normalizedUrl := normalizeUrl url in
  match pending s !! normalizedUrl with
  | Some existing =>
      let returned := nextPromise s in
      (returned,
       {| pending := pending s; activeRequests := activeRequests s;
          navigationHistory := navigationHistory s; requests := requests s;
          settled := settled s;
          adopted := <[returned := existing]> (adopted s);
          aborted := aborted s; listeners := listeners s;
          timers := timers s; clock := clock s;
          nextPromise := S returned; nextController := nextController s;
          nextTimer := nextTimer s |})
  | None =>
      let s1 := if replace options then cancelAll s else s in
      let abortController := nextController s1 in
      let navigationPromise := nextPromise s1 in
      let timeoutId := nextTimer s1 in
      let returned := S navigationPromise in
      (returned,
       {| pending := <[normalizedUrl := navigationPromise]> (pending s1);
          activeRequests := <[normalizedUrl := abortController]> (activeRequests s1);
          navigationHistory := addToHistory normalizedUrl (navigationHistory s1);
          requests :=
            <[navigationPromise :=
                {| requestUrl := normalizedUrl; requestSignal := abortController;
                   requestKind := Navigation; requestTimer := Some timeoutId |}]>
              (requests s1);
          settled := settled s1;
          adopted := <[returned := navigationPromise]> (adopted s1);
          aborted := aborted s1;
          listeners :=
            match signal options with
            | Some sig => (sig, abortController) :: listeners s1
            | None => listeners s1
            end;
          timers :=
            <[timeoutId := (clock s1 + timeout,
                            AbortOnTimeout normalizedUrl abortController)]>
              (timers s1);
          clock := clock s1;
          nextPromise := S returned;
          nextController := S abortController;
          nextTimer := S timeoutId |})
  end.

(** [prefetch(url)]: the controller made here is handed to [fetch]
    only; no timer is armed until the fetch has settled. *)
Definition prefetch (url : string) (s : State) : State :=
  let normalizedUrl := normalizeUrl url in
  match pending s !! normalizedUrl with
  | Some _ => s
  | None =>
      let abortController := nextController s in
      let prefetchPromise := nextPromise s in
      {| pending := <[normalizedUrl := prefetchPromise]> (pending s);
         activeRequests := activeRequests s;
         navigationHistory := navigationHistory s;
         requests :=
           <[prefetchPromise :=
               {| requestUrl := normalizedUrl; requestSignal := abortController;
                  requestKind := Prefetch; requestTimer := None |}]>
             (requests s);
         settled := settled s; adopted := adopted s; aborted := aborted s;
         listeners := listeners s; timers := timers s; clock := clock s;
         nextPromise := S prefetchPromise;
         nextController := S abortController;
         nextTimer := nextTimer s |}
  end.

Definition failure (e : NavError) : NavigationResult :=
  {| ok := false; html := None; error := Some e; fromCache := None |}.

(** What [performNavigation] resolves with. *)
Definition navigationResult (o : FetchOutcome) : NavigationResult :=
  match o with
  | Fulfilled r =>
      if responseOk r
      then {| ok := true; html := Some (text r); error := None;
              fromCache := Some (bool_decide (xFromCache r = Some "true")) |}
      else failure (NavigationFailed (status r) (statusText r))
  | RejectedWith e => failure e
  end.

(** What the [then]/[catch] chain of [prefetch] resolves with. *)
Definition prefetchResult (o : FetchOutcome) : NavigationResult :=
  match o with
  | Fulfilled r =>
      if responseOk r
      then {| ok := true; html := Some (text r); error := None;
              fromCache := Some false |}
      else failure (PrefetchFailed (status r))
  | RejectedWith e => failure e
  end.

(** The fetch tracked by [promise] settles.  A navigation clears its
    timeout when [fetch] fulfilled, builds its result, and its
    [finally] removes the URL from both maps.  A prefetch builds its
    result and its [finally] arms the eviction timer. *)
Definition fetchSettled (promise : nat) (o : FetchOutcome) (s : State)
    : option State :=
  match requests s !! promise, settled s !! promise with
  | Some rq, None =>
      match requestKind rq with
      | Navigation =>
          let s1 :=
            match o, requestTimer rq with
            | Fulfilled _, Some timeoutId => setTimers (delete timeoutId (timers s)) s
            | _, _ => s
            end in
          Some (settle promise (navigationResult o)
                  (setActiveRequests (delete (requestUrl rq) (activeRequests s1))
                     (setPending (delete (requestUrl rq) (pending s1)) s1)))
      | Prefetch =>
          Some (settle promise (prefetchResult o)
                  (setTimeout (EvictPrefetch (requestUrl rq) promise) prefetchGrace s))
      end
  | _, _ => None
  end.

Definition perform (action : TimerAction) (s : State) : State :=
  match action with
  | AbortOnTimeout url signal =>
      if bool_decide (signal ∈ aborted s) then s
      else
        match activeRequests s !! url with
        | Some controller => setAborted (aborted s ∪ {[controller]}) s
        | None => s
        end
  | EvictPrefetch url promise =>
      if bool_decide (pending s !! url = Some promise)
      then setPending (delete url (pending s)) s
      else s
  end.

(** An armed timer whose time has come runs its callback. *)
Definition timerFired (timer : nat) (s : State) : option State :=
  match timers s !! timer with
  | Some (due, action) =>
      if due <=? clock s
      then Some (perform action (setTimers (delete timer (timers s)) s))
      else None
  | None => None
  end.

(** The caller's signal aborts: the listeners put on it run. *)
Definition signalAborted (sig : nat) (s : State) : State :=
  setAborted
    (aborted s ∪ list_to_set (map snd (filter (fun l => l.1 = sig) (listeners s))))
    s.

Definition step (e : Event) (s : State) : option State :=
  match e with
  | Navigate url options => Some (navigate url options s).2
  | PrefetchUrl url => Some (prefetch url s)
  | Cancel url => Some (cancel url s)
  | CancelAll => Some (cancelAll s)
  | ClearHistory => Some (setHistory [] s)
  | FetchSettled promise o => fetchSettled promise o s
  | TimerFired timer => timerFired timer s
  | SignalAborted sig => Some (signalAborted sig s)
  | Tick dt => if 0 <=? dt then Some (setClock (clock s + dt) s) else None
  end.

Fixpoint run (es : list Event) (s : State) : option State :=
  match es with
  | [] => Some s
  | e :: es' =>
      match step e s with
      | Some s' => run es' s'
      | None => None
      end
  end.

Inductive reachable : State -> Prop :=
| reachable_init : reachable init
| reachable_step s e s' : reachable s -> step e s = Some s' -> reachable s'.

(** The settled result a promise stands for: its own, or that of the
    promise it was resolved with. *)
Definition resultOf (s : State) (p : nat) : option NavigationResult :=
  match adopted s !! p with
  | Some q => settled s !! q
  | None => settled s !! p
  end.

(** The fetch behind a pending entry has been cancelled: the signal it
    was given is aborted. *)
Definition cancelled (s : State) (promise : nat) : Prop :=
  exists rq, requests s !! promise = Some rq /\ requestSignal rq ∈ aborted s.

(** *** Invariants of the reachable states *)

(** Every entry of [pending] tracks a fetch issued for that URL, and
    an entry made by [navigate] has its controller in
    [activeRequests]; identifiers are never reused. *)
Definition registered (s : State) : Prop :=
  (forall u q, pending s !! u = Some q ->
     exists rq, requests s !! q = Some rq
                /\ requestUrl rq = u
                /\ (requestKind rq = Navigation ->
                    activeRequests s !! u = Some (requestSignal rq)))
  /\ (forall q, is_Some (requests s !! q) -> (q < nextPromise s)%nat)
  /\ (forall c, c ∈ aborted s -> (c < nextController s)%nat)
  /\ (forall u c, activeRequests s !! u = Some c -> (c < nextController s)%nat)
  /\ (forall l, l ∈ listeners s -> (l.2 < nextController s)%nat).

(** A timer that evicts a prefetched entry is armed only once the
    fetch of that prefetch has settled. *)
Definition evictionsSettled (s : State) : Prop :=
  (forall timer due u p,
     timers s !! timer = Some (due, EvictPrefetch u p) -> is_Some (settled s !! p))
  /\ (forall timer, is_Some (timers s !! timer) -> (timer < nextTimer s)%nat).

End Controller.

End NavigationController.

(** ** Sample inputs *)

Module Scenario.

(** Payloads are JSON texts; the page wraps the payload in a paragraph;
    the bundler injected no version and [crypto.subtle] is absent. *)
Definition stringify (d : string) : string := d.
Definition page (d : string) : string :=
  String.append "<p>" (String.append d "</p>").

Definition posts : SwStrategy.RenderContext :=
  {| SwStrategy.url := {| SwStrategy.pathname := "/posts";
                          SwStrategy.search := EmptyString |};
     SwStrategy.headers := []; SwStrategy.params := [] |}.

Definition swRun (es : list (SwStrategy.Event string))
    (s : SwStrategy.State string) : option (SwStrategy.State string) :=
  SwStrategy.run stringify page None None es s.

Definition staleTag : string := "stale".

(** A row of the current version with a fingerprint is stored and then
    requested: the render is a HIT and starts revalidation 1. *)
Definition hitEvents : list (SwStrategy.Event string) :=
  [SwStrategy.ApiCacheRouteData "/posts" "[1]" "1.0.0" (Some staleTag);
   SwStrategy.Render posts;
   SwStrategy.CacheRead 0].

Definition hitState : SwStrategy.State string :=
  default SwStrategy.init (swRun hitEvents SwStrategy.init).

(** The load operation of revalidation 1 resolves with other data, the
    write transaction completes and the ticket is released. *)
Definition refreshTail : list (SwStrategy.Event string) :=
  [SwStrategy.CacheWritten 1; SwStrategy.Finally 1].

Definition refreshedState : SwStrategy.State string :=
  default SwStrategy.init
    (swRun (SwStrategy.LoaderSettled 1 (SwStrategy.Loaded "[1,2]") :: refreshTail)
       hitState).

(** The same while the worker is offline. *)
Definition offlineEvents : list (SwStrategy.Event string) :=
  [SwStrategy.ApiCacheRouteData "/posts" "[1]" "1.0.0" (Some staleTag);
   SwStrategy.Connectivity false;
   SwStrategy.Render posts].

Definition offlineState : SwStrategy.State string :=
  default SwStrategy.init (swRun offlineEvents SwStrategy.init).

(** A row without fingerprint, and a row of an older version. *)
Definition untaggedEvents : list (SwStrategy.Event string) :=
  [SwStrategy.ApiCacheRouteData "/posts" "[1]" "1.0.0" None;
   SwStrategy.Render posts].

Definition untaggedState : SwStrategy.State string :=
  default SwStrategy.init (swRun untaggedEvents SwStrategy.init).

Definition outdatedEvents : list (SwStrategy.Event string) :=
  [SwStrategy.ApiCacheRouteData "/posts" "[1]" "0.9.0" (Some staleTag);
   SwStrategy.Render posts].

Definition outdatedState : SwStrategy.State string :=
  default SwStrategy.init (swRun outdatedEvents SwStrategy.init).

Definition outdatedRow : Cache.CachedRoute string :=
  {| Cache.url := "/posts"; Cache.data := "[1]"; Cache.version := "0.9.0";
     Cache.timestamp := 0; Cache.etag := Some staleTag |}.

Definition untaggedRow : Cache.CachedRoute string :=
  {| Cache.url := "/posts"; Cache.data := "[1]"; Cache.version := "1.0.0";
     Cache.timestamp := 0; Cache.etag := None |}.

(** The browser resolves every URL to itself. *)
Definition sameHref (url : string) : option string := Some url.

Definition plain : NavigationController.NavigationOptions :=
  {| NavigationController.skipHistory := false;
     NavigationController.replace := false;
     NavigationController.signal := None |}.

Definition replacing : NavigationController.NavigationOptions :=
  {| NavigationController.skipHistory := false;
     NavigationController.replace := true;
     NavigationController.signal := None |}.

Definition navRun (es : list NavigationController.Event)
    (s : NavigationController.State) : option NavigationController.State :=
  NavigationController.run sameHref None es s.

Definition navState (es : list NavigationController.Event)
    : NavigationController.State :=
  default NavigationController.init (navRun es NavigationController.init).

Definition okResponse : NavigationController.FetchOutcome :=
  NavigationController.Fulfilled
    {| NavigationController.responseOk := true;
       NavigationController.status := 200;
       NavigationController.statusText := "OK";
       NavigationController.text := "<p>b</p>";
       NavigationController.xFromCache := None |}.

End Scenario.

(** ** middleware.ts: chains as nested calls *)

Module Chains.
Import Middleware.

Section Linear.
Context {T : Type}.
Variable ctx : LoaderCtx.
Variable handler : nat -> Outcome T.

(** How a body that makes no call of [next()] ends. *)
Definition finishes (a : Action T) : option (Outcome T) :=
  match a with
  | Return v => Some (Resolved v)
  | Throw e => Some (Rejected e)
  | CallNext _ => None
  end.

(** Every interceptor that is reached calls [next()] at most once. *)
Fixpoint callNextAtMostOnce (ms : list (LoaderMiddleware T)) : Prop :=
  match ms with
  | [] => True
  | m :: rest =>
      match m ctx with
      | CallNext k => callNextAtMostOnce rest /\ forall o, is_Some (finishes (k o))
      | _ => True
      end
  end.

(** The chain as nested calls: what it settles with and how often the
    loader has been entered, [calls] being the count at the start. *)
Fixpoint onion (ms : list (LoaderMiddleware T)) (calls : nat) : Outcome T * nat :=
  match ms with
  | [] => (handler calls, S calls)
  | m :: rest =>
      match m ctx with
      | Return v => (Resolved v, calls)
      | Throw e => (Rejected e, calls)
      | CallNext k =>
          let inner := onion rest calls in
          (default inner.1 (finishes (k inner.1)), inner.2)
      end
  end.

(** The interceptor awaits [next()] once and hands on what it gets. *)
Definition passesThrough (m : LoaderMiddleware T) : Prop :=
  exists k, m ctx = CallNext k
            /\ forall o, finishes (k o) = Some o.

(** The interceptor ends with [o] without calling [next()]. *)
Definition shortCircuits (m : LoaderMiddleware T) (o : Outcome T) : Prop :=
  finishes (m ctx) = Some o.

End Linear.

(** An interceptor that awaits [next()] [n] times and returns what the
    last call gave, or [last] when it made none. *)
Fixpoint callsNextTimes {T} (n : nat) (last : Outcome T) : Action T :=
  match n with
  | O => match last with Resolved v => Return v | Rejected e => Throw e end
  | S n' => CallNext (fun o => callsNextTimes n' o)
  end.

(** A terminal loader that resolves with the same payload every time. *)
Definition sampleHandler (n : nat) : Outcome string := Resolved "payload".

End Chains.

(** ** middleware.ts: the adapter for Hono middleware *)

Module Hono.
Import Middleware.

(** The body of a Hono [Middleware], seen from the adapter: it returns,
    throws, awaits the [next] it was given (the adapter's [wrappedNext],
    which records the call and resolves at once), or calls
    [c.status(code)], which stores the code under [__status]. *)
Inductive Body :=
| Finish
| Fail (e : Error)
| AwaitNext (k : Body)
| Status (code : Z) (k : Body).

Definition HonoMiddleware := LoaderCtx -> Body.

(** [nextCalled] and the [__status] variable of the context. *)
Record Flags := { nextCalled : bool; status : option Z }.

Fixpoint runBody (b : Body) (f : Flags) : Error + Flags :=
  match b with
  | Finish => inr f
  | Fail e => inl e
  | AwaitNext k => runBody k {| nextCalled := true; status := status f |}
  | Status code k => runBody k {| nextCalled := nextCalled f; status := Some code |}
  end.

Section Adapter.
Context {T : Type}.
(** What [throw new Response(null, { status })] rejects with. *)
Variable thrownResponse : Z -> Error.

(** [return next()] *)
Definition continue : Action T :=
  CallNext (fun o =>
    match o with
    | Resolved v => Return v
    | Rejected e => Throw e
    end).

Definition adaptHonoMiddleware (middleware : HonoMiddleware) : LoaderMiddleware T :=
  fun ctx =>
    match runBody (middleware ctx) {| nextCalled := false; status := None |} with
    | inl e => Throw e
    | inr f =>
        if nextCalled f then continue
        else
          match status f with
          | Some code => if code =? 0 then continue else Throw (thrownResponse code)
          | None => continue
          end
    end.

(** The error an adapted middleware stops the chain with, if any. *)
Definition refusal (ctx : LoaderCtx) (middleware : HonoMiddleware) : option Error :=
  match adaptHonoMiddleware middleware ctx with
  | Throw e => Some e
  | _ => None
  end.

Fixpoint firstRefusal (ctx : LoaderCtx) (chain : list HonoMiddleware) : option Error :=
  match chain with
  | [] => None
  | middleware :: rest =>
      match refusal ctx middleware with
      | Some e => Some e
      | None => firstRefusal ctx rest
      end
  end.

End Adapter.

(** A Hono body that awaits [next()] [n] times, and a guard that sets
    the status 403 and returns. *)
Fixpoint awaitsNext (n : nat) : Body :=
  match n with
  | O => Finish
  | S n' => AwaitNext (awaitsNext n')
  end.

Definition forbid : HonoMiddleware := fun _ => Status 403 Finish.

End Hono.

(** ** sw-strategy.ts: the digest in hexadecimal *)

Module Hex.
Import Fingerprint.

(** [hashArray.map(b => b.toString(16).padStart(2, '0')).join('')] *)
Definition hexOf (bytes : list Z) : string :=
  fold_right String.append EmptyString (map hexByte bytes).

(** A digest of 32 bytes, all of them 0xab. *)
Definition sampleDigest (data : string) : option (list Z) :=
  Some (replicate 32 171).

End Hex.

(** ** sw-strategy.ts: further invariants of the reachable states *)

Module SwInvariants.
Import Cache SwStrategy.

Section Invariants.
Context {Data : Type}.
Variable stringify : Data -> string.
Variable injected : option string.
Variable digest : option (string -> option (list Z)).

Definition fingerprintOf (d : Data) : string :=
  Fingerprint.generateETag digest (stringify d).

(** Every ticket held belongs to a revalidation body of its key. *)
Definition owned (s : State Data) : Prop :=
  forall cacheKey t,
    pendingRevalidations s !! cacheKey = Some t -> revalidating s t cacheKey.

(** A suspended body works for the running version, and the fingerprint
    it carries to the store is the fingerprint of the data it carries. *)
Definition currentTask (k : Task Data) : Prop :=
  match k with
  | FetchAwaitLoader _ v => v = Version.getAppVersion injected
  | FetchAwaitPut _ v d e => v = Version.getAppVersion injected /\ e = fingerprintOf d
  | RevalAwaitLoader _ v _ => v = Version.getAppVersion injected
  | RevalAwaitPut _ v d e => v = Version.getAppVersion injected /\ e = fingerprintOf d
  | _ => True
  end.

Definition currentRow (row : CachedRoute Data) : Prop :=
  version row = Version.getAppVersion injected
  /\ etag row = Some (fingerprintOf (data row)).

Definition consistent (s : State Data) : Prop :=
  map_Forall (fun _ k => currentTask k) (tasks s)
  /\ Forall (fun w => currentRow w.2) (cacheWrites s).

(** The renders that have settled are gone, and each has settled once. *)
Definition repliedOnce (s : State Data) : Prop :=
  NoDup (replies s).*1
  /\ forall t, t ∈ (replies s).*1 -> tasks s !! t = None /\ (t < nextTask s)%nat.

End Invariants.
End SwInvariants.

(** ** Further traces of the service worker *)

Module Samples.
Import SwStrategy Scenario.

(** A first render of [/posts] with an empty store, suspended in its
    load operation, and the same after the loader has resolved. *)
Definition coldEvents : list (Event string) := [Render posts; CacheRead 0].

Definition coldState : State string := default init (swRun coldEvents init).

Definition loadedState : State string :=
  default init (swRun (coldEvents ++ [LoaderSettled 0 (Loaded "[1]")]) init).

(** Two payloads of 1001 characters that differ in the last one only. *)
Definition padding : string := string_of_list_ascii (replicate 1000 "a"%char).
Definition longOld : string := String.append padding "1".
Definition longNew : string := String.append padding "2".

(** A row written by the strategy for [longOld] is requested: the HIT
    starts revalidation 1 with the fingerprint of [longOld]. *)
Definition longEvents : list (Event string) :=
  [Render posts; CacheRead 0; LoaderSettled 0 (Loaded longOld); CacheWritten 0;
   Render posts; CacheRead 1].

Definition longState : State string := default init (swRun longEvents init).

End Samples.

(** ** navigation-controller.ts: the read-only methods *)

Module ControllerViews.
Import NavigationController.

Section Views.
Variable hrefWithoutHash : string -> option string.

(** [isPending(url)], [getPendingCount()], [getHistory()] and
    [getStats()]. *)
Definition isPending (url : string) (s : State) : bool :=
  bool_decide (is_Some (pending s !! normalizeUrl hrefWithoutHash url)).

Definition getPendingCount (s : State) : nat := size (pending s).

Definition getHistory (s : State) : list string := navigationHistory s.

Record Stats := { totalNavigations : nat; pendingNavigations : nat }.

Definition getStats (s : State) : Stats :=
  {| totalNavigations := length (navigationHistory s);
     pendingNavigations := size (pending s) |}.

End Views.

(** Every controller of [activeRequests] belongs to the navigation that
    is pending for its URL, and an eviction timer names a prefetch. *)
Definition inSync (s : State) : Prop :=
  (forall u c, activeRequests s !! u = Some c ->
     exists q rq, pending s !! u = Some q
                  /\ requests s !! q = Some rq
                  /\ requestKind rq = Navigation
                  /\ requestSignal rq = c)
  /\ (forall timer due u p,
        timers s !! timer = Some (due, EvictPrefetch u p) ->
        exists rq, requests s !! p = Some rq /\ requestKind rq = Prefetch).

(** A result is a page or an error, never both and never neither. *)
Definition wellFormed (r : NavigationResult) : Prop :=
  if ok r
  then is_Some (html r) /\ error r = None /\ is_Some (fromCache r)
  else html r = None /\ is_Some (error r) /\ fromCache r = None.

End ControllerViews.

(** ** Further traces of the navigation controller *)

Module Visits.
Import NavigationController Scenario.

(** Fifty navigations to [/a], each completed before the next starts. *)
Definition visits : list Event :=
  flat_map (fun i => [Navigate "/a" plain; FetchSettled (2 * i) okResponse])
    (seq 0 50).

Definition visited : State := navState visits.

(** A navigation to [/a] that has completed. *)
Definition arrived : State := navState [Navigate "/a" plain; FetchSettled 0 okResponse].

End Visits.

(** ** utils/html.ts *)

Module Html.

(** A JavaScript string as the list of its UTF-16 code units. *)
Definition Text := list Z.

Definition units (s : string) : Text :=
  map (fun c => Z.of_nat (nat_of_ascii c)) (list_ascii_of_string s).

(** The six code units of a [\uXXXX] escape sequence. *)
Definition unicodeEscapeOf (hex : string) : Text :=
  units (String (ascii_of_nat 92) (String "u" hex)).

(** [text.replace(/c/g, replacement)] for a pattern of one code unit. *)
Definition replaceAll (c : Z) (replacement : Text) (text : Text) : Text :=
  flat_map (fun x => if x =? c then replacement else [x]) text.

Definition ampersand : Z := 38.
Definition lessThan : Z := 60.
Definition greaterThan : Z := 62.
Definition doubleQuote : Z := 34.
Definition singleQuote : Z := 39.
Definition slash : Z := 47.
Definition hyphen : Z := 45.
Definition lineSeparator : Z := 8232.
Definition paragraphSeparator : Z := 8233.

Definition escapeHtml (text : Text) : Text :=
  replaceAll singleQuote (units "&#39;")
    (replaceAll doubleQuote (units "&quot;")
       (replaceAll greaterThan (units "&gt;")
          (replaceAll lessThan (units "&lt;")
             (replaceAll ampersand (units "&amp;") text)))).

(** [str.replace(/-->/g, '--\\u003e')]: matches are taken from the left
    and do not overlap. *)
Fixpoint replaceCommentEnd (text : Text) : Text :=
  match text with
  | [] => []
  | x :: rest =>
      match rest with
      | y :: z :: rest' =>
          if (x =? hyphen) && (y =? hyphen) && (z =? greaterThan)
          then units "--" ++ unicodeEscapeOf "003e" ++ replaceCommentEnd rest'
          else x :: replaceCommentEnd rest
      | _ => x :: replaceCommentEnd rest
      end
  end.

Section Json.
Context {Data : Type}.
(** [JSON.stringify]: [None] when it returns [undefined] or throws. *)
Variable stringify : Data -> option Text.

(** [None] is the exception: that of [JSON.stringify], or the
    [TypeError] of calling [replace] on [undefined]. *)
Definition safeJsonStringify (data : Data) : option Text :=
  match stringify data with
  | Some str =>
      Some (replaceAll paragraphSeparator (unicodeEscapeOf "2029")
              (replaceAll lineSeparator (unicodeEscapeOf "2028")
                 (replaceCommentEnd
                    (replaceAll slash (unicodeEscapeOf "002f")
                       (replaceAll greaterThan (unicodeEscapeOf "003e")
                          (replaceAll lessThan (unicodeEscapeOf "003c") str))))))
  | None => None
  end.

End Json.

(** What one code unit becomes in [escapeHtml] and in
    [safeJsonStringify]. *)
Definition entity (x : Z) : Text :=
  if x =? ampersand then units "&amp;"
  else if x =? lessThan then units "&lt;"
  else if x =? greaterThan then units "&gt;"
  else if x =? doubleQuote then units "&quot;"
  else if x =? singleQuote then units "&#39;"
  else [x].

Definition unicodeEscape (x : Z) : Text :=
  if x =? lessThan then unicodeEscapeOf "003c"
  else if x =? greaterThan then unicodeEscapeOf "003e"
  else if x =? slash then unicodeEscapeOf "002f"
  else if x =? lineSeparator then unicodeEscapeOf "2028"
  else if x =? paragraphSeparator then unicodeEscapeOf "2029"
  else [x].

(** The code units that end a text node or an attribute value, and those
    that end a script element, an HTML comment or a line of script. *)
Definition markup (x : Z) : Prop :=
  x = lessThan \/ x = greaterThan \/ x = doubleQuote \/ x = singleQuote.

Definition breaksOut (x : Z) : Prop :=
  x = lessThan \/ x = greaterThan \/ x = slash
  \/ x = lineSeparator \/ x = paragraphSeparator.

(** The passes of [safeJsonStringify] whose pattern is one code unit. *)
Definition unitPasses (str : Text) : Text :=
  replaceAll paragraphSeparator (unicodeEscapeOf "2029")
    (replaceAll lineSeparator (unicodeEscapeOf "2028")
       (replaceAll slash (unicodeEscapeOf "002f")
          (replaceAll greaterThan (unicodeEscapeOf "003e")
             (replaceAll lessThan (unicodeEscapeOf "003c") str)))).

End Html.

(** ** prefetch.ts *)

Module Prefetching.

(** The module's [prefetched] set and the part of the browser it acts
    on: the fetches in flight (by an identifier given at the call), the
    URLs fetched so far in order, the armed timers and the clock. *)
Record State := {
  prefetched : gset string;
  inFlight : gmap nat string;
  issued : list string;
  timers : gmap nat (Z * string);
  clock : Z;
  nextFetch : nat;
  nextTimer : nat
}.

Inductive Event :=
| PrefetchUrl (url : string)
| PrefetchRoutes (patterns : list string)
| ClearPrefetchCache
| FetchFulfilled (fetch : nat)
| FetchRejected (fetch : nat)
| TimerFired (timer : nat)
| Tick (dt : Z).

Definition cleanupDelay : Z := 30000.

Definition init : State :=
  {| prefetched := ∅; inFlight := ∅; issued := []; timers := ∅; clock := 0;
     nextFetch := 0; nextTimer := 0 |}.

Definition setPrefetched (p : gset string) (s : State) : State :=
  {| prefetched := p; inFlight := inFlight s; issued := issued s;
     timers := timers s; clock := clock s;
     nextFetch := nextFetch s; nextTimer := nextTimer s |}.

Definition setInFlight (m : gmap nat string) (s : State) : State :=
  {| prefetched := prefetched s; inFlight := m; issued := issued s;
     timers := timers s; clock := clock s;
     nextFetch := nextFetch s; nextTimer := nextTimer s |}.

Definition setTimers (t : gmap nat (Z * string)) (s : State) : State :=
  {| prefetched := prefetched s; inFlight := inFlight s; issued := issued s;
     timers := t; clock := clock s;
     nextFetch := nextFetch s; nextTimer := nextTimer s |}.

Definition setClock (c : Z) (s : State) : State :=
  {| prefetched := prefetched s; inFlight := inFlight s; issued := issued s;
     timers := timers s; clock := c;
     nextFetch := nextFetch s; nextTimer := nextTimer s |}.

(** [prefetchUrl(url, priority)]; the priority is only handed to
    [fetch]. *)
Definition prefetchUrl (url : string) (s : State) : State :=
  if bool_decide (url ∈ prefetched s) then s
  else
    {| prefetched := {[url]} ∪ prefetched s;
       inFlight := <[nextFetch s := url]> (inFlight s);
       issued := issued s ++ [url];
       timers := <[nextTimer s := (clock s + cleanupDelay, url)]> (timers s);
       clock := clock s;
       nextFetch := S (nextFetch s);
       nextTimer := S (nextTimer s) |}.

(** [prefetchRoutes(patterns)] *)
Definition prefetchRoutes (patterns : list string) (s : State) : State :=
  foldl (fun s pattern => prefetchUrl pattern s) s patterns.

(** [clearPrefetchCache()] *)
Definition clearPrefetchCache (s : State) : State := setPrefetched ∅ s.

(** A fetch settles; the [catch] callback of a rejected one removes the
    mark of its URL. *)
Definition fetchSettled (rejected : bool) (fetch : nat) (s : State) : option State :=
  match inFlight s !! fetch with
  | Some url =>
      let s1 := setInFlight (delete fetch (inFlight s)) s in
      Some (if rejected then setPrefetched (prefetched s ∖ {[url]}) s1 else s1)
  | None => None
  end.

(** An armed timer whose time has come removes the mark of its URL. *)
Definition timerFired (timer : nat) (s : State) : option State :=
  match timers s !! timer with
  | Some (due, url) =>
      if due <=? clock s
      then Some (setPrefetched (prefetched s ∖ {[url]})
                   (setTimers (delete timer (timers s)) s))
      else None
  | None => None
  end.

Definition step (e : Event) (s : State) : option State :=
  match e with
  | PrefetchUrl url => Some (prefetchUrl url s)
  | PrefetchRoutes patterns => Some (prefetchRoutes patterns s)
  | ClearPrefetchCache => Some (clearPrefetchCache s)
  | FetchFulfilled fetch => fetchSettled false fetch s
  | FetchRejected fetch => fetchSettled true fetch s
  | TimerFired timer => timerFired timer s
  | Tick dt => if 0 <=? dt then Some (setClock (clock s + dt) s) else None
  end.

Fixpoint run (es : list Event) (s : State) : option State :=
  match es with
  | [] => Some s
  | e :: es' =>
      match step e s with
      | Some s' => run es' s'
      | None => None
      end
  end.

Inductive reachable : State -> Prop :=
| reachable_init : reachable init
| reachable_step s e s' : reachable s -> step e s = Some s' -> reachable s'.

(** Every mark has a timer that removes it, due within the delay, and
    identifiers are not reused. *)
Definition expiring (s : State) : Prop :=
  (forall url, url ∈ prefetched s ->
     exists timer due, timers s !! timer = Some (due, url)
                       /\ due <= clock s + cleanupDelay)
  /\ (forall timer, is_Some (timers s !! timer) -> (timer < nextTimer s)%nat)
  /\ (forall fetch, is_Some (inFlight s !! fetch) -> (fetch < nextFetch s)%nat).

End Prefetching.

(* ===================================================================== *)
(** * Part II: properties                                                 *)
(* ===================================================================== *)

(** ** The middleware chain executors *)

Module MiddlewareFacts.
Import Middleware.

Section Facts.
Context {T : Type}.
Variable ctx : LoaderCtx.
Variable handler : nat -> Outcome T.
Variable middlewares : list (LoaderMiddleware T).

Local Abbreviation len := (Z.of_nat (length middlewares)).

(** A property of the run that every call of the continuation
    establishes again is established by the whole body. *)
Lemma runAction_preserves (Q : Run -> Prop) (a : Action T)
    (k : Run -> option (Outcome T * Run)) :
  (forall s o s', Q s -> k s = Some (o, s') -> Q s') ->
  forall s o s', Q s -> runAction a k s = Some (o, s') -> Q s'.
Proof.
  intros Hk. induction a as [v|e|f IH]; simpl; intros s o s' HQ Hrun.
  - by inversion Hrun; subst.
  - by inversion Hrun; subst.
  - destruct (k s) as [[o1 s1]|] eqn:Hks; [|done].
    eapply IH; [|exact Hrun]. eapply Hk; eauto.
Qed.

Lemma runAction_total (Q : Run -> Prop) (a : Action T)
    (k : Run -> option (Outcome T * Run)) :
  (forall s, Q s -> exists o s', k s = Some (o, s') /\ Q s') ->
  forall s, Q s -> exists o s', runAction a k s = Some (o, s') /\ Q s'.
Proof.
  intros Hk. induction a as [v|e|f IH]; simpl; intros s HQ.
  - eauto.
  - eauto.
  - destruct (Hk s HQ) as (o1 & s1 & -> & HQ1). eauto.
Qed.

(** The guard of [dispatch]: an index already visited is refused and
    nothing runs. *)
Lemma dispatch_visited fuel i s :
  i <= index s ->
  dispatch ctx handler middlewares fuel i s
  = Some (Rejected NextCalledMultipleTimes, s).
Proof.
  intros Hi. destruct fuel; simpl;
    (destruct (Z.leb_spec i (index s)); [done | lia]).
Qed.

Lemma dispatch_invariant fuel : forall i s o s',
  i <= len -> loaderOnce middlewares s ->
  dispatch ctx handler middlewares fuel i s = Some (o, s') ->
  loaderOnce middlewares s' /\ i <= index s'.
Proof.
  induction fuel as [|fuel IH]; intros i s o s' Hi HJ Hd; simpl in Hd.
  - destruct (Z.leb_spec i (index s)) as [E1|E1].
    + inversion Hd; subst. split; [done | lia].
    + destruct (Z.leb_spec len i) as [E2|E2]; [|done].
      inversion Hd; subst; simpl. split; [|lia].
      destruct HJ as [H0|[H1 Hge]]; [|lia]. right. simpl. split; [by rewrite H0 | lia].
  - destruct (Z.leb_spec i (index s)) as [E1|E1].
    + inversion Hd; subst. split; [done | lia].
    + destruct (Z.leb_spec len i) as [E2|E2].
      * inversion Hd; subst; simpl. split; [|lia].
        destruct HJ as [H0|[H1 Hge]]; [|lia]. right. simpl. split; [by rewrite H0 | lia].
      * destruct (middlewares !! Z.to_nat i) as [m|] eqn:Hm.
        -- eapply (runAction_preserves (fun r => loaderOnce middlewares r /\ i <= index r));
             [| |exact Hd].
           ++ intros r o1 r1 [HJr Hir] Hk.
              destruct (IH (i + 1) r o1 r1) as [HJ1 Hi1]; [lia|done|done|].
              split; [done | lia].
           ++ split; simpl; [|lia].
              destruct HJ as [H0|[H1 Hge]]; [left; simpl; done | lia].
        -- inversion Hd; subst; simpl. split; [|lia].
           destruct HJ as [H0|[H1 Hge]]; [left; simpl; done | lia].
Qed.

Lemma dispatch_total fuel : forall i s,
  0 <= i -> len - i <= Z.of_nat fuel ->
  exists o s', dispatch ctx handler middlewares fuel i s = Some (o, s').
Proof.
  induction fuel as [|fuel IH]; intros i s Hi Hf; simpl.
  - destruct (i <=? index s); [eauto|].
    destruct (Z.leb_spec len i); [eauto | lia].
  - destruct (i <=? index s); [eauto|].
    destruct (Z.leb_spec len i); [eauto|].
    destruct (middlewares !! Z.to_nat i) as [m|]; [|eauto].
    edestruct (runAction_total (fun _ => True) (m ctx)
                 (dispatch ctx handler middlewares fuel (i + 1)))
      as (o & s' & Hr & _); [| |eauto].
    + intros r _. destruct (IH (i + 1) r) as (o & s' & Hr); [lia|lia|eauto].
    + exact I.
Qed.

(** X1.  [compose] always settles, and the terminal loader has been entered
    at most once when it does. *)
Lemma compose_loader_at_most_once :
  exists o s', compose ctx handler middlewares = Some (o, s')
               /\ (loaderCalls s' <= 1)%nat.
Proof.
  unfold compose.
  destruct (dispatch_total (length middlewares) 0 {| index := -1; loaderCalls := 0 |})
    as (o & s' & Hd); [lia|lia|].
  exists o, s'. split; [done|].
  assert (Hlen : 0 <= len) by lia.
  assert (Hinit : loaderOnce middlewares {| index := -1; loaderCalls := 0 |}) by (by left).
  destruct (dispatch_invariant _ 0 _ _ _ Hlen Hinit Hd)
    as [[H|[H _]] _]; lia.
Qed.

(** X2.  In [compose], once the continuation handed to interceptor [i] has
    been called, every further call of it is rejected with the
    protocol error and leaves the run as it is: no interceptor and no
    loader is entered again. *)
Lemma compose_second_next_rejected fuel fuel' i s o s1 s2 :
  0 <= i < len -> loaderOnce middlewares s ->
  dispatch ctx handler middlewares fuel (i + 1) s = Some (o, s1) ->
  index s1 <= index s2 ->
  dispatch ctx handler middlewares fuel' (i + 1) s2
  = Some (Rejected NextCalledMultipleTimes, s2).
Proof.
  intros Hi HJ Hd Hle.
  assert (Hlen : i + 1 <= len) by lia.
  destruct (dispatch_invariant _ _ _ _ _ Hlen HJ Hd) as [_ Hidx].
  apply dispatch_visited. lia.
Qed.

Lemma next_total fuel : forall s,
  0 <= index s -> len - index s <= Z.of_nat fuel ->
  exists o s', next ctx handler middlewares fuel s = Some (o, s')
               /\ index s <= index s'.
Proof.
  induction fuel as [|fuel IH]; intros s Hi Hf; simpl.
  - destruct (Z.leb_spec len (index s)); [|lia].
    eexists _, _; split; [done | simpl; lia].
  - destruct (Z.leb_spec len (index s)).
    { eexists _, _; split; [done | simpl; lia]. }
    destruct (middlewares !! Z.to_nat (index s)) as [m|].
    + edestruct (runAction_total (fun r => index s + 1 <= index r) (m ctx)
                   (next ctx handler middlewares fuel))
        as (o & s' & Hr & Hle); [| |exists o, s'; split; [exact Hr | lia]].
      * intros r Hr. destruct (IH r) as (o & s' & Hn & Hle); [lia|lia|].
        exists o, s'. split; [done | lia].
      * simpl. lia.
    + eexists _, _; split; [done | simpl; lia].
Qed.

Lemma runMiddleware_total :
  exists o s', runMiddleware ctx handler middlewares = Some (o, s').
Proof.
  unfold runMiddleware.
  destruct (next_total (length middlewares) {| index := 0; loaderCalls := 0 |})
    as (o & s' & H & _); simpl; [lia|lia|eauto].
Qed.

End Facts.

(** The same chain, one interceptor that awaits [next()] twice, under
    [compose]: the second call is refused and the loader has run once. *)
Lemma compose_double_next (handler : nat -> Outcome string) :
  compose sampleCtx handler [callsNextTwice]
  = Some (Rejected NextCalledMultipleTimes, {| index := 1; loaderCalls := 1 |}).
Proof. reflexivity. Qed.

(** The chain [A, B] of two interceptors that call [next()] once each:
    both executors enter the loader exactly once and hand its result back
    unchanged. *)
Lemma passThrough_chain (handler : nat -> Outcome string) :
  runMiddleware sampleCtx handler [passThrough; passThrough]
  = Some (handler 0%nat, {| index := 2; loaderCalls := 1 |})
  /\ compose sampleCtx handler [passThrough; passThrough]
     = Some (handler 0%nat, {| index := 2; loaderCalls := 1 |}).
Proof. cbv. by destruct (handler 0%nat). Qed.

(** An interceptor that never calls [next()] halts the chain: the loader
    is not entered. *)
Lemma short_circuit (handler : nat -> Outcome string) (denied : string) :
  runMiddleware sampleCtx handler [fun _ => Return denied; passThrough]
  = Some (Resolved denied, {| index := 1; loaderCalls := 0 |})
  /\ compose sampleCtx handler [fun _ => Return denied; passThrough]
     = Some (Resolved denied, {| index := 0; loaderCalls := 0 |}).
Proof. by cbv. Qed.

(** C1 (the code departs from the claim).  The claim: in both chain
    executors an interceptor that invokes [next] more than once makes the
    executor fail with a protocol error, and the terminal loader is not
    invoked a second time.  [compose] does so (lemmas
    [compose_second_next_rejected], [compose_loader_at_most_once],
    [compose_double_next]); [runMiddleware], the executor the service
    worker uses, does not: with the single interceptor
    [async (ctx, next) => { await next(); return next() }] it settles
    with what the second run of the loader returns, the loader having
    been entered twice, and no error is raised. *)
Theorem runMiddleware_double_next_runs_loader_twice
    (handler : nat -> Outcome string) :
  runMiddleware sampleCtx handler [callsNextTwice]
  = Some (handler 1%nat, {| index := 1; loaderCalls := 2 |}).
Proof. cbv. by destruct (handler 1%nat). Qed.

End MiddlewareFacts.

(** ** The fingerprint generator *)

Module FingerprintFacts.
Import Fingerprint.

(** Without [crypto.subtle] the payload [abc] hashes to 96354, which is
    [22ci] in base 36, and has length 3. *)
Example fallbackETag_abc :
  generateETag None "abc"
  = String quote (String.append "22ci-3" (String quote EmptyString)).
Proof. reflexivity. Qed.

(** The fingerprint is never the empty string: on both paths it opens
    with a quotation mark. *)
Lemma generateETag_nonempty digest data :
  generateETag digest data <> EmptyString.
Proof.
  unfold generateETag, fallbackETag.
  destruct digest as [sha256|]; [destruct (sha256 data)|]; done.
Qed.

(** Identical payloads have identical fingerprints on one path. *)
Lemma generateETag_deterministic digest data1 data2 :
  data1 = data2 -> generateETag digest data1 = generateETag digest data2.
Proof. by intros ->. Qed.

End FingerprintFacts.

(** ** The cache store *)

Module CacheFacts.
Import Cache.

Section Facts.
Context {Data : Type}.
Implicit Types routes : gmap string (CachedRoute Data).

(** A write under another key leaves the row of [url] as it is. *)
Lemma getCachedRouteData_other routes now url url' data v e :
  url' <> url ->
  getCachedRouteData url (cacheRouteData now url' data v e routes)
  = getCachedRouteData url routes.
Proof.
  intros Hne. unfold getCachedRouteData, cacheRouteData.
  by rewrite lookup_insert_ne.
Qed.

(** [clearAllCache] leaves the store empty, however often it runs. *)
Lemma clearAllCache_twice routes :
  clearAllCache (clearAllCache routes) = ∅ /\ clearAllCache routes = ∅.
Proof. done. Qed.

(** [clearCacheByVersion] removes the rows of that version only. *)
Lemma clearCacheByVersion_lookup routes v url :
  clearCacheByVersion v routes !! url
  = match routes !! url with
    | Some row => if decide (version row = v) then None else Some row
    | None => None
    end.
Proof.
  unfold clearCacheByVersion.
  destruct (routes !! url) as [row|] eqn:Hrow.
  - destruct (decide (version row = v)) as [Heq|Hne].
    + apply map_lookup_filter_None. right. intros x Hx. simplify_eq. simpl. tauto.
    + apply map_lookup_filter_Some. by split.
  - apply map_lookup_filter_None. by left.
Qed.

(** C6.  Storing a value under [url] with version [v] and fingerprint
    [e], then reading [url] back, returns a row with that value, that
    version and that fingerprint; the same row is read back after any
    write under another key, as long as [url] itself is not written
    again. *)
Theorem cache_round_trip routes now url value v e :
  exists row,
    getCachedRouteData url (cacheRouteData now url value v e routes) = Some row
    /\ data row = value
    /\ version row = v
    /\ etag row = e
    /\ forall now' url' value' v' e',
         url' <> url ->
         getCachedRouteData url
           (cacheRouteData now' url' value' v' e'
              (cacheRouteData now url value v e routes))
         = Some row.
Proof.
  eexists. split; [apply lookup_insert_eq|]. repeat split.
  intros now' url' value' v' e' Hne.
  rewrite getCachedRouteData_other by done. apply lookup_insert_eq.
Qed.

End Facts.

(** The round trip on an empty store, with a later write under another
    key. *)
Lemma cache_round_trip_witness :
  "/about" <> "/posts"
  /\ exists row,
       getCachedRouteData "/posts"
         (cacheRouteData 7 "/about" "{}" "1.0.0" None
            (cacheRouteData 5 "/posts" "[1]" "1.0.0" (Some Scenario.staleTag) ∅))
       = Some row
       /\ data row = "[1]" /\ version row = "1.0.0"
       /\ etag row = Some Scenario.staleTag.
Proof.
  split; [done|].
  destruct (cache_round_trip (∅ : gmap string (CachedRoute string))
              5 "/posts" "[1]" "1.0.0" (Some Scenario.staleTag))
    as (row & _ & Hd & Hv & He & Hother).
  exists row. split; [by apply Hother|]. by repeat split.
Defined.

End CacheFacts.

(** ** The render strategy coordinator and the revalidation tickets *)

Module SwFacts.
Import Cache SwStrategy.

Section Facts.
Context {Data : Type}.
Variable stringify : Data -> string.
Variable renderFn : Data -> string.
Variable injected : option string.
Variable digest : option (string -> option (list Z)).

Local Abbreviation step := (step stringify renderFn injected digest).
Local Abbreviation run := (run stringify renderFn injected digest).
Local Abbreviation reachable := (reachable stringify renderFn injected digest).
Local Abbreviation afterGet := (afterGetCachedRouteData renderFn injected).
Local Abbreviation afterLoad := (afterLoader stringify digest).
Local Abbreviation afterPut := (afterCacheRouteData renderFn).
Local Abbreviation fingerprint :=
  (fun d : Data => Fingerprint.generateETag digest (stringify d)).

Implicit Types (ts : gmap nat (Task Data)) (ps : gmap string nat).
Implicit Types (s : State Data).

(** *** The call of [revalidateInBackground] *)

Lemma revalidate_ticket_held (s : State Data) cacheKey appVersion cachedEtag ticket :
  pendingRevalidations s !! cacheKey = Some ticket ->
  revalidateInBackground cacheKey appVersion cachedEtag s = s.
Proof. intros H. unfold revalidateInBackground. by rewrite H. Qed.

Lemma revalidate_offline (s : State Data) cacheKey appVersion cachedEtag :
  pendingRevalidations s !! cacheKey = None -> onLine s = false ->
  revalidateInBackground cacheKey appVersion cachedEtag s
  = setPending (<[cacheKey := nextTask s]> (pendingRevalidations s))
      (spawn (RevalSettled cacheKey) s).
Proof. intros H1 H2. unfold revalidateInBackground. by rewrite H1, H2. Qed.

Lemma revalidate_online (s : State Data) cacheKey appVersion cachedEtag :
  pendingRevalidations s !! cacheKey = None -> onLine s = true ->
  revalidateInBackground cacheKey appVersion cachedEtag s
  = setPending (<[cacheKey := nextTask s]> (pendingRevalidations s))
      (spawn (RevalAwaitLoader cacheKey appVersion cachedEtag)
         (logLoaderRun (nextTask s) cacheKey s)).
Proof. intros H1 H2. unfold revalidateInBackground. by rewrite H1, H2. Qed.

(** *** Tickets and bodies *)

Lemma ticketedOn_fresh ts ps n : ticketedOn ts ps n -> ts !! n = None.
Proof.
  intros [_ Hlt]. destruct (ts !! n) eqn:E; [|done].
  specialize (Hlt n (mk_is_Some _ _ E)). lia.
Qed.

Lemma ticketedOn_retask ts ps n t old new :
  ticketedOn ts ps n -> ts !! t = Some old ->
  (forall k, revalidationKey new = Some k -> revalidationKey old = Some k) ->
  ticketedOn (<[t := new]> ts) ps n.
Proof.
  intros [Hrev Hlt] Hold Hkey. split.
  - intros t' k. destruct (decide (t' = t)) as [->|Hne].
    + rewrite lookup_insert_eq. simpl. intros Hk.
      apply Hrev. rewrite Hold. simpl. by apply Hkey.
    + rewrite lookup_insert_ne by done. apply Hrev.
  - intros t' [x Hx]. destruct (decide (t' = t)) as [->|Hne].
    + apply Hlt. by rewrite Hold.
    + rewrite lookup_insert_ne in Hx by done. apply Hlt. by rewrite Hx.
Qed.

Lemma ticketedOn_done ts ps n t :
  ticketedOn ts ps n -> ticketedOn (delete t ts) ps n.
Proof.
  intros [Hrev Hlt]. split.
  - intros t' k. destruct (decide (t' = t)) as [->|Hne].
    + by rewrite lookup_delete_eq.
    + rewrite lookup_delete_ne by done. apply Hrev.
  - intros t' [x Hx]. destruct (decide (t' = t)) as [->|Hne].
    + by rewrite lookup_delete_eq in Hx.
    + rewrite lookup_delete_ne in Hx by done. apply Hlt. by rewrite Hx.
Qed.

Lemma ticketedOn_spawn ts ps n new :
  ticketedOn ts ps n -> revalidationKey new = None ->
  ticketedOn (<[n := new]> ts) ps (S n).
Proof.
  intros HI Hnew. pose proof (ticketedOn_fresh _ _ _ HI) as Hn.
  destruct HI as [Hrev Hlt]. split.
  - intros t' k. destruct (decide (t' = n)) as [->|Hne].
    + rewrite lookup_insert_eq. simpl. by rewrite Hnew.
    + rewrite lookup_insert_ne by done. apply Hrev.
  - intros t' [x Hx]. destruct (decide (t' = n)) as [->|Hne]; [lia|].
    rewrite lookup_insert_ne in Hx by done.
    specialize (Hlt t' (mk_is_Some _ _ Hx)). lia.
Qed.

Lemma ticketedOn_register ts ps n new cacheKey :
  ticketedOn ts ps n -> ps !! cacheKey = None ->
  revalidationKey new = Some cacheKey ->
  ticketedOn (<[n := new]> ts) (<[cacheKey := n]> ps) (S n).
Proof.
  intros HI Hfree Hnew. pose proof (ticketedOn_fresh _ _ _ HI) as Hn.
  destruct HI as [Hrev Hlt]. split.
  - intros t' k. destruct (decide (t' = n)) as [->|Hne].
    + rewrite lookup_insert_eq. simpl. rewrite Hnew. intros [= <-].
      by rewrite lookup_insert_eq.
    + rewrite lookup_insert_ne by done. intros Hk.
      specialize (Hrev t' k Hk).
      rewrite lookup_insert_ne; [done | congruence].
  - intros t' [x Hx]. destruct (decide (t' = n)) as [->|Hne]; [lia|].
    rewrite lookup_insert_ne in Hx by done.
    specialize (Hlt t' (mk_is_Some _ _ Hx)). lia.
Qed.

Lemma ticketedOn_release ts ps n t cacheKey :
  ticketedOn ts ps n -> ts !! t = Some (RevalSettled cacheKey) ->
  ticketedOn (delete t ts) (delete cacheKey ps) n.
Proof.
  intros [Hrev Hlt] Ht. split.
  - intros t' k. destruct (decide (t' = t)) as [->|Hne].
    + by rewrite lookup_delete_eq.
    + rewrite lookup_delete_ne by done. intros Hk.
      pose proof (Hrev t' k Hk) as Hp.
      assert (Hown : ps !! cacheKey = Some t) by (apply Hrev; by rewrite Ht).
      rewrite lookup_delete_ne; [done|]. intros <-. congruence.
  - intros t' [x Hx]. destruct (decide (t' = t)) as [->|Hne].
    + by rewrite lookup_delete_eq in Hx.
    + rewrite lookup_delete_ne in Hx by done. apply Hlt. by rewrite Hx.
Qed.

Lemma ticketed_init : ticketed (init : State Data).
Proof.
  split; simpl.
  - intros t k. by rewrite lookup_empty.
  - intros t [x Hx]. by rewrite lookup_empty in Hx.
Qed.

Lemma ticketed_revalidate s cacheKey appVersion cachedEtag :
  ticketed s -> ticketed (revalidateInBackground cacheKey appVersion cachedEtag s).
Proof.
  intros HI. unfold revalidateInBackground.
  destruct (pendingRevalidations s !! cacheKey) eqn:Hp; [done|].
  destruct (onLine s); by apply ticketedOn_register.
Qed.

Lemma ticketed_step s e s' : ticketed s -> step e s = Some s' -> ticketed s'.
Proof.
  unfold ticketed. intros HI Hstep. destruct e; simpl in Hstep.
  - inversion Hstep; subst. by apply ticketedOn_spawn.
  - unfold afterGetCachedRouteData in Hstep.
    destruct (tasks s !! t) as [[ctx| | | | |]|] eqn:Ht; try done.
    assert (Hmiss : ticketed (fetchAndCache t (cacheKeyOf ctx)
                                (Version.getAppVersion injected) s))
      by (eapply ticketedOn_retask; [exact HI | exact Ht | done]).
    destruct (getCachedRouteData _ _) as [cached|]; [|by inversion Hstep; subst].
    destruct (Version.isVersionCompatible _ _); [|by inversion Hstep; subst].
    inversion Hstep; subst. simpl.
    apply ticketedOn_done. by apply ticketed_revalidate.
  - unfold afterLoader in Hstep.
    destruct (tasks s !! t) as [[| | | k v F| |]|] eqn:Ht; try done.
    + destruct o; inversion Hstep; subst; simpl.
      * eapply ticketedOn_retask; [exact HI | exact Ht | done].
      * by apply ticketedOn_done.
    + destruct o; [case_bool_decide|]; inversion Hstep; subst; simpl;
        (eapply ticketedOn_retask; [exact HI | exact Ht | done]).
  - unfold afterCacheRouteData in Hstep.
    destruct (tasks s !! t) as [[| |k v d e| |k v d e|]|] eqn:Ht; try done;
      inversion Hstep; subst; simpl.
    + by apply ticketedOn_done.
    + eapply ticketedOn_retask; [exact HI | exact Ht | done].
  - unfold revalidationFinally in Hstep.
    destruct (tasks s !! t) as [[| | | | |k]|] eqn:Ht; try done.
    inversion Hstep; subst; simpl. by apply ticketedOn_release.
  - by inversion Hstep; subst.
  - destruct (0 <=? dt); [|done]. by inversion Hstep; subst.
  - by inversion Hstep; subst.
  - by inversion Hstep; subst.
  - by inversion Hstep; subst.
  - by inversion Hstep; subst.
Qed.

Lemma reachable_ticketed s : reachable s -> ticketed s.
Proof.
  induction 1 as [|s e s' _ IH Hstep]; [apply ticketed_init|].
  by eapply ticketed_step.
Qed.

(** C2.  For every request key at most one background revalidation
    is in flight at any instant: in every reachable state a
    revalidation body of the key holds the key's ticket, so two such
    bodies are one and the same; and a call of
    [revalidateInBackground] for a key whose ticket is held returns
    at once with nothing changed: the loader is not run and no second
    ticket is registered. *)
Theorem revalidation_single_flight s cacheKey :
  reachable s ->
  (forall t, revalidating s t cacheKey ->
     pendingRevalidations s !! cacheKey = Some t)
  /\ (forall t1 t2,
        revalidating s t1 cacheKey -> revalidating s t2 cacheKey -> t1 = t2)
  /\ (forall ticket appVersion cachedEtag,
        pendingRevalidations s !! cacheKey = Some ticket ->
        revalidateInBackground cacheKey appVersion cachedEtag s = s).
Proof.
  intros Hr. destruct (reachable_ticketed s Hr) as [Hrev _].
  split; [intros t; apply Hrev|]. split.
  - intros t1 t2 H1 H2.
    pose proof (Hrev t1 cacheKey H1). pose proof (Hrev t2 cacheKey H2). congruence.
  - intros ticket v e Hp. by eapply revalidate_ticket_held.
Qed.

(** *** What a body has done *)

Lemma writesBy_storeRoute t t' cacheKey data appVersion etag (s : State Data) :
  writesBy t (storeRoute t' cacheKey data appVersion etag s)
  = writesBy t s ++
    (if bool_decide (t' = t)
     then [{| Cache.url := cacheKey; data := data; version := appVersion;
              timestamp := now s; etag := Some etag |}]
     else []).
Proof. unfold writesBy. simpl. rewrite omap_app. simpl. by case_bool_decide. Qed.

Lemma notificationsBy_log t t' cacheKey data (s : State Data) :
  notificationsBy t (logNotification t' cacheKey data s)
  = notificationsBy t s ++ (if bool_decide (t' = t) then [(cacheKey, data)] else []).
Proof. unfold notificationsBy. simpl. rewrite omap_app. simpl. by case_bool_decide. Qed.

Lemma step_enabled s e s' t :
  step e s = Some s' -> target e = Some t -> is_Some (tasks s !! t).
Proof.
  intros Hstep Htarget.
  destruct e; simpl in Hstep, Htarget; simplify_eq;
    unfold afterGetCachedRouteData, afterLoader, afterCacheRouteData,
      revalidationFinally in Hstep;
    by destruct (tasks s !! t).
Qed.

(** An event that resumes another body leaves body [t] as it is. *)
Lemma step_tasks s e s' t :
  step e s = Some s' -> target e <> Some t -> (t < nextTask s)%nat ->
  tasks s' !! t = tasks s !! t.
Proof.
  intros Hstep Htarget Hlt. destruct e; simpl in Hstep, Htarget.
  - inversion Hstep; subst; simpl. by rewrite lookup_insert_ne by lia.
  - assert (t0 <> t) by congruence.
    unfold afterGetCachedRouteData in Hstep.
    destruct (tasks s !! t0) as [[ctx| | | | |]|] eqn:Ht; try done.
    assert (Hmiss : forall k v, tasks (fetchAndCache t0 k v s) !! t = tasks s !! t)
      by (intros; simpl; by rewrite lookup_insert_ne).
    destruct (getCachedRouteData _ _) as [cached|]; [|by inversion Hstep; subst].
    destruct (Version.isVersionCompatible _ _); [|by inversion Hstep; subst].
    inversion Hstep; subst; simpl. rewrite lookup_delete_ne by done.
    unfold revalidateInBackground.
    destruct (pendingRevalidations s !! cacheKeyOf ctx); [done|].
    destruct (onLine s); simpl; by rewrite lookup_insert_ne by lia.
  - assert (t0 <> t) by congruence.
    unfold afterLoader in Hstep.
    destruct (tasks s !! t0) as [[| | | k v F| |]|] eqn:Ht; try done;
      destruct o; try case_bool_decide; inversion Hstep; subst; simpl;
      by rewrite ?lookup_insert_ne, ?lookup_delete_ne by done.
  - assert (t0 <> t) by congruence.
    unfold afterCacheRouteData in Hstep.
    destruct (tasks s !! t0) as [[| |k v d e| |k v d e|]|] eqn:Ht; try done;
      inversion Hstep; subst; simpl;
      by rewrite ?lookup_insert_ne, ?lookup_delete_ne by done.
  - assert (t0 <> t) by congruence.
    unfold revalidationFinally in Hstep.
    destruct (tasks s !! t0) as [[| | | | |k]|] eqn:Ht; try done.
    inversion Hstep; subst; simpl. by rewrite lookup_delete_ne.
  - by inversion Hstep; subst.
  - destruct (0 <=? dt); [|done]. by inversion Hstep; subst.
  - by inversion Hstep; subst.
  - by inversion Hstep; subst.
  - by inversion Hstep; subst.
  - by inversion Hstep; subst.
Qed.

(** Only the write transaction of body [t] adds to what [t] has
    written and notified. *)
Lemma step_effects s e s' t :
  step e s = Some s' -> e <> CacheWritten t ->
  writesBy t s' = writesBy t s /\ notificationsBy t s' = notificationsBy t s.
Proof.
  intros Hstep Hne. destruct e; simpl in Hstep.
  - by inversion Hstep; subst.
  - unfold afterGetCachedRouteData in Hstep.
    destruct (tasks s !! t0) as [[ctx| | | | |]|] eqn:Ht; try done.
    destruct (getCachedRouteData _ _) as [cached|]; [|by inversion Hstep; subst].
    destruct (Version.isVersionCompatible _ _); [|by inversion Hstep; subst].
    inversion Hstep; subst. unfold revalidateInBackground.
    destruct (pendingRevalidations s !! cacheKeyOf ctx); [done|].
    by destruct (onLine s).
  - unfold afterLoader in Hstep.
    destruct (tasks s !! t0) as [[| | | k v F| |]|] eqn:Ht; try done;
      destruct o; try case_bool_decide; by inversion Hstep; subst.
  - assert (t0 <> t) by congruence.
    unfold afterCacheRouteData in Hstep.
    destruct (tasks s !! t0) as [[| |k v d e| |k v d e|]|] eqn:Ht; try done;
      inversion Hstep; subst.
    + split; [|done].
      change (writesBy t (storeRoute t0 k d v e s) = writesBy t s).
      rewrite writesBy_storeRoute. case_bool_decide; [done|]. by rewrite app_nil_r.
    + split.
      * change (writesBy t (storeRoute t0 k d v e s) = writesBy t s).
        rewrite writesBy_storeRoute. case_bool_decide; [done|]. by rewrite app_nil_r.
      * change (notificationsBy t
                  (logNotification t0 k d (storeRoute t0 k d v e s))
                = notificationsBy t s).
        rewrite notificationsBy_log. case_bool_decide; [done|]. by rewrite app_nil_r.
  - unfold revalidationFinally in Hstep.
    destruct (tasks s !! t0) as [[| | | | |k]|] eqn:Ht; try done.
    by inversion Hstep; subst.
  - by inversion Hstep; subst.
  - destruct (0 <=? dt); [|done]. by inversion Hstep; subst.
  - by inversion Hstep; subst.
  - by inversion Hstep; subst.
  - by inversion Hstep; subst.
  - by inversion Hstep; subst.
Qed.

Lemma step_nextTask s e s' :
  step e s = Some s' -> (nextTask s <= nextTask s')%nat.
Proof.
  intros Hstep. destruct e; simpl in Hstep.
  - inversion Hstep; subst; simpl. lia.
  - unfold afterGetCachedRouteData in Hstep.
    destruct (tasks s !! t) as [[ctx| | | | |]|]; try done.
    destruct (getCachedRouteData _ _) as [cached|]; [|by inversion Hstep; subst].
    destruct (Version.isVersionCompatible _ _); [|by inversion Hstep; subst].
    inversion Hstep; subst; simpl. unfold revalidateInBackground.
    destruct (pendingRevalidations s !! cacheKeyOf ctx); [done|].
    destruct (onLine s); simpl; lia.
  - unfold afterLoader in Hstep.
    destruct (tasks s !! t) as [[| | | k v F| |]|]; try done;
      destruct o; try case_bool_decide; by inversion Hstep; subst.
  - unfold afterCacheRouteData in Hstep.
    destruct (tasks s !! t) as [[| |k v d e| |k v d e|]|]; try done;
      by inversion Hstep; subst.
  - unfold revalidationFinally in Hstep.
    destruct (tasks s !! t) as [[| | | | |k]|]; try done.
    by inversion Hstep; subst.
  - by inversion Hstep; subst.
  - destruct (0 <=? dt); [|done]. by inversion Hstep; subst.
  - by inversion Hstep; subst.
  - by inversion Hstep; subst.
  - by inversion Hstep; subst.
  - by inversion Hstep; subst.
Qed.

(** The write transaction of a revalidation: the row is overwritten,
    [notifyClientsOfUpdate] is called with the fresh data, and the
    body completes. *)
Lemma afterPut_revalidation s t cacheKey appVersion freshData freshEtag :
  tasks s !! t = Some (RevalAwaitPut cacheKey appVersion freshData freshEtag) ->
  let row := {| Cache.url := cacheKey; data := freshData; version := appVersion;
                timestamp := now s; etag := Some freshEtag |} in
  exists s',
    afterPut t s = Some s'
    /\ routes s' = <[cacheKey := row]> (routes s)
    /\ tasks s' !! t = Some (RevalSettled cacheKey)
    /\ writesBy t s' = writesBy t s ++ [row]
    /\ notificationsBy t s' = notificationsBy t s ++ [(cacheKey, freshData)]
    /\ nextTask s' = nextTask s.
Proof.
  intros Ht row. unfold afterCacheRouteData. rewrite Ht.
  eexists. split; [done|]. split; [done|].
  split; [simpl; by rewrite lookup_insert_eq|].
  split; [|split; [|done]].
  - change (writesBy t (storeRoute t cacheKey freshData appVersion freshEtag s)
            = writesBy t s ++ [row]).
    rewrite writesBy_storeRoute. by rewrite bool_decide_eq_true_2.
  - change (notificationsBy t
              (logNotification t cacheKey freshData
                 (storeRoute t cacheKey freshData appVersion freshEtag s))
            = notificationsBy t s ++ [(cacheKey, freshData)]).
    rewrite notificationsBy_log. by rewrite bool_decide_eq_true_2.
Qed.

Lemma step_finished s e s' t :
  step e s = Some s' -> (t < nextTask s)%nat -> finished s t ->
  e <> CacheWritten t /\ finished s' t.
Proof.
  intros Hstep Hlt Hfin.
  destruct (decide (target e = Some t)) as [Heq|Hne].
  - destruct e; simpl in Heq; simplify_eq; simpl in Hstep;
      unfold afterGetCachedRouteData, afterLoader, afterCacheRouteData,
        revalidationFinally in Hstep;
      destruct Hfin as [Hn|[k Hk]];
      rewrite ?Hn, ?Hk in Hstep; try done.
    inversion Hstep; subst. split; [done|]. left. simpl. by rewrite lookup_delete_eq.
  - split; [intros ->; by apply Hne|].
    unfold finished. by rewrite (step_tasks _ _ _ _ Hstep Hne Hlt).
Qed.

(** Once body [t] has completed, nothing is written or notified in
    its name any more. *)
Lemma run_finished es : forall s s' t,
  run es s = Some s' -> (t < nextTask s)%nat -> finished s t ->
  writesBy t s' = writesBy t s
  /\ notificationsBy t s' = notificationsBy t s
  /\ ~ In (CacheWritten t) es.
Proof.
  induction es as [|e es IH]; intros s s' t Hrun Hlt Hfin; simpl in Hrun.
  - inversion Hrun; subst. by repeat split; auto.
  - destruct (step e s) as [s1|] eqn:Hstep; [|done].
    destruct (step_finished _ _ _ _ Hstep Hlt Hfin) as [Hne Hfin1].
    destruct (step_effects _ _ _ t Hstep Hne) as [Hw Hn].
    pose proof (step_nextTask _ _ _ Hstep) as Hmono.
    destruct (IH s1 s' t Hrun ltac:(lia) Hfin1) as (Hw' & Hn' & Hin).
    split; [congruence|]. split; [congruence|].
    intros [Heq|Hin']; [by apply Hne | by apply Hin].
Qed.

(** A revalidation waiting for its write transaction writes and
    notifies exactly once, when that transaction completes. *)
Lemma run_writing es : forall s s' t cacheKey appVersion freshData freshEtag,
  run es s = Some s' -> (t < nextTask s)%nat ->
  tasks s !! t = Some (RevalAwaitPut cacheKey appVersion freshData freshEtag) ->
  (~ In (CacheWritten t) es
   /\ tasks s' !! t = Some (RevalAwaitPut cacheKey appVersion freshData freshEtag)
   /\ writesBy t s' = writesBy t s
   /\ notificationsBy t s' = notificationsBy t s)
  \/ (In (CacheWritten t) es
      /\ exists storedAt,
           writesBy t s' = writesBy t s ++
             [{| Cache.url := cacheKey; data := freshData; version := appVersion;
                 timestamp := storedAt; etag := Some freshEtag |}]
           /\ notificationsBy t s' = notificationsBy t s ++ [(cacheKey, freshData)]).
Proof.
  induction es as [|e es IH]; intros s s' t k v d fe Hrun Hlt Ht; simpl in Hrun.
  - inversion Hrun; subst. left. by repeat split; auto.
  - destruct (step e s) as [s1|] eqn:Hstep; [|done].
    pose proof (step_nextTask _ _ _ Hstep) as Hmono.
    destruct (decide (target e = Some t)) as [Heq|Hne].
    + assert (e = CacheWritten t) as ->.
      { destruct e; simpl in Heq; simplify_eq; simpl in Hstep;
          unfold afterGetCachedRouteData, afterLoader, revalidationFinally in Hstep;
          rewrite ?Ht in Hstep; done. }
      simpl in Hstep.
      destruct (afterPut_revalidation s t k v d fe Ht)
        as (s1' & Hs1 & _ & Htask & Hw & Hn & _).
      rewrite Hs1 in Hstep. inversion Hstep; subst s1'.
      destruct (run_finished es s1 s' t Hrun ltac:(lia)) as (Hw' & Hn' & _).
      { right. eauto. }
      right. split; [by left|]. exists (now s). split; congruence.
    + assert (Hne' : e <> CacheWritten t) by (intros ->; by apply Hne).
      destruct (step_effects _ _ _ t Hstep Hne') as [Hw Hn].
      pose proof (step_tasks _ _ _ _ Hstep Hne Hlt) as Htask.
      rewrite Ht in Htask.
      destruct (IH s1 s' t k v d fe Hrun ltac:(lia) Htask)
        as [(Hin & Ht' & Hw' & Hn')|(Hin & tau & Hw' & Hn')].
      * left. split; [intros [Heq|?]; [by apply Hne' | done]|]. split; [done|]. split; congruence.
      * right. split; [by right|]. exists tau. split; congruence.
Qed.

Lemma unspent_init : unspent (init : State Data).
Proof. split; intros; by split. Qed.

Lemma unspent_step s e s' :
  ticketed s -> unspent s -> step e s = Some s' -> unspent s'.
Proof.
  intros [_ Hlt] [Hfresh Hlive] Hstep.
  pose proof (step_nextTask _ _ _ Hstep) as Hmono. split.
  - intros t Hge.
    assert (Hne : e <> CacheWritten t).
    { intros ->. pose proof (step_enabled _ _ _ t Hstep eq_refl) as Hsome.
      specialize (Hlt t Hsome). lia. }
    destruct (step_effects _ _ _ t Hstep Hne) as [Hw Hn].
    destruct (Hfresh t ltac:(lia)) as [Hw0 Hn0]. split; congruence.
  - intros t k Hk Hns.
    destruct (decide (target e = Some t)) as [Heq|Hne].
    + destruct e; simpl in Heq; simplify_eq; simpl in Hstep.
      * unfold afterGetCachedRouteData in Hstep.
        destruct (tasks s !! t) as [[ctx| | | | |]|] eqn:Ht; try done.
        assert (Hq : quiet s t) by (eapply Hlive; [exact Ht | done]).
        destruct (step_effects s (CacheRead t) s' t) as [Hw Hn];
          [simpl; unfold afterGetCachedRouteData; by rewrite Ht | done |].
        destruct Hq. split; congruence.
      * assert (Hq : quiet s t).
        { unfold afterLoader in Hstep.
          destruct (tasks s !! t) as [[| | | k0 v F| |]|] eqn:Ht; try done;
            (eapply Hlive; [exact Ht | done]). }
        destruct (step_effects s (LoaderSettled t o) s' t Hstep) as [Hw Hn]; [done|].
        destruct Hq. split; congruence.
      * unfold afterCacheRouteData in Hstep.
        destruct (tasks s !! t) as [[| |k0 v d e| |k0 v d e|]|] eqn:Ht; try done;
          inversion Hstep; subst; simpl in Hk.
        -- by rewrite lookup_delete_eq in Hk.
        -- rewrite lookup_insert_eq in Hk. inversion Hk; subst. by destruct (Hns k0).
      * unfold revalidationFinally in Hstep.
        destruct (tasks s !! t) as [[| | | | |k0]|] eqn:Ht; try done.
        inversion Hstep; subst; simpl in Hk. by rewrite lookup_delete_eq in Hk.
    + assert (Hne' : e <> CacheWritten t) by (intros ->; by apply Hne).
      destruct (step_effects _ _ _ t Hstep Hne') as [Hw Hn].
      assert (Hq : quiet s t).
      { destruct (decide (t < nextTask s)%nat) as [Hin|Hout].
        - rewrite (step_tasks _ _ _ _ Hstep Hne Hin) in Hk. by eapply Hlive.
        - apply Hfresh. lia. }
      destruct Hq. split; congruence.
Qed.

Lemma reachable_unspent s : reachable s -> unspent s.
Proof.
  induction 1 as [|s e s' Hr IH Hstep]; [apply unspent_init|].
  eapply unspent_step; [by apply reachable_ticketed | exact IH | exact Hstep].
Qed.

(** The comparison made when the load operation of a revalidation
    resolves. *)
Lemma afterLoad_revalidation s t cacheKey appVersion cachedEtag freshData :
  tasks s !! t = Some (RevalAwaitLoader cacheKey appVersion cachedEtag) ->
  exists s',
    afterLoad t (Loaded freshData) s = Some s'
    /\ routes s' = routes s
    /\ cacheWrites s' = cacheWrites s
    /\ notifications s' = notifications s
    /\ nextTask s' = nextTask s
    /\ tasks s' !! t =
         Some (if bool_decide (Some (fingerprint freshData) <> cachedEtag)
               then RevalAwaitPut cacheKey appVersion freshData (fingerprint freshData)
               else RevalSettled cacheKey).
Proof.
  intros Ht. unfold afterLoader. rewrite Ht.
  case_bool_decide; eexists; (split; [done|]); simpl;
    by rewrite lookup_insert_eq.
Qed.

(** C5.  For a background refresh whose load operation resolves, with
    [cachedEtag] the fingerprint of the stale row it was started with:
    when the fresh fingerprint equals it, the refresh never writes to
    the store and never notifies, whatever happens afterwards; when it
    differs, the refresh issues the write, and once the write
    transaction has completed it has written exactly one row (the
    fresh data with the fresh fingerprint) and called the notification
    channel exactly once with the key and the fresh data; until then
    it has done neither.  So a refresh that has written or notified is
    one whose fingerprint differed.  The write puts that row under the
    key. *)
Theorem refresh_propagates_iff_fingerprint_changed
    s t cacheKey appVersion cachedEtag freshData es s' :
  reachable s ->
  tasks s !! t = Some (RevalAwaitLoader cacheKey appVersion cachedEtag) ->
  run (LoaderSettled t (Loaded freshData) :: es) s = Some s' ->
  let freshEtag := fingerprint freshData in
  let row storedAt :=
    {| Cache.url := cacheKey; data := freshData; version := appVersion;
       timestamp := storedAt; etag := Some freshEtag |} in
  (Some freshEtag = cachedEtag ->
     writesBy t s' = [] /\ notificationsBy t s' = []
     /\ ~ In (CacheWritten t) es)
  /\ (Some freshEtag <> cachedEtag ->
        (In (CacheWritten t) es
         /\ exists storedAt,
              writesBy t s' = [row storedAt]
              /\ notificationsBy t s' = [(cacheKey, freshData)])
        \/ (~ In (CacheWritten t) es
            /\ tasks s' !! t = Some (RevalAwaitPut cacheKey appVersion freshData freshEtag)
            /\ writesBy t s' = [] /\ notificationsBy t s' = []))
  /\ (writesBy t s' <> [] \/ notificationsBy t s' <> [] ->
      Some freshEtag <> cachedEtag)
  /\ (forall s2,
        tasks s2 !! t = Some (RevalAwaitPut cacheKey appVersion freshData freshEtag) ->
        exists s3, step (CacheWritten t) s2 = Some s3
                   /\ routes s3 !! cacheKey = Some (row (now s2))).
Proof.
  intros Hr Ht Hrun freshEtag row.
  destruct (reachable_ticketed s Hr) as [_ Hlt].
  assert (Hin : (t < nextTask s)%nat) by (apply Hlt; by rewrite Ht).
  destruct (reachable_unspent s Hr) as [_ Hlive].
  destruct (Hlive t _ Ht ltac:(done)) as [Hw0 Hn0].
  simpl in Hrun.
  destruct (afterLoad_revalidation s t cacheKey appVersion cachedEtag freshData Ht)
    as (s1 & Hs1 & _ & Hw1 & Hn1 & Hnext & Htask).
  rewrite Hs1 in Hrun.
  assert (Hw1' : writesBy t s1 = []) by (unfold writesBy in *; by rewrite Hw1).
  assert (Hn1' : notificationsBy t s1 = [])
    by (unfold notificationsBy in *; by rewrite Hn1).
  assert (Hequal : Some freshEtag = cachedEtag ->
            writesBy t s' = [] /\ notificationsBy t s' = []
            /\ ~ In (CacheWritten t) es).
  { intros Heq. rewrite bool_decide_eq_false_2 in Htask by (intros ?; done).
    destruct (run_finished es s1 s' t Hrun) as (Hw & Hn & Hnot);
      [lia | right; eauto |].
    repeat split; [congruence | congruence | done]. }
  split; [exact Hequal|]. split; [|split].
  - intros Hne. rewrite bool_decide_eq_true_2 in Htask by done.
    destruct (run_writing es s1 s' t _ _ _ _ Hrun ltac:(lia) Htask)
      as [(Hnot & Ht' & Hw & Hn)|(Hyes & tau & Hw & Hn)].
    + right. repeat split; [done | done | congruence | congruence].
    + left. split; [done|]. exists tau. rewrite Hw1' in Hw. rewrite Hn1' in Hn.
      by split.
  - intros Hsome Heq. destruct (Hequal Heq) as (Hw & Hn & _).
    destruct Hsome; congruence.
  - intros s2 Hs2.
    destruct (afterPut_revalidation s2 t _ _ _ _ Hs2) as (s3 & Hs3 & Hroutes & _).
    exists s3. split; [done|]. rewrite Hroutes. by rewrite lookup_insert_eq.
Qed.

(** C4, as the code has it.  When the worker is offline and no ticket
    is held for the key, [revalidateInBackground] runs no loader,
    writes nothing and notifies nothing, but it does register a
    ticket: the promise of the already completed body is stored under
    the key.  That body can no longer be resumed by a loader or a
    store event; the ticket is removed when the [finally] callback
    runs, again without a loader run, a write or a notification. *)
Theorem offline_revalidation_runs_nothing s cacheKey appVersion cachedEtag :
  onLine s = false ->
  pendingRevalidations s !! cacheKey = None ->
  let s' := revalidateInBackground cacheKey appVersion cachedEtag s in
  let ticket := nextTask s in
  loaderRuns s' = loaderRuns s
  /\ routes s' = routes s
  /\ cacheWrites s' = cacheWrites s
  /\ notifications s' = notifications s
  /\ pendingRevalidations s' !! cacheKey = Some ticket
  /\ tasks s' !! ticket = Some (RevalSettled cacheKey)
  /\ (forall o, step (LoaderSettled ticket o) s' = None)
  /\ step (CacheWritten ticket) s' = None
  /\ exists s'',
       step (Finally ticket) s' = Some s''
       /\ pendingRevalidations s'' !! cacheKey = None
       /\ loaderRuns s'' = loaderRuns s
       /\ routes s'' = routes s
       /\ cacheWrites s'' = cacheWrites s
       /\ notifications s'' = notifications s.
Proof.
  intros Hoff Hfree s' ticket. subst s'.
  rewrite revalidate_offline by done.
  assert (Htask : tasks (setPending (<[cacheKey:=nextTask s]> (pendingRevalidations s))
                           (spawn (RevalSettled cacheKey) s)) !! ticket
                  = Some (RevalSettled cacheKey))
    by (simpl; by rewrite lookup_insert_eq).
  repeat (split; [done || (simpl; by rewrite lookup_insert_eq)|]).
  split; [intros o; simpl; unfold afterLoader; by rewrite Htask|].
  split; [simpl; unfold afterCacheRouteData; by rewrite Htask|].
  simpl. unfold revalidationFinally. rewrite Htask.
  eexists. split; [done|]. simpl. by rewrite lookup_delete_eq.
Qed.

(** C7.  A row stored under version A while the current version is B,
    with A different from B: the render path treats it as absent, that
    is, [renderWithCache] takes the MISS path (the loader is entered,
    no response is served from the row, no revalidation is started),
    exactly as it does when the row has been deleted, and the row is
    still returned by [getCachedRouteData]. *)
Theorem stale_version_is_a_miss s t ctx cached versionA versionB :
  tasks s !! t = Some (RenderAwaitGet ctx) ->
  getCachedRouteData (cacheKeyOf ctx) (routes s) = Some cached ->
  version cached = versionA ->
  Version.getAppVersion injected = versionB ->
  versionA <> versionB ->
  exists s',
    step (CacheRead t) s = Some s'
    /\ tasks s' !! t = Some (FetchAwaitLoader (cacheKeyOf ctx) versionB)
    /\ loaderRuns s' = loaderRuns s ++ [(t, cacheKeyOf ctx)]
    /\ replies s' = replies s
    /\ pendingRevalidations s' = pendingRevalidations s
    /\ getCachedRouteData (cacheKeyOf ctx) (routes s') = Some cached
    /\ step (CacheRead t) (setRoutes (delete (cacheKeyOf ctx) (routes s)) s)
       = Some (setRoutes (delete (cacheKeyOf ctx) (routes s)) s').
Proof.
  intros Ht Hget HA HB Hne. simpl. unfold afterGetCachedRouteData.
  rewrite Ht, Hget. unfold Version.isVersionCompatible.
  rewrite bool_decide_eq_false_2 by congruence.
  eexists. split; [done|]. simpl. rewrite lookup_insert_eq, HB.
  repeat (split; [done|]).
  rewrite Ht. unfold getCachedRouteData. by rewrite lookup_delete_eq.
Qed.

(** A row of the current version is served from the cache and starts
    a revalidation with the fingerprint stored in the row. *)
Lemma current_version_is_a_hit s t ctx cached :
  tasks s !! t = Some (RenderAwaitGet ctx) ->
  getCachedRouteData (cacheKeyOf ctx) (routes s) = Some cached ->
  version cached = Version.getAppVersion injected ->
  step (CacheRead t) s
  = Some (reply t
            (Responded {| status := 200; responseHeaders := hitHeaders cached;
                          body := renderFn (data cached) |})
            (revalidateInBackground (cacheKeyOf ctx)
               (Version.getAppVersion injected) (etag cached) s)).
Proof.
  intros Ht Hget Hv. simpl. unfold afterGetCachedRouteData.
  rewrite Ht, Hget. unfold Version.isVersionCompatible.
  by rewrite bool_decide_eq_true_2.
Qed.

(** C10.  A row of the current version without fingerprint: the HIT
    starts a revalidation whose [cachedEtag] is undefined, and every
    refresh of it whose load operation resolves, whatever the fresh
    data (the data of the row included), goes on to the write and the
    notification, because the fresh fingerprint is a string, and not
    an empty one. *)
Theorem missing_fingerprint_always_refreshes s t ctx cached :
  reachable s ->
  tasks s !! t = Some (RenderAwaitGet ctx) ->
  getCachedRouteData (cacheKeyOf ctx) (routes s) = Some cached ->
  version cached = Version.getAppVersion injected ->
  etag cached = None ->
  pendingRevalidations s !! cacheKeyOf ctx = None ->
  onLine s = true ->
  let cacheKey := cacheKeyOf ctx in
  let appVersion := Version.getAppVersion injected in
  let r := nextTask s in
  exists s1,
    step (CacheRead t) s = Some s1
    /\ tasks s1 !! r = Some (RevalAwaitLoader cacheKey appVersion None)
    /\ forall s2 freshData,
         tasks s2 !! r = Some (RevalAwaitLoader cacheKey appVersion None) ->
         let freshEtag := fingerprint freshData in
         freshEtag <> EmptyString
         /\ exists s3,
              step (LoaderSettled r (Loaded freshData)) s2 = Some s3
              /\ tasks s3 !! r = Some (RevalAwaitPut cacheKey appVersion freshData freshEtag)
              /\ forall s4,
                   tasks s4 !! r
                   = Some (RevalAwaitPut cacheKey appVersion freshData freshEtag) ->
                   exists s5,
                     step (CacheWritten r) s4 = Some s5
                     /\ routes s5 !! cacheKey
                        = Some {| Cache.url := cacheKey; data := freshData;
                                  version := appVersion; timestamp := now s4;
                                  etag := Some freshEtag |}
                     /\ writesBy r s5 = writesBy r s4 ++
                          [{| Cache.url := cacheKey; data := freshData;
                              version := appVersion; timestamp := now s4;
                              etag := Some freshEtag |}]
                     /\ notificationsBy r s5
                        = notificationsBy r s4 ++ [(cacheKey, freshData)].
Proof.
  intros Hr Ht Hget Hv Hnone Hfree Hon cacheKey appVersion r.
  assert (Hlt : (t < nextTask s)%nat)
    by (destruct (reachable_ticketed s Hr) as [_ Hlt]; apply Hlt; by rewrite Ht).
  rewrite (current_version_is_a_hit s t ctx cached Ht Hget Hv).
  eexists. split; [done|]. rewrite Hnone.
  rewrite revalidate_online by done. simpl.
  split.
  { rewrite lookup_delete_ne by (subst r; lia). by rewrite lookup_insert_eq. }
  intros s2 freshData Hs2. split; [apply FingerprintFacts.generateETag_nonempty|].
  destruct (afterLoad_revalidation s2 r cacheKey appVersion None freshData Hs2)
    as (s3 & Hs3 & _ & _ & _ & _ & Htask).
  rewrite bool_decide_eq_true_2 in Htask by done.
  exists s3. split; [done|]. split; [done|].
  intros s4 Hs4.
  destruct (afterPut_revalidation s4 r _ _ _ _ Hs4)
    as (s5 & Hs5 & Hroutes & _ & Hw & Hn & _).
  exists s5. split; [done|]. rewrite Hroutes, lookup_insert_eq. by repeat split.
Qed.

Lemma worker_reachable_run es : forall s s',
  reachable s -> run es s = Some s' -> reachable s'.
Proof.
  induction es as [|e es IH]; intros s s' Hr Hrun; simpl in Hrun.
  - by inversion Hrun; subst.
  - destruct (step e s) as [s1|] eqn:Hstep; [|done].
    eapply IH; [|exact Hrun]. by eapply reachable_step.
Qed.

End Facts.
Import Scenario.

Local Abbreviation swStep := (step stringify page None None).

Lemma hitState_reachable : reachable stringify page None None hitState.
Proof.
  apply (worker_reachable_run _ _ _ _ hitEvents init);
    [apply reachable_init | vm_compute; reflexivity].
Qed.

Lemma untaggedState_reachable : reachable stringify page None None untaggedState.
Proof.
  apply (worker_reachable_run _ _ _ _ untaggedEvents init);
    [apply reachable_init | vm_compute; reflexivity].
Qed.

(** The HIT of [hitState] registered ticket 1 for the key; a second
    trigger for the key changes nothing. *)
Lemma revalidation_single_flight_witness :
  pendingRevalidations hitState !! "/posts" = Some 1%nat
  /\ revalidateInBackground "/posts" "1.0.0" (Some staleTag) hitState = hitState.
Proof.
  split; [vm_compute; reflexivity|].
  destruct (revalidation_single_flight stringify page None None hitState "/posts"
              hitState_reachable) as (_ & _ & Hheld).
  apply (Hheld 1%nat). vm_compute; reflexivity.
Defined.

(** C4 as stated fails: offline, with no ticket held, the call leaves a
    ticket for the key in [pendingRevalidations], although no loader has
    run; so does the HIT that triggers it. *)
Lemma offline_revalidation_registers_ticket :
  onLine offlineState = false
  /\ pendingRevalidations offlineState !! "/posts" = None
  /\ pendingRevalidations
       (revalidateInBackground "/posts" "1.0.0" (Some staleTag) offlineState)
     !! "/posts" = Some 1%nat
  /\ exists s',
       swStep (CacheRead 0) offlineState = Some s'
       /\ pendingRevalidations s' !! "/posts" = Some 1%nat
       /\ loaderRuns s' = [].
Proof.
  split; [vm_compute; reflexivity|].
  split; [vm_compute; reflexivity|].
  split; [vm_compute; reflexivity|].
  eexists. split; [vm_compute; reflexivity|].
  split; vm_compute; reflexivity.
Qed.

Lemma offline_revalidation_runs_nothing_witness :
  onLine offlineState = false
  /\ pendingRevalidations offlineState !! "/posts" = None
  /\ loaderRuns (revalidateInBackground "/posts" "1.0.0" (Some staleTag) offlineState)
     = loaderRuns offlineState
  /\ exists s'',
       swStep (Finally 1)
         (revalidateInBackground "/posts" "1.0.0" (Some staleTag) offlineState)
       = Some s''
       /\ pendingRevalidations s'' !! "/posts" = None.
Proof.
  assert (Hoff : onLine offlineState = false) by (vm_compute; reflexivity).
  assert (Hfree : pendingRevalidations offlineState !! "/posts" = None)
    by (vm_compute; reflexivity).
  destruct (offline_revalidation_runs_nothing stringify page None None
              offlineState "/posts" "1.0.0" (Some staleTag) Hoff Hfree)
    as (Hruns & _ & _ & _ & _ & _ & _ & _ & s'' & Hfin & Hgone & _).
  split; [exact Hoff|]. split; [exact Hfree|]. split; [exact Hruns|].
  exists s''. split; [exact Hfin | exact Hgone].
Defined.

(** Revalidation 1 of [hitState] was started with the fingerprint
    [stale]; its load operation resolves with other data, so after the
    write transaction it has written one row and notified once. *)
Lemma refresh_propagates_witness :
  tasks hitState !! 1%nat = Some (RevalAwaitLoader "/posts" "1.0.0" (Some staleTag))
  /\ exists storedAt,
       writesBy 1 refreshedState
       = [{| Cache.url := "/posts"; data := "[1,2]"; version := "1.0.0";
             timestamp := storedAt;
             etag := Some (Fingerprint.generateETag None "[1,2]") |}]
       /\ notificationsBy 1 refreshedState = [("/posts", "[1,2]")].
Proof.
  assert (Htask : tasks hitState !! 1%nat
                  = Some (RevalAwaitLoader "/posts" "1.0.0" (Some staleTag)))
    by (vm_compute; reflexivity).
  assert (Hrun : run stringify page None None
                   (LoaderSettled 1 (Loaded "[1,2]") :: refreshTail) hitState
                 = Some refreshedState) by (vm_compute; reflexivity).
  split; [exact Htask|].
  destruct (refresh_propagates_iff_fingerprint_changed stringify page None None
              hitState 1 "/posts" "1.0.0" (Some staleTag) "[1,2]" refreshTail
              refreshedState hitState_reachable Htask Hrun)
    as (_ & Hchanged & _).
  destruct Hchanged as [(_ & storedAt & Hw & Hn)|(Hnot & _)].
  - vm_compute. intros [= ?].
  - exists storedAt. split; [exact Hw | exact Hn].
  - exfalso. apply Hnot. left. reflexivity.
Defined.

(** The row of [outdatedState] was stored under 0.9.0 while the current
    version is 1.0.0. *)
Lemma stale_version_is_a_miss_witness :
  tasks outdatedState !! 0%nat = Some (RenderAwaitGet posts)
  /\ "0.9.0" <> "1.0.0"
  /\ exists s',
       swStep (CacheRead 0) outdatedState = Some s'
       /\ loaderRuns s' = [(0%nat, "/posts")]
       /\ getCachedRouteData "/posts" (routes s') = Some outdatedRow.
Proof.
  assert (Htask : tasks outdatedState !! 0%nat = Some (RenderAwaitGet posts))
    by (vm_compute; reflexivity).
  assert (Hrow : getCachedRouteData (cacheKeyOf posts) (routes outdatedState)
                 = Some outdatedRow) by (vm_compute; reflexivity).
  assert (Hne : "0.9.0" <> "1.0.0") by (intros [= ?]).
  destruct (stale_version_is_a_miss stringify page None None outdatedState 0 posts
              outdatedRow "0.9.0" "1.0.0" Htask Hrow eq_refl eq_refl Hne)
    as (s' & Hstep & _ & Hruns & _ & _ & Hget & _).
  split; [exact Htask|]. split; [exact Hne|].
  exists s'. split; [exact Hstep|]. split; [exact Hruns | exact Hget].
Defined.

(** The row of [untaggedState] has no fingerprint: the refresh whose
    load operation resolves with the very data of the row goes on to
    its write. *)
Lemma missing_fingerprint_always_refreshes_witness :
  etag untaggedRow = None
  /\ exists s1 s3,
       swStep (CacheRead 0) untaggedState = Some s1
       /\ swStep (LoaderSettled 1 (Loaded (data untaggedRow))) s1 = Some s3
       /\ tasks s3 !! 1%nat
          = Some (RevalAwaitPut "/posts" "1.0.0" "[1]"
                    (Fingerprint.generateETag None "[1]")).
Proof.
  split; [reflexivity|].
  assert (Htask : tasks untaggedState !! 0%nat = Some (RenderAwaitGet posts))
    by (vm_compute; reflexivity).
  assert (Hrow : getCachedRouteData (cacheKeyOf posts) (routes untaggedState)
                 = Some untaggedRow) by (vm_compute; reflexivity).
  assert (Hfree : pendingRevalidations untaggedState !! cacheKeyOf posts = None)
    by (vm_compute; reflexivity).
  assert (Hon : onLine untaggedState = true) by (vm_compute; reflexivity).
  destruct (missing_fingerprint_always_refreshes stringify page None None
              untaggedState 0 posts untaggedRow untaggedState_reachable
              Htask Hrow eq_refl eq_refl Hfree Hon)
    as (s1 & Hs1 & Ht1 & Hall).
  destruct (Hall s1 "[1]" Ht1) as (_ & s3 & Hs3 & Ht3 & _).
  exists s1, s3. split; [exact Hs1|]. split; [exact Hs3 | exact Ht3].
Defined.

End SwFacts.

(** ** The navigation controller *)

Module NavigationFacts.
Import NavigationController.

Section Facts.
Variable hrefWithoutHash : string -> option string.
Variable optionsTimeout : option Z.

Local Abbreviation normalizeUrl := (normalizeUrl hrefWithoutHash).
Local Abbreviation navigate := (navigate hrefWithoutHash optionsTimeout).
Local Abbreviation prefetch := (prefetch hrefWithoutHash).
Local Abbreviation cancel := (cancel hrefWithoutHash).
Local Abbreviation step := (step hrefWithoutHash optionsTimeout).
Local Abbreviation run := (run hrefWithoutHash optionsTimeout).
Local Abbreviation reachable := (reachable hrefWithoutHash optionsTimeout).

Lemma registered_init : registered init.
Proof.
  repeat split; simpl.
  - intros u q. by rewrite lookup_empty.
  - intros q [x Hx]. by rewrite lookup_empty in Hx.
  - intros c Hc. set_solver.
  - intros u c. by rewrite lookup_empty.
  - intros l Hl. by apply elem_of_nil in Hl.
Qed.

Lemma registered_cancelAll s : registered s -> registered (cancelAll s).
Proof.
  intros (Hp & Hq & Ha & Hc & Hl). repeat split; simpl; auto.
  - intros u q. by rewrite lookup_empty.
  - intros c [Hin|Hin]%elem_of_union; [by apply Ha|].
    apply elem_of_map_img in Hin as [u Hu]. by eapply Hc.
  - intros u c. by rewrite lookup_empty.
Qed.

Lemma registered_navigate s url options :
  registered s -> registered (navigate url options s).2.
Proof.
  intros HI. unfold NavigationController.navigate.
  destruct (pending s !! normalizeUrl url) as [existing|] eqn:Hpend; simpl.
  - destruct HI as (Hp & Hq & Ha & Hc & Hl). repeat split; simpl; auto.
    intros q Hsome. specialize (Hq q Hsome). lia.
  - assert (HI1 : registered (if replace options then cancelAll s else s))
      by (destruct (replace options); [by apply registered_cancelAll | done]).
    set (s1 := if replace options then cancelAll s else s) in *.
    destruct HI1 as (Hp & Hq & Ha & Hc & Hl). repeat split; simpl.
    + intros u q. destruct (decide (u = normalizeUrl url)) as [->|Hne].
      * rewrite lookup_insert_eq. intros [= <-].
        eexists. rewrite lookup_insert_eq. split; [done|]. split; [done|].
        intros _. simpl. by rewrite lookup_insert_eq.
      * rewrite lookup_insert_ne by done. intros Hu.
        destruct (Hp u q Hu) as (rq & Hrq & Hurl & Hact).
        exists rq. split.
        { rewrite lookup_insert_ne; [done|].
          specialize (Hq q (mk_is_Some _ _ Hrq)). lia. }
        split; [done|]. intros Hk. rewrite lookup_insert_ne by done. by apply Hact.
    + intros q [x Hx]. destruct (decide (q = nextPromise s1)) as [->|Hne]; [lia|].
      rewrite lookup_insert_ne in Hx by done.
      specialize (Hq q (mk_is_Some _ _ Hx)). lia.
    + intros c Hin. specialize (Ha c Hin). lia.
    + intros u c. destruct (decide (u = normalizeUrl url)) as [->|Hne].
      * rewrite lookup_insert_eq. intros [= <-]. lia.
      * rewrite lookup_insert_ne by done. intros Hu. specialize (Hc u c Hu). lia.
    + intros l Hin. destruct (signal options).
      * apply elem_of_cons in Hin as [->|Hin]; [simpl; lia|].
        specialize (Hl l Hin). lia.
      * specialize (Hl l Hin). lia.
Qed.

Lemma registered_step s e s' : registered s -> step e s = Some s' -> registered s'.
Proof.
  intros HI Hstep. destruct e; simpl in Hstep.
  - inversion Hstep; subst. by apply registered_navigate.
  - inversion Hstep; subst. destruct HI as (Hp & Hq & Ha & Hc & Hl).
    unfold NavigationController.prefetch.
    destruct (pending s !! normalizeUrl url) eqn:Hpend; [done|].
    repeat split; simpl.
    + intros u q. destruct (decide (u = normalizeUrl url)) as [->|Hne].
      * rewrite lookup_insert_eq. intros [= <-].
        eexists. rewrite lookup_insert_eq. by repeat split.
      * rewrite lookup_insert_ne by done. intros Hu.
        destruct (Hp u q Hu) as (rq & Hrq & Hurl & Hact).
        exists rq. split; [|done].
        rewrite lookup_insert_ne; [done|].
        specialize (Hq q (mk_is_Some _ _ Hrq)). lia.
    + intros q [x Hx]. destruct (decide (q = nextPromise s)) as [->|Hne]; [lia|].
      rewrite lookup_insert_ne in Hx by done.
      specialize (Hq q (mk_is_Some _ _ Hx)). lia.
    + intros c Hin. specialize (Ha c Hin). lia.
    + intros u c Hu. specialize (Hc u c Hu). lia.
    + intros l Hin. specialize (Hl l Hin). lia.
  - inversion Hstep; subst. destruct HI as (Hp & Hq & Ha & Hc & Hl).
    unfold NavigationController.cancel.
    destruct (activeRequests s !! normalizeUrl url) as [c0|] eqn:Hact; [|done].
    repeat split; simpl; auto.
    + intros u q. destruct (decide (u = normalizeUrl url)) as [->|Hne].
      * by rewrite lookup_delete_eq.
      * rewrite !lookup_delete_ne by done. apply Hp.
    + intros c [Hin|Hin]%elem_of_union; [by apply Ha|].
      apply elem_of_singleton in Hin as ->. by eapply Hc.
    + intros u c. destruct (decide (u = normalizeUrl url)) as [->|Hne].
      * by rewrite lookup_delete_eq.
      * rewrite lookup_delete_ne by done. apply Hc.
  - inversion Hstep; subst. by apply registered_cancelAll.
  - inversion Hstep; subst. done.
  - destruct HI as (Hp & Hq & Ha & Hc & Hl). unfold fetchSettled in Hstep.
    destruct (requests s !! promise) as [rq|] eqn:Hrq; [|done].
    destruct (settled s !! promise); [done|].
    destruct (requestKind rq).
    + assert (Hgen : forall s1,
                pending s1 = pending s -> activeRequests s1 = activeRequests s ->
                requests s1 = requests s -> aborted s1 = aborted s ->
                listeners s1 = listeners s -> nextPromise s1 = nextPromise s ->
                nextController s1 = nextController s ->
                registered (settle promise (navigationResult o)
                  (setActiveRequests (delete (requestUrl rq) (activeRequests s1))
                     (setPending (delete (requestUrl rq) (pending s1)) s1)))).
      { intros s1 E1 E2 E3 E4 E5 E6 E7. repeat split; simpl;
          rewrite ?E1, ?E2, ?E3, ?E4, ?E5, ?E6, ?E7; auto.
        - intros u q. destruct (decide (u = requestUrl rq)) as [->|Hne].
          + by rewrite lookup_delete_eq.
          + rewrite !lookup_delete_ne by done. apply Hp.
        - intros u c. destruct (decide (u = requestUrl rq)) as [->|Hne].
          + by rewrite lookup_delete_eq.
          + rewrite lookup_delete_ne by done. apply Hc. }
      destruct o as [r|err]; [destruct (requestTimer rq) as [tm|]|];
        injection Hstep as <-;
        [by apply (Hgen (setTimers (delete tm (timers s)) s))
        | by apply (Hgen s) | by apply (Hgen s)].
    + inversion Hstep; subst. repeat split; simpl; auto.
  - unfold timerFired in Hstep.
    destruct (timers s !! timer) as [[due action]|]; [|done].
    destruct (due <=? clock s); [|done]. inversion Hstep; subst.
    destruct HI as (Hp & Hq & Ha & Hc & Hl).
    destruct action as [u sig|u p]; simpl.
    + case_bool_decide; [by repeat split|].
      destruct (activeRequests s !! u) as [c0|] eqn:Hact; [|by repeat split].
      repeat split; simpl; auto.
      intros c [Hin|Hin]%elem_of_union; [by apply Ha|].
      apply elem_of_singleton in Hin as ->. by eapply Hc.
    + case_bool_decide; [|by repeat split].
      repeat split; simpl; auto.
      intros u' q. destruct (decide (u' = u)) as [->|Hne].
      * by rewrite lookup_delete_eq.
      * rewrite lookup_delete_ne by done. apply Hp.
  - inversion Hstep; subst. destruct HI as (Hp & Hq & Ha & Hc & Hl).
    repeat split; simpl; auto.
    intros c [Hin|Hin]%elem_of_union; [by apply Ha|].
    apply elem_of_list_to_set in Hin.
    apply list_elem_of_fmap in Hin as (l & -> & Hin).
    apply list_elem_of_filter in Hin as [_ Hin]. by apply Hl.
  - destruct (0 <=? dt); [|done]. by inversion Hstep; subst.
Qed.

Lemma reachable_registered s : reachable s -> registered s.
Proof.
  induction 1 as [|s e s' _ IH Hstep]; [apply registered_init|].
  by eapply registered_step.
Qed.

Lemma evictionsSettled_step s e s' :
  evictionsSettled s -> step e s = Some s' -> evictionsSettled s'.
Proof.
  intros [He Hf] Hstep. destruct e; simpl in Hstep.
  - inversion Hstep; subst. unfold NavigationController.navigate.
    destruct (pending s !! normalizeUrl url); simpl; [done|].
    assert (Hs1 : evictionsSettled (if replace options
                                    then cancelAll s else s))
      by (by destruct (replace options)).
    destruct Hs1 as [He1 Hf1]. split; simpl.
    + intros timer due u p.
      destruct (decide (timer = nextTimer (if replace options
                                            then cancelAll s else s)))
        as [->|Hne].
      * rewrite lookup_insert_eq. by intros [= _ ?].
      * rewrite lookup_insert_ne by done. apply He1.
    + intros timer [x Hx].
      destruct (decide (timer = nextTimer (if replace options
                                            then cancelAll s else s)))
        as [->|Hne]; [lia|].
      rewrite lookup_insert_ne in Hx by done.
      specialize (Hf1 timer (mk_is_Some _ _ Hx)). lia.
  - inversion Hstep; subst. unfold NavigationController.prefetch.
    by destruct (pending s !! normalizeUrl url).
  - inversion Hstep; subst. unfold NavigationController.cancel.
    by destruct (activeRequests s !! normalizeUrl url).
  - by inversion Hstep; subst.
  - by inversion Hstep; subst.
  - unfold fetchSettled in Hstep.
    destruct (requests s !! promise) as [rq|] eqn:Hrq; [|done].
    destruct (settled s !! promise) eqn:Hset; [done|].
    assert (Hkeep : forall timer due u p x,
              timers s !! timer = Some (due, EvictPrefetch u p) ->
              is_Some (<[promise := x]> (settled s) !! p)).
    { intros timer due u p x Ht. destruct (decide (p = promise)) as [->|Hne].
      - rewrite lookup_insert_eq. eauto.
      - rewrite lookup_insert_ne by done. by eapply He. }
    destruct (requestKind rq).
    + destruct o as [r|err]; [destruct (requestTimer rq) as [tm|]|];
        injection Hstep as <-; split; simpl; eauto.
      * intros timer due u p Ht.
        apply lookup_delete_Some in Ht as [_ Ht]. by eapply Hkeep.
      * intros timer [x Hx]. apply lookup_delete_Some in Hx as [_ Hx].
        apply Hf. by rewrite Hx.
    + injection Hstep as <-. split; simpl.
      * intros timer due u p. destruct (decide (timer = nextTimer s)) as [->|Hne].
        -- rewrite lookup_insert_eq. intros [= _ _ <-].
           rewrite lookup_insert_eq. eauto.
        -- rewrite lookup_insert_ne by done. apply Hkeep.
      * intros timer [x Hx]. destruct (decide (timer = nextTimer s)) as [->|Hne]; [lia|].
        rewrite lookup_insert_ne in Hx by done.
        specialize (Hf timer (mk_is_Some _ _ Hx)). lia.
  - unfold timerFired in Hstep.
    destruct (timers s !! timer) as [[due action]|]; [|done].
    destruct (due <=? clock s); [|done]. injection Hstep as <-.
    assert (Hdel : evictionsSettled (setTimers (delete timer (timers s)) s)).
    { split; simpl.
      - intros tm d u p Ht. apply lookup_delete_Some in Ht as [_ Ht]. by eapply He.
      - intros tm [x Hx]. apply lookup_delete_Some in Hx as [_ Hx].
        apply Hf. by rewrite Hx. }
    destruct action as [u sig|u p]; simpl.
    + case_bool_decide; [done|].
      by destruct (activeRequests s !! u).
    + by case_bool_decide.
  - by inversion Hstep; subst.
  - destruct (0 <=? dt); [|done]. by inversion Hstep; subst.
Qed.

Lemma reachable_evictionsSettled s : reachable s -> evictionsSettled s.
Proof.
  induction 1 as [|s e s' _ IH Hstep].
  - split; simpl.
    + intros timer due u p. by rewrite lookup_empty.
    + intros timer [x Hx]. by rewrite lookup_empty in Hx.
  - by eapply evictionsSettled_step.
Qed.

Lemma navigation_reachable_run es : forall s s',
  reachable s -> run es s = Some s' -> reachable s'.
Proof.
  induction es as [|e es IH]; intros s s' Hr Hrun; simpl in Hrun.
  - by inversion Hrun; subst.
  - destruct (step e s) as [s1|] eqn:Hstep; [|done].
    eapply IH; [|exact Hrun]. by eapply reachable_step.
Qed.

(** A promise that was resolved with another stays so: [adopted] only
    grows, at identifiers not yet given out. *)
Lemma step_adopted s e s' p q :
  step e s = Some s' -> adopted s !! p = Some q -> (p < nextPromise s)%nat ->
  adopted s' !! p = Some q /\ (p < nextPromise s')%nat.
Proof.
  intros Hstep Had Hlt. destruct e; simpl in Hstep.
  - injection Hstep as <-. unfold NavigationController.navigate.
    destruct (pending s !! normalizeUrl url); simpl.
    + rewrite lookup_insert_ne by lia. split; [done | lia].
    + destruct (replace options); simpl;
        (rewrite lookup_insert_ne by lia; split; [done | lia]).
  - injection Hstep as <-. unfold NavigationController.prefetch.
    destruct (pending s !! normalizeUrl url); simpl; split; (done || lia).
  - injection Hstep as <-. unfold NavigationController.cancel.
    by destruct (activeRequests s !! normalizeUrl url).
  - by injection Hstep as <-.
  - by injection Hstep as <-.
  - unfold fetchSettled in Hstep.
    destruct (requests s !! promise) as [rq|]; [|done].
    destruct (settled s !! promise); [done|].
    destruct (requestKind rq);
      [destruct o as [r|err]; [destruct (requestTimer rq)|]|];
      by injection Hstep as <-.
  - unfold timerFired in Hstep.
    destruct (timers s !! timer) as [[due action]|]; [|done].
    destruct (due <=? clock s); [|done]. injection Hstep as <-.
    destruct action as [u sig|u p']; simpl.
    + case_bool_decide; [done|]. by destruct (activeRequests s !! u).
    + by case_bool_decide.
  - by injection Hstep as <-.
  - destruct (0 <=? dt); [|done]. by injection Hstep as <-.
Qed.

Lemma run_adopted es : forall s s' p q,
  run es s = Some s' -> adopted s !! p = Some q -> (p < nextPromise s)%nat ->
  adopted s' !! p = Some q.
Proof.
  induction es as [|e es IH]; intros s s' p q Hrun Had Hlt; simpl in Hrun.
  - by injection Hrun as <-.
  - destruct (step e s) as [s1|] eqn:Hstep; [|done].
    destruct (step_adopted _ _ _ _ _ Hstep Had Hlt) as [Had1 Hlt1].
    by eapply IH.
Qed.

(** C3, as the code has it.  A [navigate] call whose normalized URL
    has a pending entry starts no fetch and changes neither map, the
    history, the timers nor the aborted controllers.  What it returns
    is not the pending promise itself: [navigate] is an [async]
    method, so the call returns a promise of its own, made for this
    call and resolved with the pending promise; whatever happens
    afterwards, the result it stands for is the result of the pending
    promise. *)
Theorem navigate_joins_pending s url options existing :
  reachable s ->
  pending s !! normalizeUrl url = Some existing ->
  let returned := (navigate url options s).1 in
  let s' := (navigate url options s).2 in
  returned = nextPromise s
  /\ returned <> existing
  /\ adopted s' !! returned = Some existing
  /\ (forall es s'', run es s' = Some s'' ->
        resultOf s'' returned = settled s'' !! existing)
  /\ requests s' = requests s
  /\ pending s' = pending s
  /\ activeRequests s' = activeRequests s
  /\ navigationHistory s' = navigationHistory s
  /\ timers s' = timers s
  /\ aborted s' = aborted s.
Proof.
  intros Hr Hpend returned s'. subst returned s'.
  unfold NavigationController.navigate. rewrite Hpend. simpl.
  split; [done|]. split.
  - destruct (reachable_registered s Hr) as (Hp & Hq & _).
    destruct (Hp _ _ Hpend) as (rq & Hrq & _).
    specialize (Hq existing (mk_is_Some _ _ Hrq)). lia.
  - split; [by rewrite lookup_insert_eq|].
    split; [|done]. intros es s'' Hrun. unfold resultOf.
    erewrite run_adopted; [done | exact Hrun | |]; simpl;
      [by rewrite lookup_insert_eq | lia].
Qed.

(** The call that starts a navigation registers its promise and
    returns a promise resolved with it. *)
Lemma navigate_starts s url options :
  pending s !! normalizeUrl url = None ->
  let s1 := if replace options then cancelAll s else s in
  let returned := (navigate url options s).1 in
  let s' := (navigate url options s).2 in
  pending s' = <[normalizeUrl url := nextPromise s]> (pending s1)
  /\ activeRequests s' = <[normalizeUrl url := nextController s]> (activeRequests s1)
  /\ requests s' !! nextPromise s
     = Some {| requestUrl := normalizeUrl url; requestSignal := nextController s;
               requestKind := Navigation; requestTimer := Some (nextTimer s) |}
  /\ adopted s' !! returned = Some (nextPromise s)
  /\ aborted s' = aborted s1.
Proof.
  intros Hpend s1 returned s'. subst s1 returned s'.
  unfold NavigationController.navigate. rewrite Hpend.
  destruct (replace options); simpl; by rewrite !lookup_insert_eq.
Qed.

(** C8, as the code has it.  A [navigate] call with [replace] set
    whose normalized URL is not pending: every pending entry that was
    made by [navigate] has the signal of its fetch aborted, every
    controller of [activeRequests] is aborted, and both maps hold
    nothing but the new navigation, whose own controller is not
    aborted.  (An entry made by [prefetch] is dropped from [pending]
    with the others; its controller was never registered.) *)
Theorem replace_cancels_pending_navigations s url options :
  reachable s ->
  replace options = true ->
  pending s !! normalizeUrl url = None ->
  let s' := (navigate url options s).2 in
  (forall u q rq,
     pending s !! u = Some q -> requests s !! q = Some rq ->
     requestKind rq = Navigation -> cancelled s' q)
  /\ (forall u c, activeRequests s !! u = Some c -> c ∈ aborted s')
  /\ (forall u, u <> normalizeUrl url ->
        pending s' !! u = None /\ activeRequests s' !! u = None)
  /\ pending s' !! normalizeUrl url = Some (nextPromise s)
  /\ activeRequests s' !! normalizeUrl url = Some (nextController s)
  /\ nextController s ∉ aborted s'.
Proof.
  intros Hr Hrep Hpend s'. subst s'.
  destruct (reachable_registered s Hr) as (Hp & Hq & Ha & Hc & _).
  destruct (navigate_starts s url options Hpend) as (Hp' & Ha' & _ & _ & Hab).
  rewrite Hrep in Hp', Ha', Hab. simpl in Hp', Ha', Hab.
  assert (Hall : forall u c, activeRequests s !! u = Some c ->
            c ∈ aborted (navigate url options s).2).
  { intros u c Hu. rewrite Hab. apply elem_of_union. right.
    apply elem_of_map_img. eauto. }
  split; [|split; [exact Hall|split; [|split; [|split]]]].
  - intros u q rq Hu Hrq Hkind.
    destruct (Hp u q Hu) as (rq' & Hrq' & _ & Hact). simplify_eq.
    exists rq. split; [|by eapply Hall, Hact].
    unfold NavigationController.navigate. rewrite Hpend, Hrep. simpl.
    rewrite lookup_insert_ne; [done|].
    specialize (Hq q (mk_is_Some _ _ Hrq)). lia.
  - intros u Hne. rewrite Hp', Ha'.
    by rewrite !lookup_insert_ne, !lookup_empty by done.
  - by rewrite Hp', lookup_insert_eq.
  - by rewrite Ha', lookup_insert_eq.
  - rewrite Hab. intros [Hin|Hin]%elem_of_union.
    + specialize (Ha _ Hin). lia.
    + apply elem_of_map_img in Hin as [u Hu]. specialize (Hc _ _ Hu). lia.
Qed.

(** C9, as the code has it.  A [prefetch] call that registers an entry
    arms no timer.  When the fetch settles, fulfilled or rejected, the
    eviction timer is armed for 5000 ms after that moment, and the
    entry stays.  That timer cannot fire before it is due; when it
    fires it removes the entry if [pending] still holds this very
    promise under the URL, and otherwise leaves [pending] alone.  In
    every reachable state a timer evicting a prefetch promise exists
    only if that promise has settled. *)
Theorem prefetch_evicted_after_settlement s url :
  pending s !! normalizeUrl url = None ->
  let normalizedUrl := normalizeUrl url in
  let prefetchPromise := nextPromise s in
  let s1 := prefetch url s in
  pending s1 !! normalizedUrl = Some prefetchPromise
  /\ timers s1 = timers s
  /\ requests s1 !! prefetchPromise
     = Some {| requestUrl := normalizedUrl; requestSignal := nextController s;
               requestKind := Prefetch; requestTimer := None |}
  /\ (forall s2 o rq,
        requests s2 !! prefetchPromise = Some rq ->
        requestUrl rq = normalizedUrl -> requestKind rq = Prefetch ->
        settled s2 !! prefetchPromise = None ->
        exists s3,
          step (FetchSettled prefetchPromise o) s2 = Some s3
          /\ pending s3 = pending s2
          /\ timers s3 = <[nextTimer s2 :=
                             (clock s2 + 5000,
                              EvictPrefetch normalizedUrl prefetchPromise)]> (timers s2))
  /\ (forall s4 timer due,
        timers s4 !! timer = Some (due, EvictPrefetch normalizedUrl prefetchPromise) ->
        (clock s4 < due -> step (TimerFired timer) s4 = None)
        /\ (due <= clock s4 ->
            exists s5,
              step (TimerFired timer) s4 = Some s5
              /\ pending s5 =
                   (if bool_decide (pending s4 !! normalizedUrl = Some prefetchPromise)
                    then delete normalizedUrl (pending s4)
                    else pending s4)))
  /\ (forall s6 timer due u p,
        reachable s6 ->
        timers s6 !! timer = Some (due, EvictPrefetch u p) ->
        is_Some (settled s6 !! p)).
Proof.
  intros Hpend n p s1. subst n p s1.
  unfold NavigationController.prefetch. rewrite Hpend. simpl.
  split; [by rewrite lookup_insert_eq|]. split; [done|].
  split; [by rewrite lookup_insert_eq|]. split; [|split].
  - intros s2 o rq Hrq Hurl Hkind Hsettled.
    unfold fetchSettled. rewrite Hrq, Hsettled, Hkind.
    eexists. split; [done|]. simpl. by rewrite Hurl.
  - intros s4 timer due Ht. unfold timerFired. rewrite Ht. split.
    + intros Hlt. destruct (Z.leb_spec due (clock s4)); [lia | done].
    + intros Hle. destruct (Z.leb_spec due (clock s4)); [|lia].
      eexists. split; [done|]. simpl. by case_bool_decide.
  - intros s6 timer due u p Hr Ht.
    destruct (reachable_evictionsSettled s6 Hr) as [Hev _]. by eapply Hev.
Qed.


End Facts.
Import Scenario.

Local Abbreviation go := (navigate sameHref None).

(** C3 as stated fails: two calls for the same URL, the second while
    the first is pending, return different promises, and neither is the
    promise held in [pending]. *)
Lemma navigate_returns_distinct_promises :
  let first := go "/a" plain init in
  let second := go "/a" plain first.2 in
  pending first.2 !! "/a" = Some 0%nat
  /\ first.1 = 1%nat
  /\ second.1 = 2%nat
  /\ second.1 <> first.1.
Proof. vm_compute. repeat split; lia. Qed.

Lemma navigating_reachable :
  reachable sameHref None (navState [Navigate "/a" plain]).
Proof.
  apply (navigation_reachable_run _ _ [Navigate "/a" plain] init);
    [apply reachable_init | vm_compute; reflexivity].
Qed.

Lemma navigate_joins_pending_witness :
  pending (navState [Navigate "/a" plain]) !! "/a" = Some 0%nat
  /\ adopted (go "/a" plain (navState [Navigate "/a" plain])).2 !! 2%nat = Some 0%nat
  /\ requests (go "/a" plain (navState [Navigate "/a" plain])).2
     = requests (navState [Navigate "/a" plain]).
Proof.
  assert (Hpend : pending (navState [Navigate "/a" plain])
                    !! normalizeUrl sameHref "/a" = Some 0%nat)
    by (vm_compute; reflexivity).
  destruct (navigate_joins_pending sameHref None (navState [Navigate "/a" plain])
              "/a" plain 0%nat navigating_reachable Hpend)
    as (Hret & _ & Had & _ & Hreq & _).
  split; [exact Hpend|]. split; [|exact Hreq].
  rewrite Hret in Had. exact Had.
Defined.

(** C8 as stated fails, twice.  A prefetch of /b is pending when /a is
    navigated to with [replace]: the entry of /b goes, but the signal of
    its fetch is not aborted.  And when /a itself is pending, a
    [replace] navigation to /a joins it and the pending navigation to /b
    is not touched. *)
Lemma replace_leaves_fetches_running :
  (let before := navState [PrefetchUrl "/b"] in
   let after := (go "/a" replacing before).2 in
   replace replacing = true
   /\ "/b" <> normalizeUrl sameHref "/a"
   /\ pending before !! "/b" = Some 0%nat
   /\ ~ cancelled after 0)
  /\ (let before := navState [Navigate "/a" plain; Navigate "/b" plain] in
      let after := (go "/a" replacing before).2 in
      pending before !! "/b" = Some 2%nat
      /\ pending after !! "/b" = Some 2%nat
      /\ ~ cancelled after 2).
Proof.
  split.
  - split; [reflexivity|]. split; [intros [= ?]|].
    split; [vm_compute; reflexivity|].
    intros (rq & Hrq & Hin). vm_compute in Hrq. injection Hrq as <-.
    vm_compute in Hin. set_solver.
  - split; [vm_compute; reflexivity|]. split; [vm_compute; reflexivity|].
    intros (rq & Hrq & Hin). vm_compute in Hrq. injection Hrq as <-.
    vm_compute in Hin. set_solver.
Qed.

Lemma two_pending_reachable :
  reachable sameHref None (navState [Navigate "/b" plain; PrefetchUrl "/c"]).
Proof.
  apply (navigation_reachable_run _ _ [Navigate "/b" plain; PrefetchUrl "/c"] init);
    [apply reachable_init | vm_compute; reflexivity].
Qed.

Lemma replace_cancels_pending_navigations_witness :
  let before := navState [Navigate "/b" plain; PrefetchUrl "/c"] in
  let after := (go "/a" replacing before).2 in
  pending before !! "/b" = Some 0%nat
  /\ cancelled after 0
  /\ pending after !! "/b" = None
  /\ pending after !! "/c" = None
  /\ pending after !! "/a" = Some 3%nat.
Proof.
  intros before after.
  assert (Hfree : pending before !! normalizeUrl sameHref "/a" = None)
    by (vm_compute; reflexivity).
  assert (Hb : pending before !! "/b" = Some 0%nat) by (vm_compute; reflexivity).
  destruct (replace_cancels_pending_navigations sameHref None before "/a" replacing
              two_pending_reachable eq_refl Hfree)
    as (Hcancel & _ & Hgone & Hnew & _).
  split; [exact Hb|]. split.
  - eapply (Hcancel "/b" 0%nat); [exact Hb | vm_compute; reflexivity | reflexivity].
  - split; [apply (Hgone "/b"); intros [= ?]|].
    split; [apply (Hgone "/c"); intros [= ?]|].
    exact Hnew.
Defined.

(** C9 as stated fails.  While the fetch of a prefetch has not settled,
    its entry stays however long one waits, and no timer is armed at
    all; and when the fetch settles 4000 ms after the start, the entry
    is still there 8999 ms after the start, the timer being due at
    9000. *)
Lemma prefetch_outlives_grace_window :
  (let s := navState [PrefetchUrl "/b"; Tick 5000; Tick 60000] in
   clock s = 65000
   /\ pending s !! "/b" = Some 0%nat
   /\ timers s = ∅)
  /\ (let s := navState [PrefetchUrl "/b"; Tick 4000; FetchSettled 0 okResponse;
                         Tick 4999] in
      clock s = 8999
      /\ pending s !! "/b" = Some 0%nat
      /\ timers s !! 0%nat = Some (9000, EvictPrefetch "/b" 0)
      /\ timerFired 0 s = None).
Proof.
  split; vm_compute; repeat split; reflexivity.
Qed.

Lemma prefetch_evicted_after_settlement_witness :
  pending init !! normalizeUrl sameHref "/b" = None
  /\ pending (prefetch sameHref "/b" init) !! "/b" = Some 0%nat
  /\ timers (prefetch sameHref "/b" init) = ∅.
Proof.
  assert (Hfree : pending init !! normalizeUrl sameHref "/b" = None)
    by (vm_compute; reflexivity).
  destruct (prefetch_evicted_after_settlement sameHref None init "/b" Hfree)
    as (Hentry & Htimers & _).
  split; [exact Hfree|]. split; [exact Hentry | exact Htimers].
Defined.

End NavigationFacts.

(** ** Chains of interceptors that call [next()] at most once *)

Module ChainFacts.
Import Middleware Chains.

Section Facts.
Context {T : Type}.
Variable ctx : LoaderCtx.
Variable handler : nat -> Outcome T.
Variable middlewares : list (LoaderMiddleware T).

Local Abbreviation len := (Z.of_nat (length middlewares)).
Local Abbreviation rest_from i := (drop (Z.to_nat i) middlewares).

Lemma drop_lookup_cons i (m : LoaderMiddleware T) :
  0 <= i -> middlewares !! Z.to_nat i = Some m ->
  rest_from i = m :: rest_from (i + 1).
Proof.
  intros Hi Hm. replace (Z.to_nat (i + 1)) with (S (Z.to_nat i)) by lia.
  by apply drop_S.
Qed.

Lemma drop_past_end i : len <= i -> rest_from i = [].
Proof. intros Hi. apply drop_ge. lia. Qed.

Lemma lookup_in_range i :
  0 <= i < len -> exists m, middlewares !! Z.to_nat i = Some m.
Proof.
  intros Hi. destruct (middlewares !! Z.to_nat i) as [m|] eqn:E; [eauto|].
  apply lookup_ge_None in E. lia.
Qed.

Lemma runAction_finishes (a : Action T) k s o :
  finishes a = Some o -> runAction a k s = Some (o, s).
Proof. destruct a; simpl; intros [= <-]; done. Qed.

(** [dispatch(i)] entered for the first time runs the rest of the chain
    as nested calls. *)
Lemma dispatch_onion fuel : forall i s,
  0 <= i -> len - i <= Z.of_nat fuel -> index s < i ->
  callNextAtMostOnce ctx (rest_from i) ->
  match dispatch ctx handler middlewares fuel i s with
  | Some (o, s') =>
      (o, loaderCalls s') = onion ctx handler (rest_from i) (loaderCalls s)
      /\ index s < index s'
  | None => False
  end.
Proof.
  induction fuel as [|fuel IH]; intros i s Hi Hfuel Hidx Hwb.
  - simpl. destruct (Z.leb_spec i (index s)); [lia|].
    destruct (Z.leb_spec len i); [|lia].
    rewrite drop_past_end by done. simpl. split; [done | lia].
  - cbn [dispatch]. destruct (Z.leb_spec i (index s)); [lia|].
    destruct (Z.leb_spec len i).
    { rewrite drop_past_end by done. simpl. split; [done | lia]. }
    destruct (lookup_in_range i) as [m Hm]; [lia|].
    rewrite (drop_lookup_cons i m) in Hwb |- * by (done || lia).
    unfold LoaderMiddleware in *. rewrite Hm. simpl in *.
    destruct (m ctx) as [v|e|k] eqn:Hmc; simpl.
    + split; [done | lia].
    + split; [done | lia].
    + destruct Hwb as [Hrest Hk].
      assert (Hi1 : 0 <= i + 1) by lia.
      assert (Hf1 : len - (i + 1) <= Z.of_nat fuel) by lia.
      assert (Hx1 : index {| index := i; loaderCalls := loaderCalls s |} < i + 1)
        by (simpl; lia).
      specialize (IH (i + 1) _ Hi1 Hf1 Hx1 Hrest).
      destruct (dispatch ctx handler middlewares fuel (i + 1) _) as [[o s2]|];
        [|done].
      destruct IH as [Heq Hidx2]. simpl in Heq, Hidx2. rewrite <- Heq. simpl.
      destruct (Hk o) as [o' Ho].
      rewrite (runAction_finishes _ _ _ _ Ho), Ho. simpl. split; [done | lia].
Qed.

(** [next()] of [runMiddleware] entered with [index] at [i] does the
    same. *)
Lemma next_onion fuel : forall s,
  0 <= index s -> len - index s <= Z.of_nat fuel ->
  callNextAtMostOnce ctx (rest_from (index s)) ->
  match next ctx handler middlewares fuel s with
  | Some (o, s') =>
      (o, loaderCalls s') = onion ctx handler (rest_from (index s)) (loaderCalls s)
  | None => False
  end.
Proof.
  induction fuel as [|fuel IH]; intros s Hi Hfuel Hwb.
  - simpl. destruct (Z.leb_spec len (index s)); [|lia].
    by rewrite drop_past_end by done.
  - cbn [next]. destruct (Z.leb_spec len (index s)).
    { by rewrite drop_past_end by done. }
    destruct (lookup_in_range (index s)) as [m Hm]; [lia|].
    rewrite (drop_lookup_cons (index s) m) in Hwb |- * by (done || lia).
    unfold LoaderMiddleware in *. rewrite Hm. simpl in *.
    destruct (m ctx) as [v|e|k] eqn:Hmc; simpl; [done | done |].
    destruct Hwb as [Hrest Hk].
    assert (Hi1 : 0 <= index {| index := index s + 1; loaderCalls := loaderCalls s |})
      by (simpl; lia).
    assert (Hf1 : len - index {| index := index s + 1; loaderCalls := loaderCalls s |}
                  <= Z.of_nat fuel) by (simpl; lia).
    specialize (IH _ Hi1 Hf1 Hrest).
    destruct (next ctx handler middlewares fuel _) as [[o s2]|]; [|done].
    simpl in IH. rewrite <- IH. simpl. destruct (Hk o) as [o' Ho].
    by rewrite (runAction_finishes _ _ _ _ Ho), Ho.
Qed.

Lemma onion_calls ms : forall c,
  (c <= (onion ctx handler ms c).2 <= S c)%nat.
Proof.
  induction ms as [|m ms IH]; intros c; simpl; [lia|].
  destruct (m ctx); simpl; [lia | lia | apply IH].
Qed.

(** Both executors run a chain whose interceptors call [next()] at most
    once as nested calls. *)
Lemma executors_run_onion :
  callNextAtMostOnce ctx middlewares ->
  exists o s1 s2,
    compose ctx handler middlewares = Some (o, s1)
    /\ runMiddleware ctx handler middlewares = Some (o, s2)
    /\ (o, loaderCalls s1) = onion ctx handler middlewares 0
    /\ (o, loaderCalls s2) = onion ctx handler middlewares 0.
Proof.
  intros Hwb. unfold compose, runMiddleware.
  pose proof (dispatch_onion (length middlewares) 0 {| index := -1; loaderCalls := 0 |})
    as H1.
  pose proof (next_onion (length middlewares) {| index := 0; loaderCalls := 0 |}) as H2.
  simpl in H1, H2. change (drop (Z.to_nat 0) middlewares) with middlewares in *.
  specialize (H1 ltac:(lia) ltac:(lia) ltac:(lia) Hwb).
  specialize (H2 ltac:(lia) ltac:(lia) Hwb).
  destruct (dispatch ctx handler middlewares _ 0 _) as [[o1 s1]|]; [|done].
  destruct (next ctx handler middlewares _ _) as [[o2 s2]|]; [|done].
  destruct H1 as [H1 _].
  assert (o1 = o2) as -> by congruence.
  by exists o2, s1, s2.
Qed.

(** X3.  When every interceptor that is reached calls [next()] at most once,
    [compose] and [runMiddleware] settle with the same outcome after the
    same number of loader runs, which is at most one. *)
Theorem executors_agree_on_single_next :
  callNextAtMostOnce ctx middlewares ->
  exists o s1 s2,
    compose ctx handler middlewares = Some (o, s1)
    /\ runMiddleware ctx handler middlewares = Some (o, s2)
    /\ loaderCalls s1 = loaderCalls s2
    /\ (loaderCalls s1 <= 1)%nat.
Proof.
  intros Hwb. destruct (executors_run_onion Hwb) as (o & s1 & s2 & H1 & H2 & E1 & E2).
  exists o, s1, s2. split; [done|]. split; [done|]. split; [congruence|].
  pose proof (onion_calls middlewares 0) as H. rewrite <- E1 in H. simpl in H. lia.
Qed.

Lemma passesThrough_once ms :
  Forall (passesThrough ctx) ms ->
  callNextAtMostOnce ctx ms /\ forall c, onion ctx handler ms c = (handler c, S c).
Proof.
  induction 1 as [|m ms (k & Hm & Hk) _ [IHwb IHon]]; simpl; [done|].
  rewrite Hm. split.
  - split; [done|]. intros o. rewrite Hk. eauto.
  - intros c. rewrite IHon. simpl. by rewrite Hk.
Qed.

(** X4.  When every interceptor awaits [next()] once and hands on what it
    gets, the terminal loader runs exactly once, last, and the chain
    settles with what the loader settled with, in both executors. *)
Theorem passing_chain_runs_loader_once :
  Forall (passesThrough ctx) middlewares ->
  exists s1 s2,
    compose ctx handler middlewares = Some (handler 0%nat, s1)
    /\ runMiddleware ctx handler middlewares = Some (handler 0%nat, s2)
    /\ loaderCalls s1 = 1%nat /\ loaderCalls s2 = 1%nat.
Proof.
  intros Hall. destruct (passesThrough_once middlewares Hall) as [Hwb Hon].
  destruct (executors_run_onion Hwb) as (o & s1 & s2 & H1 & H2 & E1 & E2).
  rewrite Hon in E1, E2. injection E1 as -> Hc1. injection E2 as Hc2.
  by exists s1, s2.
Qed.

Lemma shortCircuit_onion before m after o :
  Forall (passesThrough ctx) before -> shortCircuits ctx m o ->
  callNextAtMostOnce ctx (before ++ m :: after)
  /\ forall c, onion ctx handler (before ++ m :: after) c = (o, c).
Proof.
  intros Hbefore Hm. unfold shortCircuits in Hm.
  induction Hbefore as [|b before (k & Hb & Hk) _ [IHwb IHon]]; simpl.
  - destruct (m ctx); simpl in Hm; simplify_eq; done.
  - rewrite Hb. split.
    + split; [done|]. intros o'. rewrite Hk. eauto.
    + intros c. rewrite IHon. simpl. by rewrite Hk.
Qed.

End Facts.

Section ShortCircuit.
Context {T : Type}.
Variable ctx : LoaderCtx.
Variable handler : nat -> Outcome T.

(** X5.  An interceptor that ends without calling [next()], behind
    interceptors that pass through, halts the chain there: the chain
    settles with what that interceptor ended with, the terminal loader is
    never entered, and the interceptors after it play no part, whatever
    they are. *)
Theorem short_circuit_skips_loader before m after o :
  Forall (passesThrough ctx) before -> shortCircuits ctx m o ->
  exists s1 s2,
    compose ctx handler (before ++ m :: after) = Some (o, s1)
    /\ runMiddleware ctx handler (before ++ m :: after) = Some (o, s2)
    /\ loaderCalls s1 = 0%nat /\ loaderCalls s2 = 0%nat.
Proof.
  intros Hbefore Hm.
  destruct (shortCircuit_onion ctx handler before m after o Hbefore Hm) as [Hwb Hon].
  destruct (executors_run_onion ctx handler _ Hwb) as (o' & s1 & s2 & H1 & H2 & E1 & E2).
  rewrite Hon in E1, E2. injection E1 as -> Hc1. injection E2 as Hc2.
  by exists s1, s2.
Qed.

End ShortCircuit.

Section Unguarded.
Context {T : Type}.
Variable ctx : LoaderCtx.
Variable handler : nat -> Outcome T.

(** *** [runMiddleware] without the guard *)

Lemma runAction_callsNextTimes (ms : list (LoaderMiddleware T)) n : forall last s,
  Z.of_nat (length ms) <= index s ->
  runAction (callsNextTimes n last) (next ctx handler ms 0) s
  = Some (match n with
          | O => last
          | S n' => handler (loaderCalls s + n')%nat
          end,
          {| index := index s; loaderCalls := (loaderCalls s + n)%nat |}).
Proof.
  induction n as [|n IH]; intros last s Hs; cbn [callsNextTimes runAction].
  - rewrite Nat.add_0_r. by destruct last, s.
  - cbn [next]. destruct (Z.leb_spec (Z.of_nat (length ms)) (index s)); [|lia].
    unfold callHandler. rewrite IH by done. simpl. f_equal. f_equal.
    + destruct n; simpl; f_equal; lia.
    + f_equal. lia.
Qed.

(** X6.  [runMiddleware] puts no bound on the loader: a single interceptor
    that awaits [next()] [n] times, [n] not zero, makes it enter the
    terminal loader [n] times and settle with what the last run gave;
    [compose], given the same interceptor, enters the loader once. *)
Theorem runMiddleware_enters_loader_on_every_next n :
  exists o s1,
    runMiddleware ctx handler [fun _ => callsNextTimes (S n) (handler 0%nat)]
    = Some (handler n, {| index := 1; loaderCalls := S n |})
    /\ compose ctx handler [fun _ => callsNextTimes (S n) (handler 0%nat)]
       = Some (o, s1)
    /\ loaderCalls s1 = 1%nat.
Proof.
  pose (ms := [fun _ : LoaderCtx => callsNextTimes (S n) (handler 0%nat)]
              : list (LoaderMiddleware T)).
  assert (Hrun : runMiddleware ctx handler ms
                 = Some (handler n, {| index := 1; loaderCalls := S n |})).
  { unfold runMiddleware. change (length ms) with 1%nat. cbn [next].
    change (length ms) with 1%nat.
    change (Z.of_nat 1 <=? index {| index := 0; loaderCalls := 0 |}) with false.
    cbv iota. change (ms !! Z.to_nat (index {| index := 0; loaderCalls := 0 |}))
      with (Some (fun _ : LoaderCtx => callsNextTimes (S n) (handler 0%nat))).
    cbv iota beta.
    by rewrite (runAction_callsNextTimes ms (S n)) by (simpl; lia). }
  destruct (MiddlewareFacts.dispatch_total ctx handler ms 1 0
              {| index := -1; loaderCalls := 0 |}) as (o & s1 & Hd);
    [lia | simpl; lia |].
  exists o, s1. split; [exact Hrun|]. split; [exact Hd|].
  assert (Hlen : 0 <= Z.of_nat (length ms)) by (simpl; lia).
  assert (Hinit : loaderOnce ms {| index := -1; loaderCalls := 0 |}) by (by left).
  destruct (MiddlewareFacts.dispatch_invariant ctx handler ms _ 0 _ _ _ Hlen Hinit Hd)
    as [[H0|[H1 _]] _]; [|done].
  exfalso. revert Hd. cbn [dispatch]. change (length ms) with 1%nat.
  change (0 <=? index {| index := -1; loaderCalls := 0 |}) with false.
  change (Z.of_nat 1 <=? 0) with false. cbv iota.
  change (ms !! Z.to_nat 0)
    with (Some (fun _ : LoaderCtx => callsNextTimes (S n) (handler 0%nat))).
  cbv iota beta. cbn [callsNextTimes runAction].
  change (0 + 1 <=? index {| index := 0; loaderCalls := loaderCalls
                                {| index := -1; loaderCalls := 0 |} |}) with false.
  cbv iota. change (Z.of_nat 1 <=? 0 + 1) with true. cbv iota.
  intros Hrun'.
  assert (Hmono : forall a r o' r',
            runAction a (dispatch ctx handler ms 0 (0 + 1)) r = Some (o', r') ->
            (loaderCalls r <= loaderCalls r')%nat).
  { induction a as [v|e|k IHk]; intros r o' r'; cbn [runAction].
    - by intros [= _ <-].
    - by intros [= _ <-].
    - cbn [dispatch]. destruct (0 + 1 <=? index r); [by apply IHk|].
      destruct (Z.of_nat (length ms) <=? 0 + 1); [|done].
      unfold callHandler. intros Hk. apply IHk in Hk. simpl in Hk. lia. }
  apply Hmono in Hrun'. simpl in Hrun'. lia.
Qed.

End Unguarded.

Lemma passThrough_passesThrough : passesThrough sampleCtx (@passThrough string).
Proof. eexists. split; [reflexivity|]. by intros [v|e]. Qed.

Lemma executors_agree_on_single_next_witness :
  exists s1 s2,
    compose sampleCtx sampleHandler [passThrough; fun _ => Throw (Thrown "denied"); callsNextTwice]
    = Some (Rejected (Thrown "denied"), s1)
    /\ runMiddleware sampleCtx sampleHandler
         [passThrough; fun _ => Throw (Thrown "denied"); callsNextTwice]
       = Some (Rejected (Thrown "denied"), s2)
    /\ loaderCalls s1 = loaderCalls s2.
Proof.
  destruct (executors_agree_on_single_next sampleCtx sampleHandler
              [passThrough; fun _ => Throw (Thrown "denied"); callsNextTwice])
    as (o & s1 & s2 & H1 & H2 & Hc & _).
  - simpl. split; [done|]. intros [v|e]; simpl; eauto.
  - exists s1, s2. assert (o = Rejected (Thrown "denied")) as ->.
    { vm_compute in H1. by injection H1 as <- _. }
    by repeat split.
Defined.

Lemma passing_chain_runs_loader_once_witness :
  exists s2,
    runMiddleware sampleCtx sampleHandler [passThrough; passThrough; passThrough]
    = Some (sampleHandler 0%nat, s2)
    /\ loaderCalls s2 = 1%nat.
Proof.
  destruct (passing_chain_runs_loader_once sampleCtx sampleHandler
              [passThrough; passThrough; passThrough])
    as (s1 & s2 & _ & H2 & _ & Hc).
  - repeat constructor; apply passThrough_passesThrough.
  - by exists s2.
Defined.

Lemma short_circuit_skips_loader_witness :
  exists s1,
    compose sampleCtx sampleHandler [passThrough; fun _ => Return "403"; callsNextTwice]
    = Some (Resolved "403", s1)
    /\ loaderCalls s1 = 0%nat.
Proof.
  destruct (short_circuit_skips_loader sampleCtx sampleHandler [passThrough]
              (fun _ => Return "403") [callsNextTwice] (Resolved "403"))
    as (s1 & s2 & H1 & _ & Hc & _).
  - repeat constructor; apply passThrough_passesThrough.
  - reflexivity.
  - by exists s1.
Defined.

(** After the first [next()] of the single interceptor, [index] is 1; a
    further [dispatch(1)] is refused. *)
Lemma compose_second_next_rejected_witness :
  dispatch sampleCtx sampleHandler [callsNextTwice] 0 1 {| index := 0; loaderCalls := 0 |}
  = Some (sampleHandler 0%nat, {| index := 1; loaderCalls := 1 |})
  /\ dispatch sampleCtx sampleHandler [callsNextTwice] 0 1 {| index := 1; loaderCalls := 1 |}
     = Some (Rejected NextCalledMultipleTimes, {| index := 1; loaderCalls := 1 |}).
Proof.
  split; [reflexivity|].
  apply (MiddlewareFacts.compose_second_next_rejected sampleCtx sampleHandler [callsNextTwice]
           0 0 0 {| index := 0; loaderCalls := 0 |} (sampleHandler 0%nat)
           {| index := 1; loaderCalls := 1 |}).
  - simpl. lia.
  - left. reflexivity.
  - reflexivity.
  - simpl. lia.
Defined.


End ChainFacts.

(** ** Adapted Hono middleware *)

Module HonoFacts.
Import Middleware Chains Hono.

Section Facts.
Context {T : Type}.
Variable thrownResponse : Z -> Error.
Variable ctx : LoaderCtx.
Variable handler : nat -> Outcome T.

Local Abbreviation adapt := (@adaptHonoMiddleware T thrownResponse).

Lemma adapt_cases middleware :
  (passesThrough ctx (adapt middleware) /\ refusal thrownResponse (T:=T) ctx middleware = None)
  \/ (exists e, shortCircuits ctx (adapt middleware) (Rejected e)
                /\ refusal thrownResponse (T:=T) ctx middleware = Some e).
Proof.
  unfold refusal, passesThrough, shortCircuits, adaptHonoMiddleware.
  assert (Hc : passesThrough ctx (fun _ => @continue T)
               /\ match @continue T with Throw e => Some e | _ => None end = None).
  { split; [|done]. eexists. split; [reflexivity|]. by intros [v|e]. }
  unfold passesThrough in Hc.
  destruct (runBody (middleware ctx) _) as [e|[called [code|]]]; simpl.
  - right. by exists e.
  - destruct called; [by left|].
    destruct (code =? 0); [by left|]. right. by eexists.
  - destruct called; by left.
Qed.

Lemma adapted_onion chain : forall c,
  callNextAtMostOnce ctx (map adapt chain)
  /\ onion ctx handler (map adapt chain) c
     = match firstRefusal thrownResponse (T:=T) ctx chain with
       | Some e => (Rejected e, c)
       | None => (handler c, S c)
       end.
Proof.
  induction chain as [|middleware chain IH]; intros c; simpl; [done|].
  destruct (IH c) as [IHwb IHon].
  destruct (adapt_cases middleware) as [[(k & Hm & Hk) Href]|(e & Hm & Href)];
    rewrite Href.
  - rewrite Hm. split.
    + split; [done|]. intros o. rewrite Hk. eauto.
    + rewrite IHon. simpl. rewrite Hk. simpl.
      by destruct (firstRefusal thrownResponse ctx chain).
  - unfold shortCircuits in Hm.
    destruct (adapt middleware ctx); simpl in Hm; simplify_eq. done.
Qed.

(** X7.  A chain of adapted Hono middleware enters the real continuation at
    most once per middleware, however often a body awaits the [next] it
    was given.  So under both executors the terminal loader runs
    exactly once, after every body has finished, and the chain settles
    with what the loader settled with, unless some body throws, or ends
    without having called [next] and with a non-zero status set: then
    the chain rejects with the error of the first such middleware and
    the loader is not entered. *)
Theorem adapted_chain_runs_loader_once chain :
  exists s1 s2,
    let settled :=
      match firstRefusal thrownResponse (T:=T) ctx chain with
      | Some e => (Rejected e, 0%nat)
      | None => (handler 0%nat, 1%nat)
      end in
    compose ctx handler (map adapt chain) = Some (settled.1, s1)
    /\ runMiddleware ctx handler (map adapt chain) = Some (settled.1, s2)
    /\ loaderCalls s1 = settled.2
    /\ loaderCalls s2 = settled.2.
Proof.
  destruct (adapted_onion chain 0) as [Hwb Hon].
  destruct (ChainFacts.executors_run_onion ctx handler _ Hwb)
    as (o & s1 & s2 & H1 & H2 & E1 & E2).
  rewrite Hon in E1, E2. exists s1, s2.
  destruct (firstRefusal thrownResponse ctx chain); simpl;
    injection E1 as -> Hc1; injection E2 as Hc2; by repeat split.
Qed.

End Facts.

(** A Hono body that awaits the [next] it was given twice, adapted: the
    loader runs once.  Behind a guard that sets 403 and returns, it does
    not run at all. *)
Lemma adapted_double_next :
  runMiddleware sampleCtx sampleHandler
    [adaptHonoMiddleware (fun _ => Thrown "response") (fun _ => awaitsNext 2)]
  = Some (sampleHandler 0%nat, {| index := 1; loaderCalls := 1 |}).
Proof. reflexivity. Qed.

Lemma adapted_guard :
  runMiddleware sampleCtx sampleHandler
    (map (adaptHonoMiddleware (fun _ => Thrown "response"))
       [forbid; fun _ => awaitsNext 2])
  = Some (Rejected (Thrown "response"), {| index := 1; loaderCalls := 0 |}).
Proof. reflexivity. Qed.

End HonoFacts.

(** ** The expiry sweep of the store *)

Module StoreFacts.
Import Cache.

Section Facts.
Context {Data : Type}.
Implicit Types routes : gmap string (CachedRoute Data).

(** X8.  [clearOldCache]: a row stored at [storedAt] survives a sweep made at
    [now] exactly when its age is strictly below [maxAge]; a row whose age
    equals [maxAge] is removed, the upper bound of the key range being
    inclusive. *)
Theorem clearOldCache_age_bound routes storedAt now maxAge url value v e :
  getCachedRouteData url
    (clearOldCache now maxAge (cacheRouteData storedAt url value v e routes))
  = if decide (now - storedAt < maxAge)
    then Some {| Cache.url := url; data := value; version := v;
                 timestamp := storedAt; etag := e |}
    else None.
Proof.
  unfold getCachedRouteData, clearOldCache, cacheRouteData.
  destruct (decide (now - storedAt < maxAge)) as [Hlt|Hge].
  - apply map_lookup_filter_Some. split; [apply lookup_insert_eq|]. simpl. lia.
  - apply map_lookup_filter_None. right. intros row Hrow.
    rewrite lookup_insert_eq in Hrow. injection Hrow as <-. simpl. lia.
Qed.

(** The sweep never touches a row younger than [maxAge], and never keeps
    an older one; it changes no row it keeps. *)
Lemma clearOldCache_lookup routes now maxAge url :
  clearOldCache now maxAge routes !! url
  = match routes !! url with
    | Some row => if decide (now - timestamp row < maxAge) then Some row else None
    | None => None
    end.
Proof.
  unfold clearOldCache. destruct (routes !! url) as [row|] eqn:Hrow.
  - destruct (decide (now - timestamp row < maxAge)) as [Hlt|Hge].
    + apply map_lookup_filter_Some. split; [done|]. simpl. lia.
    + apply map_lookup_filter_None. right. intros x Hx. simplify_eq. simpl. lia.
  - apply map_lookup_filter_None. by left.
Qed.

End Facts.
End StoreFacts.

(** ** The two paths of the fingerprint *)

Module EtagFacts.
Import Fingerprint Hex.

Lemma toInt32_range z : - 2 ^ 31 <= toInt32 z < 2 ^ 31.
Proof.
  unfold toInt32.
  pose proof (Z.mod_pos_bound (z + 2 ^ 31) (2 ^ 32) ltac:(lia)). lia.
Qed.

(** The fallback hash stays a signed 32-bit integer, whatever the
    payload, so its absolute value is at most 2^31. *)
Lemma fallback_hash_is_int32 (cs : list ascii) :
  - 2 ^ 31 <= fold_left mix cs 0 < 2 ^ 31.
Proof.
  assert (H : forall h, - 2 ^ 31 <= h < 2 ^ 31 ->
                        - 2 ^ 31 <= fold_left mix cs h < 2 ^ 31).
  { induction cs as [|c cs IH]; intros h Hh; simpl; [done|].
    apply IH. unfold mix. apply toInt32_range. }
  apply H. lia.
Qed.

Lemma hexByte_length b : String.length (hexByte b) = 2%nat.
Proof. reflexivity. Qed.

Lemma substring_hex_cons n b rest :
  String.substring 0 (S (S n)) (String.append (hexByte b) rest)
  = String.append (hexByte b) (String.substring 0 n rest).
Proof. reflexivity. Qed.

Lemma substring_all s : String.substring 0 (String.length s) s = s.
Proof. induction s as [|c s IH]; simpl; [done | by rewrite IH]. Qed.

Lemma substring_zero s : String.substring 0 0 s = EmptyString.
Proof. by destruct s. Qed.

Lemma substring_hex n : forall bytes,
  (n <= length bytes)%nat ->
  String.substring 0 (2 * n) (hexOf bytes) = hexOf (take n bytes).
Proof.
  induction n as [|n IH]; intros bytes Hlen.
  - simpl. apply substring_zero.
  - destruct bytes as [|b bytes]; [simpl in Hlen; lia|].
    replace (2 * S n)%nat with (S (S (2 * n))) by lia.
    change (hexOf (b :: bytes)) with (String.append (hexByte b) (hexOf bytes)).
    rewrite substring_hex_cons. rewrite IH by (simpl in Hlen; lia). done.
Qed.

Lemma append_length a b :
  String.length (String.append a b) = (String.length a + String.length b)%nat.
Proof. induction a as [|c a IH]; simpl; [done | by rewrite IH]. Qed.

Lemma hexOf_length bytes : String.length (hexOf bytes) = (2 * length bytes)%nat.
Proof.
  induction bytes as [|b bytes IH]; [done|].
  change (hexOf (b :: bytes)) with (String.append (hexByte b) (hexOf bytes)).
  rewrite append_length, IH. simpl. lia.
Qed.

(** X9.  On the primary path the fingerprint is the first eight bytes of the
    digest in hexadecimal between quotation marks: 18 characters, and two
    payloads whose digests share their first eight bytes have the same
    fingerprint. *)
Theorem primary_etag_is_first_eight_bytes sha256 data hashArray :
  sha256 data = Some hashArray -> (8 <= length hashArray)%nat ->
  generateETag (Some sha256) data
  = String quote (String.append (hexOf (take 8 hashArray)) (String quote EmptyString))
  /\ String.length (generateETag (Some sha256) data) = 18%nat.
Proof.
  intros Hsha Hlen. unfold generateETag. rewrite Hsha.
  change (fold_right String.append EmptyString (map hexByte hashArray))
    with (hexOf hashArray).
  change 16%nat with (2 * 8)%nat.
  rewrite (substring_hex 8 hashArray Hlen). split; [done|].
  cbn [String.length]. rewrite append_length, hexOf_length, length_take.
  cbn [String.length]. rewrite Nat.min_l by done. lia.
Qed.

(** On the fallback path only the first 1000 characters and the length
    of the payload count. *)
Lemma fallbackETag_blind_spot data1 data2 :
  take 1000 (list_ascii_of_string data1) = take 1000 (list_ascii_of_string data2) ->
  String.length data1 = String.length data2 ->
  fallbackETag data1 = fallbackETag data2.
Proof. intros Hpre Hlen. unfold fallbackETag. by rewrite Hpre, Hlen. Qed.

(** With a digest whose bytes are all 0xab. *)
Lemma primary_etag_is_first_eight_bytes_witness :
  generateETag (Some sampleDigest) "[1]"
  = String quote (String.append "abababababababab" (String quote EmptyString))
  /\ String.length (generateETag (Some sampleDigest) "[1]") = 18%nat.
Proof.
  destruct (primary_etag_is_first_eight_bytes sampleDigest "[1]" (replicate 32 171))
    as [Htag Hlen]; [reflexivity | simpl; lia |].
  split; [rewrite Htag; reflexivity | exact Hlen].
Defined.

End EtagFacts.

(** ** The service worker: tickets, rows and replies *)

Module WorkerFacts.
Import Cache SwStrategy SwInvariants.

Section Facts.
Context {Data : Type}.
Variable stringify : Data -> string.
Variable renderFn : Data -> string.
Variable injected : option string.
Variable digest : option (string -> option (list Z)).

Local Abbreviation step := (step stringify renderFn injected digest).
Local Abbreviation run := (run stringify renderFn injected digest).
Local Abbreviation reachable := (reachable stringify renderFn injected digest).
Local Abbreviation current := (Version.getAppVersion injected).
Local Abbreviation fingerprint := (fingerprintOf stringify digest).
Local Abbreviation consistent := (consistent stringify injected digest).
Local Abbreviation currentTask := (currentTask stringify injected digest).
Local Abbreviation currentRow := (currentRow stringify injected digest).

Implicit Types (s : State Data).

(** *** Tickets have bodies *)

Lemma owned_revalidate s cacheKey appVersion cachedEtag :
  ticketed s -> owned s ->
  owned (revalidateInBackground cacheKey appVersion cachedEtag s).
Proof.
  intros HT Hown. unfold revalidateInBackground.
  destruct (pendingRevalidations s !! cacheKey) eqn:Hp; [done|].
  pose proof (SwFacts.ticketedOn_fresh _ _ _ HT) as Hfresh.
  assert (Hgen : forall k, revalidationKey k = Some cacheKey ->
            forall ck t,
              <[cacheKey := nextTask s]> (pendingRevalidations s) !! ck = Some t ->
              <[nextTask s := k]> (tasks s) !! t ≫= revalidationKey = Some ck).
  { intros k Hk ck t. destruct (decide (ck = cacheKey)) as [->|Hne].
    - rewrite lookup_insert_eq. intros [= <-]. by rewrite lookup_insert_eq.
    - rewrite lookup_insert_ne by done. intros Hck.
      specialize (Hown ck t Hck). unfold revalidating in Hown.
      rewrite lookup_insert_ne; [done|]. intros <-. by rewrite Hfresh in Hown. }
  destruct (onLine s); intros ck t; unfold revalidating; simpl; by apply Hgen.
Qed.

Lemma owned_step s e s' :
  ticketed s -> owned s -> step e s = Some s' -> owned s'.
Proof.
  intros HT Hown Hstep. pose proof HT as [Hrev Hlt].
  assert (Hretask : forall t old new,
            tasks s !! t = Some old -> revalidationKey new = revalidationKey old ->
            forall ck t', pendingRevalidations s !! ck = Some t' ->
                          <[t := new]> (tasks s) !! t' ≫= revalidationKey = Some ck).
  { intros t old new Hold Hkey ck t' Hck. specialize (Hown ck t' Hck).
    unfold revalidating in Hown. destruct (decide (t' = t)) as [->|Hne].
    - rewrite lookup_insert_eq. simpl. rewrite Hkey. by rewrite Hold in Hown.
    - by rewrite lookup_insert_ne. }
  assert (Hdrop : forall t old,
            tasks s !! t = Some old -> revalidationKey old = None ->
            forall (ts : gmap nat (Task Data)) ck t',
              ts !! t' ≫= revalidationKey = Some ck -> ts !! t = Some old ->
              delete t ts !! t' ≫= revalidationKey = Some ck).
  { intros t old Hold Hkey ts ck t' Hck Hts. destruct (decide (t' = t)) as [->|Hne].
    - rewrite Hts in Hck. simpl in Hck. congruence.
    - by rewrite lookup_delete_ne. }
  destruct e; simpl in Hstep.
  - injection Hstep as <-. intros ck t' Hck. unfold revalidating. simpl.
    specialize (Hown ck t' Hck). unfold revalidating in Hown.
    rewrite lookup_insert_ne; [done|]. intros <-.
    by rewrite (SwFacts.ticketedOn_fresh _ _ _ HT) in Hown.
  - unfold afterGetCachedRouteData in Hstep.
    destruct (tasks s !! t) as [[ctx| | | | |]|] eqn:Ht; try done.
    assert (Hmiss : owned (fetchAndCache t (cacheKeyOf ctx) current s)).
    { intros ck t' Hck. unfold revalidating. simpl. by eapply Hretask. }
    destruct (getCachedRouteData _ _) as [cached|]; [|by injection Hstep as <-].
    destruct (Version.isVersionCompatible _ _); [|by injection Hstep as <-].
    injection Hstep as <-.
    pose proof (owned_revalidate s (cacheKeyOf ctx) current (etag cached) HT Hown) as H1.
    intros ck t' Hck. unfold revalidating. simpl. simpl in Hck.
    specialize (H1 ck t' Hck). unfold revalidating in H1.
    eapply Hdrop; [exact Ht | done | exact H1 |].
    unfold revalidateInBackground.
    destruct (pendingRevalidations s !! cacheKeyOf ctx); [done|].
    assert (t <> nextTask s).
    { intros ->. by rewrite (SwFacts.ticketedOn_fresh _ _ _ HT) in Ht. }
    destruct (onLine s); simpl; by rewrite lookup_insert_ne.
  - unfold afterLoader in Hstep.
    destruct (tasks s !! t) as [[| | | k v F| |]|] eqn:Ht; try done.
    + destruct o; injection Hstep as <-.
      * intros ck t' Hck. unfold revalidating. simpl. by eapply Hretask.
      * intros ck t' Hck. unfold revalidating. simpl.
        eapply Hdrop; [exact Ht | done | by apply Hown | exact Ht].
    + destruct o; [case_bool_decide|]; injection Hstep as <-;
        intros ck t' Hck; unfold revalidating; simpl; by eapply Hretask.
  - unfold afterCacheRouteData in Hstep.
    destruct (tasks s !! t) as [[| |k v d e| |k v d e|]|] eqn:Ht; try done;
      injection Hstep as <-; intros ck t' Hck; unfold revalidating; simpl.
    + eapply Hdrop; [exact Ht | done | by apply Hown | exact Ht].
    + by eapply Hretask.
  - unfold revalidationFinally in Hstep.
    destruct (tasks s !! t) as [[| | | | |k]|] eqn:Ht; try done.
    injection Hstep as <-. intros ck t' Hck. unfold revalidating. simpl. simpl in Hck.
    apply lookup_delete_Some in Hck as [Hne Hck].
    specialize (Hown ck t' Hck). unfold revalidating in Hown.
    rewrite lookup_delete_ne; [done|]. intros <-. rewrite Ht in Hown.
    simpl in Hown. congruence.
  - by injection Hstep as <-.
  - destruct (0 <=? dt); [|done]. by injection Hstep as <-.
  - by injection Hstep as <-.
  - by injection Hstep as <-.
  - by injection Hstep as <-.
  - by injection Hstep as <-.
Qed.

Lemma reachable_owned s : reachable s -> owned s.
Proof.
  induction 1 as [|s e s' Hr IH Hstep].
  - intros ck t. simpl. by rewrite lookup_empty.
  - eapply owned_step; [|exact IH | exact Hstep].
    by apply (SwFacts.reachable_ticketed stringify renderFn injected digest).
Qed.

(** *** Rows written by the strategy *)

Lemma consistent_revalidate s cacheKey cachedEtag :
  consistent s -> consistent (revalidateInBackground cacheKey current cachedEtag s).
Proof.
  intros [Htasks Hwrites]. unfold revalidateInBackground.
  destruct (pendingRevalidations s !! cacheKey); [done|].
  destruct (onLine s); (split; [|done]); simpl; by apply map_Forall_insert_2.
Qed.

Lemma consistent_step s e s' : consistent s -> step e s = Some s' -> consistent s'.
Proof.
  intros HC Hstep. pose proof HC as [Htasks Hwrites]. destruct e; simpl in Hstep.
  - injection Hstep as <-. split; [|done]. simpl. by apply map_Forall_insert_2.
  - unfold afterGetCachedRouteData in Hstep.
    destruct (tasks s !! t) as [[ctx| | | | |]|] eqn:Ht; try done.
    assert (Hmiss : consistent (fetchAndCache t (cacheKeyOf ctx) current s))
      by (split; [|done]; simpl; by apply map_Forall_insert_2).
    destruct (getCachedRouteData _ _) as [cached|]; [|by injection Hstep as <-].
    destruct (Version.isVersionCompatible _ _); [|by injection Hstep as <-].
    injection Hstep as <-.
    destruct (consistent_revalidate s (cacheKeyOf ctx) (etag cached) HC) as [H1 H2].
    split; [|done]. simpl. by apply map_Forall_delete.
  - unfold afterLoader in Hstep.
    destruct (tasks s !! t) as [[| | | k v F| |]|] eqn:Ht; try done;
      pose proof (Htasks _ _ Ht) as Hcur; simpl in Hcur.
    + destruct o; injection Hstep as <-; (split; [|done]); simpl.
      * by apply map_Forall_insert_2.
      * by apply map_Forall_delete.
    + destruct o; [case_bool_decide|]; injection Hstep as <-; (split; [|done]); simpl;
        by apply map_Forall_insert_2.
  - unfold afterCacheRouteData in Hstep.
    destruct (tasks s !! t) as [[| |k v d e| |k v d e|]|] eqn:Ht; try done;
      pose proof (Htasks _ _ Ht) as [Hv He]; injection Hstep as <-; split; simpl.
    + by apply map_Forall_delete.
    + apply Forall_app. split; [done|]. constructor; [|constructor].
      split; simpl; by subst.
    + by apply map_Forall_insert_2.
    + apply Forall_app. split; [done|]. constructor; [|constructor].
      split; simpl; by subst.
  - unfold revalidationFinally in Hstep.
    destruct (tasks s !! t) as [[| | | | |k]|] eqn:Ht; try done.
    injection Hstep as <-. split; [|done]. simpl. by apply map_Forall_delete.
  - by injection Hstep as <-.
  - destruct (0 <=? dt); [|done]. by injection Hstep as <-.
  - by injection Hstep as <-.
  - by injection Hstep as <-.
  - by injection Hstep as <-.
  - by injection Hstep as <-.
Qed.

Lemma reachable_consistent s : reachable s -> consistent s.
Proof.
  induction 1 as [|s e s' Hr IH Hstep]; [|by eapply consistent_step].
  split; simpl; [apply map_Forall_empty | constructor].
Qed.

(** *** One reply for a render *)

Lemma repliedOnce_keep s s' :
  repliedOnce s -> replies s' = replies s ->
  (nextTask s <= nextTask s')%nat ->
  (forall t, (t < nextTask s)%nat -> tasks s !! t = None -> tasks s' !! t = None) ->
  repliedOnce s'.
Proof.
  intros [Hnd Hgone] Hrep Hnext Htasks. unfold repliedOnce. rewrite Hrep.
  split; [done|]. intros t Hin. destruct (Hgone t Hin) as [Hnone Hlt].
  split; [by apply Htasks | lia].
Qed.

Lemma repliedOnce_reply (s1 : State Data) t r old :
  repliedOnce s1 -> tasks s1 !! t = Some old -> (t < nextTask s1)%nat ->
  repliedOnce (reply t r s1).
Proof.
  intros [Hnd Hgone] Ht Hlt. split; simpl.
  - rewrite fmap_app. simpl. apply NoDup_app. split; [done|]. split.
    + intros x Hx Hx'. apply list_elem_of_singleton in Hx' as ->.
      destruct (Hgone t Hx) as [Hnone _]. congruence.
    + apply NoDup_singleton.
  - intros t'. rewrite fmap_app. simpl. intros [Hin|Hin]%elem_of_app.
    + destruct (Hgone t' Hin) as [Hnone Hlt']. split; [|done].
      destruct (decide (t' = t)) as [->|Hne]; [by rewrite lookup_delete_eq|].
      by rewrite lookup_delete_ne.
    + apply list_elem_of_singleton in Hin as ->. split; [|done].
      by rewrite lookup_delete_eq.
Qed.

Lemma repliedOnce_step s e s' :
  ticketed s -> repliedOnce s -> step e s = Some s' -> repliedOnce s'.
Proof.
  intros HT HR Hstep. pose proof HT as [_ Hlt].
  pose proof (SwFacts.ticketedOn_fresh _ _ _ HT) as Hfresh.
  destruct e; simpl in Hstep.
  - injection Hstep as <-. eapply repliedOnce_keep; [exact HR | done | simpl; lia |].
    intros t Ht Hnone. simpl. by rewrite lookup_insert_ne by lia.
  - unfold afterGetCachedRouteData in Hstep.
    destruct (tasks s !! t) as [[ctx| | | | |]|] eqn:Ht; try done.
    assert (Hmiss : repliedOnce (fetchAndCache t (cacheKeyOf ctx) current s)).
    { eapply repliedOnce_keep; [exact HR | done | simpl; lia |].
      intros t' Ht' Hnone. simpl. rewrite lookup_insert_ne; [done|]. congruence. }
    destruct (getCachedRouteData _ _) as [cached|]; [|by injection Hstep as <-].
    destruct (Version.isVersionCompatible _ _); [|by injection Hstep as <-].
    injection Hstep as <-.
    assert (Hlt_t : (t < nextTask s)%nat) by (apply Hlt; by rewrite Ht).
    unfold revalidateInBackground.
    destruct (pendingRevalidations s !! cacheKeyOf ctx).
    { by eapply repliedOnce_reply. }
    destruct (onLine s);
      (eapply repliedOnce_reply;
       [eapply repliedOnce_keep; [exact HR | done | simpl; lia |];
        intros t' Ht' Hnone; simpl; by rewrite lookup_insert_ne by lia
       | simpl; rewrite lookup_insert_ne by lia; exact Ht
       | simpl; lia]).
  - unfold afterLoader in Hstep.
    destruct (tasks s !! t) as [[| | | k v F| |]|] eqn:Ht; try done.
    + destruct o; injection Hstep as <-.
      * eapply repliedOnce_keep; [exact HR | done | simpl; lia |].
        intros t' Ht' Hnone. simpl. rewrite lookup_insert_ne; [done|]. congruence.
      * eapply repliedOnce_reply; [exact HR | exact Ht |]. apply Hlt. by rewrite Ht.
    + destruct o; [case_bool_decide|]; injection Hstep as <-;
        (eapply repliedOnce_keep; [exact HR | done | simpl; lia |];
         intros t' Ht' Hnone; simpl; rewrite lookup_insert_ne; [done|]; congruence).
  - unfold afterCacheRouteData in Hstep.
    destruct (tasks s !! t) as [[| |k v d e| |k v d e|]|] eqn:Ht; try done;
      injection Hstep as <-.
    + eapply repliedOnce_reply; [|simpl; exact Ht | simpl; apply Hlt; by rewrite Ht].
      eapply repliedOnce_keep; [exact HR | done | simpl; lia | done].
    + eapply repliedOnce_keep; [exact HR | done | simpl; lia |].
      intros t' Ht' Hnone. simpl. rewrite lookup_insert_ne; [done|]. congruence.
  - unfold revalidationFinally in Hstep.
    destruct (tasks s !! t) as [[| | | | |k]|] eqn:Ht; try done.
    injection Hstep as <-. eapply repliedOnce_keep; [exact HR | done | simpl; lia |].
    intros t' Ht' Hnone. simpl. destruct (decide (t' = t)) as [->|Hne].
    + by rewrite lookup_delete_eq.
    + by rewrite lookup_delete_ne.
  - injection Hstep as <-. by eapply repliedOnce_keep.
  - destruct (0 <=? dt); [|done]. injection Hstep as <-. by eapply repliedOnce_keep.
  - injection Hstep as <-. by eapply repliedOnce_keep.
  - injection Hstep as <-. by eapply repliedOnce_keep.
  - injection Hstep as <-. by eapply repliedOnce_keep.
  - injection Hstep as <-. by eapply repliedOnce_keep.
Qed.

Lemma reachable_repliedOnce s : reachable s -> repliedOnce s.
Proof.
  induction 1 as [|s e s' Hr IH Hstep].
  - split; simpl; [constructor|]. intros t Hin. by apply elem_of_nil in Hin.
  - eapply repliedOnce_step; [|exact IH | exact Hstep].
    by apply (SwFacts.reachable_ticketed stringify renderFn injected digest).
Qed.

(** *** Theorems *)

(** X13.  No ticket is orphaned: in every reachable state the ticket of a key
    belongs to a revalidation body of that key, and that body can take
    its next step, so the ticket can still be released. *)
Theorem tickets_have_bodies s cacheKey t :
  reachable s ->
  pendingRevalidations s !! cacheKey = Some t ->
  revalidating s t cacheKey
  /\ exists e s', target e = Some t /\ step e s = Some s'.
Proof.
  intros Hr Hp. pose proof (reachable_owned s Hr cacheKey t Hp) as Hrev.
  split; [done|]. unfold revalidating in Hrev.
  destruct (tasks s !! t) as [[| | |k v F|k v d e|k]|] eqn:Ht; simpl in Hrev; try done.
  - exists (LoaderSettled t (Failed (LoadTimeout 30000))). eexists. split; [done|].
    simpl. unfold afterLoader. by rewrite Ht.
  - exists (CacheWritten t). eexists. split; [done|].
    simpl. unfold afterCacheRouteData. by rewrite Ht.
  - exists (Finally t). eexists. split; [done|].
    simpl. unfold revalidationFinally. by rewrite Ht.
Qed.

(** X14.  Every row the strategy has written, on a cold miss or in a refresh,
    carries the running version and the fingerprint of the data it holds,
    and that fingerprint is not empty. *)
Theorem strategy_writes_current_rows s t row :
  reachable s ->
  (t, row) ∈ cacheWrites s ->
  version row = current
  /\ etag row = Some (fingerprint (data row))
  /\ fingerprint (data row) <> EmptyString.
Proof.
  intros Hr Hin. destruct (reachable_consistent s Hr) as [_ Hwrites].
  rewrite Forall_forall in Hwrites. destruct (Hwrites _ Hin) as [Hv He].
  split; [done|]. split; [done|]. apply FingerprintFacts.generateETag_nonempty.
Qed.

(** X15.  A render settles at most once: no identifier occurs twice among the
    replies, and a render that has replied is gone. *)
Theorem one_reply_per_render s :
  reachable s ->
  NoDup (replies s).*1
  /\ forall t, t ∈ (replies s).*1 -> tasks s !! t = None.
Proof.
  intros Hr. destruct (reachable_repliedOnce s Hr) as [Hnd Hgone].
  split; [done|]. intros t Hin. by destruct (Hgone t Hin).
Qed.

(** X16.  A failure of the load operation in a background refresh is
    contained: the step changes neither the store, the replies, the
    notifications nor the tickets; the [finally] callback then releases
    the ticket; and whatever happens afterwards the refresh never writes
    and never notifies. *)
Theorem refresh_failure_is_contained s t cacheKey appVersion cachedEtag err es s' :
  reachable s ->
  tasks s !! t = Some (RevalAwaitLoader cacheKey appVersion cachedEtag) ->
  run (LoaderSettled t (Failed err) :: es) s = Some s' ->
  (exists s1 s2,
     step (LoaderSettled t (Failed err)) s = Some s1
     /\ routes s1 = routes s /\ replies s1 = replies s
     /\ notifications s1 = notifications s /\ cacheWrites s1 = cacheWrites s
     /\ pendingRevalidations s1 = pendingRevalidations s
     /\ step (Finally t) s1 = Some s2
     /\ pendingRevalidations s2 !! cacheKey = None
     /\ routes s2 = routes s /\ replies s2 = replies s)
  /\ writesBy t s' = [] /\ notificationsBy t s' = [].
Proof.
  intros Hr Ht Hrun.
  destruct (SwFacts.reachable_ticketed stringify renderFn injected digest s Hr) as [_ Hlt].
  assert (Hin : (t < nextTask s)%nat) by (apply Hlt; by rewrite Ht).
  destruct (SwFacts.reachable_unspent stringify renderFn injected digest s Hr) as [_ Hlive].
  destruct (Hlive t _ Ht ltac:(done)) as [Hw0 Hn0].
  simpl in Hrun. unfold afterLoader in Hrun. rewrite Ht in Hrun.
  set (s1 := setTasks (<[t := RevalSettled cacheKey]> (tasks s)) s) in *.
  assert (Ht1 : tasks s1 !! t = Some (RevalSettled cacheKey))
    by (simpl; by rewrite lookup_insert_eq).
  split.
  - exists s1. eexists. simpl. unfold afterLoader. rewrite Ht.
    split; [done|]. repeat (split; [done|]).
    unfold revalidationFinally. rewrite Ht1. split; [done|]. simpl.
    by rewrite lookup_delete_eq.
  - destruct (SwFacts.run_finished stringify renderFn injected digest es s1 s' t Hrun)
      as (Hw & Hn & _); [simpl; lia | right; eauto |].
    split; [by rewrite Hw | by rewrite Hn].
Qed.

(** X17.  A failure of the load operation on a cold miss reaches the caller:
    the render settles with that error at once, nothing has been stored,
    and nothing is stored in its name afterwards. *)
Theorem cold_miss_failure_propagates s t cacheKey appVersion err es s' :
  reachable s ->
  tasks s !! t = Some (FetchAwaitLoader cacheKey appVersion) ->
  run (LoaderSettled t (Failed err) :: es) s = Some s' ->
  (exists s1,
     step (LoaderSettled t (Failed err)) s = Some s1
     /\ replies s1 = replies s ++ [(t, Threw err)]
     /\ routes s1 = routes s
     /\ tasks s1 !! t = None)
  /\ writesBy t s' = [] /\ notificationsBy t s' = [].
Proof.
  intros Hr Ht Hrun.
  destruct (SwFacts.reachable_ticketed stringify renderFn injected digest s Hr) as [_ Hlt].
  assert (Hin : (t < nextTask s)%nat) by (apply Hlt; by rewrite Ht).
  destruct (SwFacts.reachable_unspent stringify renderFn injected digest s Hr) as [_ Hlive].
  destruct (Hlive t _ Ht ltac:(done)) as [Hw0 Hn0].
  simpl in Hrun. unfold afterLoader in Hrun. rewrite Ht in Hrun.
  assert (Ht1 : tasks (reply t (Threw err) s) !! t = None)
    by (simpl; by rewrite lookup_delete_eq).
  split.
  - eexists. simpl. unfold afterLoader. rewrite Ht. by repeat split.
  - destruct (SwFacts.run_finished stringify renderFn injected digest es _ s' t Hrun)
      as (Hw & Hn & _); [simpl; lia | by left |].
    split; [by rewrite Hw | by rewrite Hn].
Qed.

Lemma hit_replies s t ctx cached :
  tasks s !! t = Some (RenderAwaitGet ctx) ->
  getCachedRouteData (cacheKeyOf ctx) (routes s) = Some cached ->
  version cached = current ->
  exists s',
    step (CacheRead t) s = Some s'
    /\ replies s' = replies s ++
         [(t, Responded {| status := 200; responseHeaders := hitHeaders cached;
                           body := renderFn (data cached) |})].
Proof.
  intros Ht Hget Hv.
  rewrite (SwFacts.current_version_is_a_hit stringify renderFn injected digest
             s t ctx cached Ht Hget Hv).
  eexists. split; [done|]. unfold revalidateInBackground.
  destruct (pendingRevalidations s !! cacheKeyOf ctx) eqn:Hp; simpl; [done|].
  by destruct (onLine s).
Qed.

(** A HIT responds in the step that reads the row: the reply carries the
    page rendered from the row, and the store is not touched.  The
    loader is entered only when the worker is online and no ticket is
    held for the key; with a ticket held, or offline, no loader runs. *)
Lemma hit_responds_without_waiting s t ctx cached :
  tasks s !! t = Some (RenderAwaitGet ctx) ->
  getCachedRouteData (cacheKeyOf ctx) (routes s) = Some cached ->
  version cached = current ->
  exists s',
    step (CacheRead t) s = Some s'
    /\ replies s' = replies s ++
         [(t, Responded {| status := 200; responseHeaders := hitHeaders cached;
                           body := renderFn (data cached) |})]
    /\ routes s' = routes s
    /\ cacheWrites s' = cacheWrites s
    /\ loaderRuns s' =
         (if bool_decide (pendingRevalidations s !! cacheKeyOf ctx = None)
             && onLine s
          then loaderRuns s ++ [(nextTask s, cacheKeyOf ctx)]
          else loaderRuns s).
Proof.
  intros Ht Hget Hv.
  rewrite (SwFacts.current_version_is_a_hit stringify renderFn injected digest
             s t ctx cached Ht Hget Hv).
  eexists. split; [done|]. unfold revalidateInBackground.
  destruct (pendingRevalidations s !! cacheKeyOf ctx) eqn:Hp; simpl; [done|].
  by destruct (onLine s).
Qed.

(** X18.  The row stored by a cold miss serves the next render of the same
    request: the miss replies with the page of the loaded data; as long
    as the row of the key is the one it stored, a render of that request
    is a HIT with the same page, the running version and the fingerprint
    the miss replied with. *)
Theorem miss_then_hit_round_trip s t ctx appVersion data etag :
  reachable s ->
  tasks s !! t = Some (FetchAwaitPut (cacheKeyOf ctx) appVersion data etag) ->
  exists s1,
    step (CacheWritten t) s = Some s1
    /\ replies s1 = replies s ++
         [(t, Responded {| status := 200;
                           responseHeaders := missHeaders appVersion etag;
                           body := renderFn data |})]
    /\ forall s2 t2,
         getCachedRouteData (cacheKeyOf ctx) (routes s2)
         = getCachedRouteData (cacheKeyOf ctx) (routes s1) ->
         tasks s2 !! t2 = Some (RenderAwaitGet ctx) ->
         exists s3,
           step (CacheRead t2) s2 = Some s3
           /\ replies s3 = replies s2 ++
                [(t2, Responded
                        {| status := 200;
                           responseHeaders :=
                             [("content-type", "text/html; charset=utf-8");
                              ("x-cache", "HIT");
                              ("x-cache-version", appVersion);
                              ("etag", etag)];
                           body := renderFn data |})].
Proof.
  intros Hr Ht. destruct (reachable_consistent s Hr) as [Htasks _].
  destruct (Htasks _ _ Ht) as [Hv He].
  simpl. unfold afterCacheRouteData. rewrite Ht.
  eexists. split; [done|]. split; [done|].
  intros s2 t2 Hrow Ht2. simpl in Hrow.
  unfold getCachedRouteData at 2, cacheRouteData in Hrow.
  rewrite lookup_insert_eq in Hrow.
  destruct (hit_replies s2 t2 ctx _ Ht2 Hrow Hv) as (s3 & Hs3 & Hrep).
  exists s3. split; [exact Hs3|]. rewrite Hrep. unfold hitHeaders. simpl.
  rewrite bool_decide_eq_false_2; [done|].
  rewrite He. apply FingerprintFacts.generateETag_nonempty.
Qed.

(** X11.  Purging the rows of another version leaves the rows the read path
    accepts alone: a render that was a HIT is the same HIT after the
    purge. *)
Theorem purge_of_another_version_keeps_hits s t ctx cached v :
  tasks s !! t = Some (RenderAwaitGet ctx) ->
  getCachedRouteData (cacheKeyOf ctx) (routes s) = Some cached ->
  version cached = current ->
  v <> current ->
  exists s1 s2,
    step (ApiClearCacheByVersion v) s = Some s1
    /\ step (CacheRead t) s1 = Some s2
    /\ replies s2 = replies s ++
         [(t, Responded {| status := 200; responseHeaders := hitHeaders cached;
                           body := renderFn (data cached) |})].
Proof.
  intros Ht Hget Hv Hne. eexists. simpl.
  set (s1 := setRoutes (clearCacheByVersion v (routes s)) s).
  assert (Hget1 : getCachedRouteData (cacheKeyOf ctx) (routes s1) = Some cached).
  { simpl. unfold getCachedRouteData in *.
    rewrite CacheFacts.clearCacheByVersion_lookup, Hget.
    destruct (decide (version cached = v)); [congruence | done]. }
  destruct (hit_replies s1 t ctx cached Ht Hget1 Hv) as (s2 & Hs2 & Hrep).
  exists s2. split; [done|]. split; [exact Hs2 | exact Hrep].
Qed.

(** X12.  After the rows of the running version have been purged, and after a
    full purge, every render is a MISS: it enters the loader. *)
Theorem purge_of_running_version_forces_miss s purge s1 t ctx :
  purge = ApiClearCacheByVersion current \/ purge = ApiClearAllCache ->
  step purge s = Some s1 ->
  tasks s !! t = Some (RenderAwaitGet ctx) ->
  step (CacheRead t) s1 = Some (fetchAndCache t (cacheKeyOf ctx) current s1).
Proof.
  intros Hpurge Hstep Ht.
  assert (Ht1 : tasks s1 !! t = Some (RenderAwaitGet ctx))
    by (destruct Hpurge as [-> | ->]; simpl in Hstep; by injection Hstep as <-).
  assert (Hrow : forall row,
            getCachedRouteData (cacheKeyOf ctx) (routes s1) = Some row ->
            version row <> current).
  { intros row. destruct Hpurge as [-> | ->]; simpl in Hstep; injection Hstep as <-;
      simpl; unfold getCachedRouteData.
    - rewrite CacheFacts.clearCacheByVersion_lookup.
      destruct (routes s !! cacheKeyOf ctx) as [r|]; [|done].
      destruct (decide (version r = current)); [done|]. by intros [= <-].
    - unfold clearAllCache. by rewrite lookup_empty. }
  simpl. unfold afterGetCachedRouteData. rewrite Ht1.
  destruct (getCachedRouteData (cacheKeyOf ctx) (routes s1)) as [row|] eqn:Hget; [|done].
  unfold Version.isVersionCompatible.
  by rewrite bool_decide_eq_false_2 by (by apply Hrow).
Qed.

End Facts.

Section Fallback.
Context {Data : Type}.
Variable stringify : Data -> string.
Variable renderFn : Data -> string.
Variable injected : option string.

Local Abbreviation step := (step stringify renderFn injected None).
Local Abbreviation run := (run stringify renderFn injected None).
Local Abbreviation reachable := (reachable stringify renderFn injected None).

(** X10.  Without [crypto.subtle] the fingerprint sees the first 1000
    characters and the length of the payload only: a refresh whose
    fresh payload differs from the cached one beyond that prefix, at the
    same length, is dropped.  It never writes and never notifies, and
    the row under the key stays as it was at that step. *)
Theorem fallback_blind_spot_suppresses_refresh
    (s : State Data) t cacheKey appVersion cachedData freshData es s' :
  reachable s ->
  tasks s !! t
  = Some (RevalAwaitLoader cacheKey appVersion
            (Some (Fingerprint.generateETag None (stringify cachedData)))) ->
  take 1000 (list_ascii_of_string (stringify cachedData))
  = take 1000 (list_ascii_of_string (stringify freshData)) ->
  String.length (stringify cachedData) = String.length (stringify freshData) ->
  run (LoaderSettled t (Loaded freshData) :: es) s = Some s' ->
  (exists s1, step (LoaderSettled t (Loaded freshData)) s = Some s1
              /\ routes s1 = routes s
              /\ tasks s1 !! t = Some (RevalSettled cacheKey))
  /\ writesBy t s' = [] /\ notificationsBy t s' = [].
Proof.
  intros Hr Ht Hpre Hlen Hrun.
  destruct (SwFacts.reachable_ticketed stringify renderFn injected None s Hr) as [_ Hlt].
  assert (Hin : (t < nextTask s)%nat) by (apply Hlt; by rewrite Ht).
  destruct (SwFacts.reachable_unspent stringify renderFn injected None s Hr) as [_ Hlive].
  destruct (Hlive t _ Ht ltac:(done)) as [Hw0 Hn0].
  destruct (SwFacts.afterLoad_revalidation stringify None
              s t cacheKey appVersion _ freshData Ht)
    as (s1 & Hs1 & Hroutes & Hw1 & Hn1 & Hnext & Ht1).
  assert (Hsame : Fingerprint.generateETag None (stringify freshData)
                  = Fingerprint.generateETag None (stringify cachedData))
    by (symmetry; by apply EtagFacts.fallbackETag_blind_spot).
  rewrite bool_decide_eq_false_2 in Ht1 by (rewrite Hsame; by intros []).
  split; [by exists s1|].
  change (run (LoaderSettled t (Loaded freshData) :: es) s)
    with (match step (LoaderSettled t (Loaded freshData)) s with
          | Some s1 => run es s1 | None => None end) in Hrun.
  change (step (LoaderSettled t (Loaded freshData)) s)
    with (afterLoader stringify None t (Loaded freshData) s) in Hrun.
  rewrite Hs1 in Hrun.
  destruct (SwFacts.run_finished stringify renderFn injected None es s1 s' t Hrun)
    as (Hw & Hn & _); [lia | right; eauto |].
  split.
  - rewrite Hw. unfold writesBy in *. by rewrite Hw1.
  - rewrite Hn. unfold notificationsBy in *. by rewrite Hn1.
Qed.

End Fallback.

Import Scenario Samples.

Local Abbreviation swStep := (step stringify page None None).
Local Abbreviation swReachable := (reachable stringify page None None).

Lemma coldState_reachable : swReachable coldState.
Proof.
  apply (SwFacts.worker_reachable_run _ _ _ _ coldEvents init);
    [apply reachable_init | vm_compute; reflexivity].
Qed.

Lemma loadedState_reachable : swReachable loadedState.
Proof.
  apply (SwFacts.worker_reachable_run _ _ _ _
           (coldEvents ++ [LoaderSettled 0 (Loaded "[1]")]) init);
    [apply reachable_init | vm_compute; reflexivity].
Qed.

Lemma refreshedState_reachable : swReachable refreshedState.
Proof.
  apply (SwFacts.worker_reachable_run _ _ _ _
           (LoaderSettled 1 (Loaded "[1,2]") :: refreshTail) hitState);
    [apply SwFacts.hitState_reachable | vm_compute; reflexivity].
Qed.

Lemma longState_reachable : swReachable longState.
Proof.
  apply (SwFacts.worker_reachable_run _ _ _ _ longEvents init);
    [apply reachable_init | vm_compute; reflexivity].
Qed.

(** The HIT of [hitState] left ticket 1 for [/posts]: body 1 is a
    revalidation of [/posts]. *)
Lemma tickets_have_bodies_witness :
  pendingRevalidations hitState !! "/posts" = Some 1%nat
  /\ revalidating hitState 1 "/posts".
Proof.
  assert (Hp : pendingRevalidations hitState !! "/posts" = Some 1%nat)
    by (vm_compute; reflexivity).
  split; [exact Hp|].
  exact (proj1 (tickets_have_bodies stringify page None None hitState "/posts" 1
                  SwFacts.hitState_reachable Hp)).
Defined.

(** The refresh of [refreshedState] wrote one row. *)
Lemma strategy_writes_current_rows_witness :
  exists row,
    (1%nat, row) ∈ cacheWrites refreshedState
    /\ version row = "1.0.0"
    /\ etag row = Some (Fingerprint.generateETag None "[1,2]").
Proof.
  assert (Hw : exists row, cacheWrites refreshedState = [(1%nat, row)]
                           /\ data row = "[1,2]")
    by (eexists; split; vm_compute; reflexivity).
  destruct Hw as (row & Hw & Hd). exists row.
  assert (Hin : (1%nat, row) ∈ cacheWrites refreshedState)
    by (rewrite Hw; constructor).
  split; [exact Hin|].
  destruct (strategy_writes_current_rows stringify page None None
              refreshedState 1 row refreshedState_reachable Hin) as (Hv & He & _).
  split; [exact Hv|]. rewrite He. unfold fingerprintOf, stringify. by rewrite Hd.
Defined.

Lemma one_reply_per_render_witness :
  NoDup (replies hitState).*1 /\ tasks hitState !! 0%nat = None.
Proof.
  destruct (one_reply_per_render stringify page None None hitState
              SwFacts.hitState_reachable) as [Hnd Hgone].
  split; [exact Hnd|]. apply Hgone. vm_compute. constructor.
Defined.

(** The load operation of revalidation 1 of [hitState] fails. *)
Lemma refresh_failure_is_contained_witness :
  tasks hitState !! 1%nat = Some (RevalAwaitLoader "/posts" "1.0.0" (Some staleTag))
  /\ exists s',
       swRun [LoaderSettled 1 (Failed (LoadTimeout 30000)); Finally 1] hitState
       = Some s'
       /\ writesBy 1 s' = [] /\ notificationsBy 1 s' = [].
Proof.
  assert (Ht : tasks hitState !! 1%nat
               = Some (RevalAwaitLoader "/posts" "1.0.0" (Some staleTag)))
    by (vm_compute; reflexivity).
  split; [exact Ht|]. eexists. split; [vm_compute; reflexivity|].
  eapply (refresh_failure_is_contained stringify page None None hitState 1
            "/posts" "1.0.0" (Some staleTag) (LoadTimeout 30000) [Finally 1]);
    [apply SwFacts.hitState_reachable | exact Ht | vm_compute; reflexivity].
Defined.

(** The load operation of the cold render of [coldState] fails. *)
Lemma cold_miss_failure_propagates_witness :
  tasks coldState !! 0%nat = Some (FetchAwaitLoader "/posts" "1.0.0")
  /\ exists s1,
       swStep (LoaderSettled 0 (Failed (LoadTimeout 30000))) coldState = Some s1
       /\ replies s1 = [(0%nat, Threw (LoadTimeout 30000))]
       /\ routes s1 = routes coldState.
Proof.
  assert (Ht : tasks coldState !! 0%nat = Some (FetchAwaitLoader "/posts" "1.0.0"))
    by (vm_compute; reflexivity).
  split; [exact Ht|].
  destruct (cold_miss_failure_propagates stringify page None None coldState 0
              "/posts" "1.0.0" (LoadTimeout 30000) [] _
              coldState_reachable Ht ltac:(vm_compute; reflexivity))
    as [(s1 & Hs1 & Hrep & Hroutes & _) _].
  exists s1. split; [exact Hs1|]. split; [exact Hrep | exact Hroutes].
Defined.

(** The cold render of [loadedState] is about to complete its write. *)
Lemma miss_then_hit_round_trip_witness :
  tasks loadedState !! 0%nat
  = Some (FetchAwaitPut "/posts" "1.0.0" "[1]" (Fingerprint.generateETag None "[1]"))
  /\ exists s1,
       swStep (CacheWritten 0) loadedState = Some s1
       /\ replies s1 =
            [(0%nat, Responded
                       {| status := 200;
                          responseHeaders :=
                            missHeaders "1.0.0" (Fingerprint.generateETag None "[1]");
                          body := "<p>[1]</p>" |})].
Proof.
  assert (Ht : tasks loadedState !! 0%nat
               = Some (FetchAwaitPut (cacheKeyOf posts) "1.0.0" "[1]"
                         (Fingerprint.generateETag None "[1]")))
    by (vm_compute; reflexivity).
  split; [exact Ht|].
  destruct (miss_then_hit_round_trip stringify page None None loadedState 0 posts
              "1.0.0" "[1]" _ loadedState_reachable Ht) as (s1 & Hs1 & Hrep & _).
  exists s1. split; [exact Hs1 | exact Hrep].
Defined.

(** Purging version 0.9.0 while 1.0.0 runs keeps the HIT of
    [untaggedState]. *)
Lemma purge_of_another_version_keeps_hits_witness :
  "0.9.0" <> Version.getAppVersion None
  /\ exists s1 s2,
       swStep (ApiClearCacheByVersion "0.9.0") untaggedState = Some s1
       /\ swStep (CacheRead 0) s1 = Some s2
       /\ replies s2 =
            [(0%nat, Responded {| status := 200;
                                  responseHeaders := hitHeaders untaggedRow;
                                  body := "<p>[1]</p>" |})].
Proof.
  assert (Hne : "0.9.0" <> Version.getAppVersion None) by (intros [= ?]).
  split; [exact Hne|].
  apply (purge_of_another_version_keeps_hits stringify page None None
           untaggedState 0 posts untaggedRow "0.9.0");
    [vm_compute; reflexivity | vm_compute; reflexivity | reflexivity | exact Hne].
Defined.

(** After a full purge the render of [untaggedState] enters the
    loader. *)
Lemma purge_of_running_version_forces_miss_witness :
  exists s1,
    swStep ApiClearAllCache untaggedState = Some s1
    /\ swStep (CacheRead 0) s1 = Some (fetchAndCache 0 "/posts" "1.0.0" s1).
Proof.
  eexists. split; [vm_compute; reflexivity|].
  apply (purge_of_running_version_forces_miss stringify page None None
           untaggedState ApiClearAllCache _ 0 posts);
    [by right | vm_compute; reflexivity | vm_compute; reflexivity].
Defined.

(** Revalidation 2 of [longState] was started with the fingerprint of
    [longOld]; its load operation resolves with [longNew]. *)
Lemma fallback_blind_spot_suppresses_refresh_witness :
  longOld <> longNew
  /\ exists s',
       swRun [LoaderSettled 2 (Loaded longNew); Finally 2] longState = Some s'
       /\ writesBy 2 s' = [] /\ notificationsBy 2 s' = [].
Proof.
  split; [intros Heq; by vm_compute in Heq|].
  eexists. split; [vm_compute; reflexivity|].
  eapply (fallback_blind_spot_suppresses_refresh stringify page None longState 2
            "/posts" "1.0.0" longOld longNew [Finally 2]);
    [apply longState_reachable | vm_compute; reflexivity | vm_compute; reflexivity
    | vm_compute; reflexivity | vm_compute; reflexivity].
Defined.

End WorkerFacts.

(** ** The navigation controller: history, results and stale callbacks *)

Module ControllerFacts.
Import NavigationController ControllerViews.

Section Facts.
Variable hrefWithoutHash : string -> option string.
Variable optionsTimeout : option Z.

Local Abbreviation normalizeUrl := (normalizeUrl hrefWithoutHash).
Local Abbreviation navigate := (navigate hrefWithoutHash optionsTimeout).
Local Abbreviation prefetch := (prefetch hrefWithoutHash).
Local Abbreviation cancel := (cancel hrefWithoutHash).
Local Abbreviation timeout := (timeout optionsTimeout).
Local Abbreviation step := (step hrefWithoutHash optionsTimeout).
Local Abbreviation run := (run hrefWithoutHash optionsTimeout).
Local Abbreviation reachable := (reachable hrefWithoutHash optionsTimeout).
Local Abbreviation isPending := (isPending hrefWithoutHash).

(** *** The history window *)

Lemma addToHistory_window url h :
  (length h <= maxHistorySize)%nat ->
  addToHistory url h
  = (if (length h <? maxHistorySize)%nat then h else drop 1 h) ++ [url].
Proof.
  intros Hlen. unfold addToHistory. rewrite length_app. simpl.
  destruct (Nat.ltb_spec maxHistorySize (length h + 1));
    destruct (Nat.ltb_spec (length h) maxHistorySize); try lia; [|done].
  replace (length h + 1 - maxHistorySize)%nat with 1%nat by lia.
  destruct h as [|x h]; [simpl in *; unfold maxHistorySize in *; lia | done].
Qed.

Lemma addToHistory_length url h :
  (length h <= maxHistorySize)%nat ->
  (length (addToHistory url h) <= maxHistorySize)%nat.
Proof.
  intros Hlen. rewrite addToHistory_window by done. rewrite length_app. simpl.
  destruct (Nat.ltb_spec (length h) maxHistorySize); [lia|].
  rewrite length_drop. unfold maxHistorySize in *. lia.
Qed.

Lemma history_step s e s' :
  (length (navigationHistory s) <= maxHistorySize)%nat ->
  step e s = Some s' ->
  (length (navigationHistory s') <= maxHistorySize)%nat.
Proof.
  intros Hlen Hstep. destruct e; simpl in Hstep.
  - injection Hstep as <-. unfold NavigationController.navigate.
    destruct (pending s !! normalizeUrl url); simpl; [done|].
    apply addToHistory_length. by destruct (replace options).
  - injection Hstep as <-. unfold NavigationController.prefetch.
    by destruct (pending s !! normalizeUrl url).
  - injection Hstep as <-. unfold NavigationController.cancel.
    by destruct (activeRequests s !! normalizeUrl url).
  - by injection Hstep as <-.
  - injection Hstep as <-. simpl. lia.
  - unfold fetchSettled in Hstep.
    destruct (requests s !! promise) as [rq|]; [|done].
    destruct (settled s !! promise); [done|].
    destruct (requestKind rq); [|by injection Hstep as <-].
    destruct o as [r|err]; [destruct (requestTimer rq)|]; by injection Hstep as <-.
  - unfold timerFired in Hstep.
    destruct (timers s !! timer) as [[due action]|]; [|done].
    destruct (due <=? clock s); [|done]. injection Hstep as <-.
    destruct action as [u sig|u p]; simpl.
    + case_bool_decide; [done|]. by destruct (activeRequests s !! u).
    + by case_bool_decide.
  - by injection Hstep as <-.
  - destruct (0 <=? dt); [|done]. by injection Hstep as <-.
Qed.

Lemma reachable_history s :
  reachable s -> (length (navigationHistory s) <= maxHistorySize)%nat.
Proof.
  induction 1 as [|s e s' _ IH Hstep]; [simpl; lia|]. by eapply history_step.
Qed.

(** X19.  The history is a window on the last fifty navigations started: it
    never holds more than fifty URLs, so [getStats().totalNavigations]
    never exceeds fifty; a navigation that starts a fetch appends its
    normalised URL and, when the window is full, drops the oldest
    entry. *)
Theorem history_keeps_latest_fifty s url options :
  reachable s ->
  pending s !! normalizeUrl url = None ->
  let h := navigationHistory s in
  (totalNavigations (getStats s) <= 50)%nat
  /\ getHistory (navigate url options s).2
     = (if (length h <? 50)%nat then h else drop 1 h) ++ [normalizeUrl url].
Proof.
  intros Hr Hfree h. pose proof (reachable_history s Hr) as Hlen.
  split; [exact Hlen|]. unfold getHistory, NavigationController.navigate.
  rewrite Hfree. simpl.
  assert (Hh : navigationHistory (if replace options then cancelAll s else s) = h)
    by (by destruct (replace options)).
  rewrite Hh. by apply addToHistory_window.
Qed.

(** *** Results *)

Lemma navigationResult_wellFormed o : wellFormed (navigationResult o).
Proof.
  destruct o as [r|e]; simpl; [|by unfold wellFormed; simpl; eauto].
  destruct (responseOk r); unfold wellFormed; simpl; eauto.
Qed.

Lemma prefetchResult_wellFormed o : wellFormed (prefetchResult o).
Proof.
  destruct o as [r|e]; simpl; [|by unfold wellFormed; simpl; eauto].
  destruct (responseOk r); unfold wellFormed; simpl; eauto.
Qed.

Lemma settled_step s e s' :
  map_Forall (fun _ r => wellFormed r) (settled s) ->
  step e s = Some s' ->
  map_Forall (fun _ r => wellFormed r) (settled s').
Proof.
  intros Hwf Hstep. destruct e; simpl in Hstep.
  - injection Hstep as <-. unfold NavigationController.navigate.
    destruct (pending s !! normalizeUrl url); simpl; [done|].
    by destruct (replace options).
  - injection Hstep as <-. unfold NavigationController.prefetch.
    by destruct (pending s !! normalizeUrl url).
  - injection Hstep as <-. unfold NavigationController.cancel.
    by destruct (activeRequests s !! normalizeUrl url).
  - by injection Hstep as <-.
  - by injection Hstep as <-.
  - unfold fetchSettled in Hstep.
    destruct (requests s !! promise) as [rq|]; [|done].
    destruct (settled s !! promise); [done|].
    destruct (requestKind rq).
    + destruct o as [r|err]; [destruct (requestTimer rq)|]; injection Hstep as <-;
        simpl; apply map_Forall_insert_2; auto;
        apply (navigationResult_wellFormed (Fulfilled r))
        || apply (navigationResult_wellFormed (RejectedWith err)).
    + injection Hstep as <-. simpl. apply map_Forall_insert_2; [|done].
      apply prefetchResult_wellFormed.
  - unfold timerFired in Hstep.
    destruct (timers s !! timer) as [[due action]|]; [|done].
    destruct (due <=? clock s); [|done]. injection Hstep as <-.
    destruct action as [u sig|u p]; simpl.
    + case_bool_decide; [done|]. by destruct (activeRequests s !! u).
    + by case_bool_decide.
  - by injection Hstep as <-.
  - destruct (0 <=? dt); [|done]. by injection Hstep as <-.
Qed.

Lemma reachable_settled s :
  reachable s -> map_Forall (fun _ r => wellFormed r) (settled s).
Proof.
  induction 1 as [|s e s' _ IH Hstep]; [apply map_Forall_empty|].
  by eapply settled_step.
Qed.

(** X20.  A promise handed out by [navigate] never rejects and never resolves
    half-way: whatever it has settled with is either a page ([ok] with
    [html] and [fromCache], no error) or a failure (an error, no page);
    and a result taken over from a prefetch reports [fromCache] false. *)
Theorem results_are_page_or_error s p r :
  reachable s ->
  resultOf s p = Some r ->
  (ok r = true /\ is_Some (html r) /\ error r = None /\ is_Some (fromCache r))
  \/ (ok r = false /\ html r = None /\ is_Some (error r) /\ fromCache r = None).
Proof.
  intros Hr Hres. pose proof (reachable_settled s Hr) as Hwf.
  assert (Hin : exists q, settled s !! q = Some r).
  { unfold resultOf in Hres. destruct (adopted s !! p) as [q|]; eauto. }
  destruct Hin as [q Hq]. specialize (Hwf q r Hq). unfold wellFormed in Hwf.
  destruct (ok r); [left | right]; tauto.
Qed.

(** *** The two maps *)

Lemma inSync_cancelAll s : inSync s -> inSync (cancelAll s).
Proof.
  intros [Ha Ht]. split; simpl; [|done].
  intros u c. by rewrite lookup_empty.
Qed.

Lemma inSync_step s e s' :
  registered s -> inSync s -> step e s = Some s' -> inSync s'.
Proof.
  intros HR [Ha Ht] Hstep. destruct e; simpl in Hstep.
  - injection Hstep as <-. unfold NavigationController.navigate.
    destruct (pending s !! normalizeUrl url) as [existing|] eqn:Hpend; simpl.
    + by split.
    + assert (HR1 : registered (if replace options then cancelAll s else s))
        by (destruct (replace options);
            [by apply NavigationFacts.registered_cancelAll | done]).
      assert (HS1 : inSync (if replace options then cancelAll s else s))
        by (destruct (replace options); [by apply inSync_cancelAll | done]).
      set (s1 := if replace options then cancelAll s else s) in *.
      destruct HR1 as (_ & Hq & _). destruct HS1 as [Ha1 Ht1]. split; simpl.
      * intros u c. destruct (decide (u = normalizeUrl url)) as [->|Hne].
        -- rewrite !lookup_insert_eq. intros [= <-].
           eexists _, _. rewrite lookup_insert_eq. by repeat split.
        -- rewrite !lookup_insert_ne by done. intros Hu.
           destruct (Ha1 u c Hu) as (q & rq & Hp & Hrq & Hk & Hs).
           exists q, rq. split; [done|]. split; [|done].
           rewrite lookup_insert_ne; [done|].
           specialize (Hq q (mk_is_Some _ _ Hrq)). lia.
      * intros timer due u p.
        destruct (decide (timer = nextTimer s1)) as [->|Hne].
        -- rewrite lookup_insert_eq. by intros [= _ ?].
        -- rewrite lookup_insert_ne by done. intros Htm.
           destruct (Ht1 _ _ _ _ Htm) as (rq & Hrq & Hk). exists rq.
           split; [|done]. rewrite lookup_insert_ne; [done|].
           specialize (Hq p (mk_is_Some _ _ Hrq)). lia.
  - injection Hstep as <-. unfold NavigationController.prefetch.
    destruct (pending s !! normalizeUrl url) as [existing|] eqn:Hpend; [by split|].
    destruct HR as (_ & Hq & _). split; simpl.
    + intros u c Hu. destruct (Ha u c Hu) as (q & rq & Hp & Hrq & Hk & Hs).
      assert (Hne : u <> normalizeUrl url) by (intros ->; congruence).
      exists q, rq. rewrite lookup_insert_ne by done. split; [done|].
      split; [|done]. rewrite lookup_insert_ne; [done|].
      specialize (Hq q (mk_is_Some _ _ Hrq)). lia.
    + intros timer due u p Htm.
      destruct (Ht _ _ _ _ Htm) as (rq & Hrq & Hk). exists rq.
      split; [|done]. rewrite lookup_insert_ne; [done|].
      specialize (Hq p (mk_is_Some _ _ Hrq)). lia.
  - injection Hstep as <-. unfold NavigationController.cancel.
    destruct (activeRequests s !! normalizeUrl url) as [c0|]; [|by split].
    split; simpl; [|done].
    intros u c. destruct (decide (u = normalizeUrl url)) as [->|Hne].
    + by rewrite lookup_delete_eq.
    + rewrite !lookup_delete_ne by done. apply Ha.
  - injection Hstep as <-. by apply inSync_cancelAll.
  - injection Hstep as <-. by split.
  - unfold fetchSettled in Hstep.
    destruct (requests s !! promise) as [rq|] eqn:Hrq; [|done].
    destruct (settled s !! promise); [done|].
    destruct (requestKind rq) eqn:Hkind.
    + assert (Hgen : forall s1,
                pending s1 = pending s -> activeRequests s1 = activeRequests s ->
                requests s1 = requests s ->
                (forall timer x, timers s1 !! timer = Some x ->
                                 timers s !! timer = Some x) ->
                inSync (settle promise (navigationResult o)
                  (setActiveRequests (delete (requestUrl rq) (activeRequests s1))
                     (setPending (delete (requestUrl rq) (pending s1)) s1)))).
      { intros s1 E1 E2 E3 E4. split; simpl; rewrite ?E1, ?E2, ?E3.
        - intros u c. destruct (decide (u = requestUrl rq)) as [->|Hne].
          + by rewrite lookup_delete_eq.
          + rewrite !lookup_delete_ne by done. apply Ha.
        - intros timer due u p Htm. eapply Ht. by apply E4. }
      destruct o as [r|err]; [destruct (requestTimer rq) as [tm|]|];
        injection Hstep as <-;
        [apply (Hgen (setTimers (delete tm (timers s)) s)); try done;
         simpl; intros timer x Hx; by apply lookup_delete_Some in Hx as [_ Hx]
        | by apply (Hgen s) | by apply (Hgen s)].
    + injection Hstep as <-. split; simpl; [done|].
      intros timer due u p. destruct (decide (timer = nextTimer s)) as [->|Hne].
      * rewrite lookup_insert_eq. intros [= _ _ <-]. by exists rq.
      * rewrite lookup_insert_ne by done. apply Ht.
  - unfold timerFired in Hstep.
    destruct (timers s !! timer) as [[due action]|] eqn:Htimer; [|done].
    destruct (due <=? clock s); [|done]. injection Hstep as <-.
    assert (Ht' : forall tm d u p,
              delete timer (timers s) !! tm = Some (d, EvictPrefetch u p) ->
              exists rq, requests s !! p = Some rq /\ requestKind rq = Prefetch).
    { intros tm d u p Hx. apply lookup_delete_Some in Hx as [_ Hx]. by eapply Ht. }
    destruct action as [u sig|u p]; simpl.
    + case_bool_decide; [by split|].
      destruct (activeRequests s !! u); by split.
    + case_bool_decide as Hp; [|by split]. split; simpl; [|done].
      intros u' c Hu'. destruct (Ha u' c Hu') as (q & rq & Hq & Hrq & Hk & Hs).
      destruct (decide (u' = u)) as [->|Hne].
      * destruct (Ht _ _ _ _ Htimer) as (rq' & Hrq' & Hk'). congruence.
      * exists q, rq. by rewrite lookup_delete_ne.
  - injection Hstep as <-. by split.
  - destruct (0 <=? dt); [|done]. injection Hstep as <-. by split.
Qed.

Lemma reachable_inSync s : reachable s -> inSync s.
Proof.
  induction 1 as [|s e s' Hr IH Hstep].
  - split; simpl.
    + intros u c. by rewrite lookup_empty.
    + intros timer due u p. by rewrite lookup_empty.
  - eapply inSync_step; [|exact IH|exact Hstep].
    by apply (NavigationFacts.reachable_registered hrefWithoutHash optionsTimeout).
Qed.

(** X21.  The two maps stay in step: a URL has a controller in
    [activeRequests] exactly when the entry pending for it was made by
    [navigate], and that controller is the one whose signal the fetch of
    that navigation was given.  So there are never more controllers than
    [getPendingCount()] reports. *)
Theorem active_requests_are_pending_navigations s u c :
  reachable s ->
  (activeRequests s !! u = Some c
   <-> exists q rq, pending s !! u = Some q
                    /\ requests s !! q = Some rq
                    /\ requestKind rq = Navigation
                    /\ requestSignal rq = c)
  /\ (size (activeRequests s) <= getPendingCount s)%nat.
Proof.
  intros Hr. destruct (reachable_inSync s Hr) as [Ha _].
  destruct (NavigationFacts.reachable_registered hrefWithoutHash optionsTimeout s Hr)
    as (Hp & _).
  split; [split|].
  - apply Ha.
  - intros (q & rq & Hq & Hrq & Hk & <-).
    destruct (Hp u q Hq) as (rq' & Hrq' & _ & Hact).
    assert (rq' = rq) as -> by congruence. by apply Hact.
  - unfold getPendingCount. rewrite <- !size_dom.
    apply subseteq_size. intros u' [c' Hc']%elem_of_dom.
    destruct (Ha u' c' Hc') as (q & _ & Hq & _). apply elem_of_dom. eauto.
Qed.

(** X22.  [cancel(url)] reaches the navigation pending for the URL and nothing
    else: when the pending entry was made by [navigate] the signal its
    fetch was given is aborted and the URL is removed from both maps;
    when the entry was made by [prefetch], or there is none, the call
    changes nothing, so a prefetch cannot be cancelled.  Entries of
    other URLs are never touched. *)
Theorem cancel_reaches_pending_navigation_only s url :
  reachable s ->
  let u := normalizeUrl url in
  match pending s !! u with
  | Some q =>
      exists rq, requests s !! q = Some rq
      /\ match requestKind rq with
         | Navigation =>
             requestSignal rq ∈ aborted (cancel url s)
             /\ pending (cancel url s) !! u = None
             /\ activeRequests (cancel url s) !! u = None
         | Prefetch => cancel url s = s
         end
  | None => cancel url s = s
  end
  /\ forall u', u' <> u ->
       pending (cancel url s) !! u' = pending s !! u'
       /\ activeRequests (cancel url s) !! u' = activeRequests s !! u'.
Proof.
  intros Hr u. destruct (reachable_inSync s Hr) as [Ha _].
  destruct (NavigationFacts.reachable_registered hrefWithoutHash optionsTimeout s Hr)
    as (Hp & _).
  split.
  - destruct (pending s !! u) as [q|] eqn:Hq.
    + destruct (Hp u q Hq) as (rq & Hrq & _ & Hact). exists rq. split; [done|].
      destruct (requestKind rq) eqn:Hk.
      * unfold NavigationController.cancel. fold u. rewrite (Hact eq_refl). simpl.
        rewrite !lookup_delete_eq. split; [set_solver | done].
      * unfold NavigationController.cancel. fold u.
        destruct (activeRequests s !! u) as [c|] eqn:Hc; [|done].
        destruct (Ha u c Hc) as (q' & rq' & Hq' & Hrq' & Hk' & _). congruence.
    + unfold NavigationController.cancel. fold u.
      destruct (activeRequests s !! u) as [c|] eqn:Hc; [|done].
      destruct (Ha u c Hc) as (q' & rq' & Hq' & _). congruence.
  - intros u' Hne. unfold NavigationController.cancel. fold u.
    destruct (activeRequests s !! u); [|done]. simpl.
    by rewrite !lookup_delete_ne.
Qed.

(** *** Stale callbacks *)

(** Only fetches that were issued settle. *)
Lemma settled_issued_step s e s' :
  (forall p, is_Some (settled s !! p) -> is_Some (requests s !! p)) ->
  step e s = Some s' ->
  forall p, is_Some (settled s' !! p) -> is_Some (requests s' !! p).
Proof.
  intros Hsub Hstep. destruct e; simpl in Hstep.
  - injection Hstep as <-. unfold NavigationController.navigate.
    destruct (pending s !! normalizeUrl url); simpl; [done|].
    intros p Hp. destruct (decide (p = nextPromise (if replace options
                                                     then cancelAll s else s)))
      as [->|Hne]; [by rewrite lookup_insert_eq|].
    rewrite lookup_insert_ne by done. destruct (replace options); by apply Hsub.
  - injection Hstep as <-. unfold NavigationController.prefetch.
    destruct (pending s !! normalizeUrl url); simpl; [done|].
    intros p Hp. destruct (decide (p = nextPromise s)) as [->|Hne];
      [by rewrite lookup_insert_eq|].
    rewrite lookup_insert_ne by done. by apply Hsub.
  - injection Hstep as <-. unfold NavigationController.cancel.
    by destruct (activeRequests s !! normalizeUrl url).
  - by injection Hstep as <-.
  - by injection Hstep as <-.
  - unfold fetchSettled in Hstep.
    destruct (requests s !! promise) as [rq|] eqn:Hrq; [|done].
    destruct (settled s !! promise); [done|].
    assert (Hgen : forall p x, is_Some (<[promise := x]> (settled s) !! p) ->
                               is_Some (requests s !! p)).
    { intros p x Hp. destruct (decide (p = promise)) as [->|Hne]; [by rewrite Hrq|].
      rewrite lookup_insert_ne in Hp by done. by apply Hsub. }
    destruct (requestKind rq).
    + destruct o as [r|err]; [destruct (requestTimer rq)|]; injection Hstep as <-;
        simpl; intros p; apply Hgen.
    + injection Hstep as <-. simpl. intros p; apply Hgen.
  - unfold timerFired in Hstep.
    destruct (timers s !! timer) as [[due action]|]; [|done].
    destruct (due <=? clock s); [|done]. injection Hstep as <-.
    destruct action as [u sig|u p]; simpl.
    + case_bool_decide; [done|]. by destruct (activeRequests s !! u).
    + by case_bool_decide.
  - by injection Hstep as <-.
  - destruct (0 <=? dt); [|done]. by injection Hstep as <-.
Qed.

Lemma reachable_settled_requested s :
  reachable s -> forall p, is_Some (settled s !! p) -> is_Some (requests s !! p).
Proof.
  induction 1 as [|s e s' _ IH Hstep].
  - intros p [x Hx]. simpl in Hx. by rewrite lookup_empty in Hx.
  - by eapply settled_issued_step.
Qed.

Lemma reachable_settled_issued s p :
  reachable s -> is_Some (settled s !! p) -> (p < nextPromise s)%nat.
Proof.
  intros Hr Hp.
  destruct (NavigationFacts.reachable_registered hrefWithoutHash optionsTimeout s Hr)
    as (_ & Hq & _).
  apply Hq. by apply reachable_settled_requested.
Qed.

(** What a call that starts a fetch leaves behind. *)
Lemma navigate_fresh s url options :
  pending s !! normalizeUrl url = None ->
  let u := normalizeUrl url in
  let s' := (navigate url options s).2 in
  pending s' !! u = Some (nextPromise s)
  /\ activeRequests s' !! u = Some (nextController s)
  /\ requests s'
     = <[nextPromise s :=
           {| requestUrl := u; requestSignal := nextController s;
              requestKind := Navigation; requestTimer := Some (nextTimer s) |}]>
         (requests s)
  /\ settled s' = settled s
  /\ timers s'
     = <[nextTimer s := (clock s + timeout, AbortOnTimeout u (nextController s))]>
         (timers s)
  /\ clock s' = clock s
  /\ nextPromise s' = S (S (nextPromise s))
  /\ nextController s' = S (nextController s)
  /\ nextTimer s' = S (nextTimer s)
  /\ aborted s'
     = aborted s ∪ (if replace options then map_img (activeRequests s) else ∅)
  /\ (forall u' c, u' <> u -> activeRequests s' !! u' = Some c ->
        activeRequests s !! u' = Some c).
Proof.
  intros Hpend u s'. subst u s'. unfold NavigationController.navigate.
  rewrite Hpend. destruct (replace options); simpl; rewrite !lookup_insert_eq;
    repeat (split; [done|]).
  - intros u' c Hne. rewrite lookup_insert_ne by done. by rewrite lookup_empty.
  - split; [by rewrite (right_id_L ∅ (∪))|].
    intros u' c Hne. by rewrite lookup_insert_ne.
Qed.

Lemma fresh_controller s :
  registered s ->
  (nextController s ∉ aborted s)
  /\ (nextController s ∉ (map_img (activeRequests s) : gset nat)).
Proof.
  intros (_ & _ & Ha & Hc & _). split.
  - intros Hin. specialize (Ha _ Hin). lia.
  - intros [u Hu]%elem_of_map_img. specialize (Hc _ _ Hu). lia.
Qed.

(** X23.  The [finally] of a navigation removes the entries of its URL
    whoever owns them.  When a navigation is cancelled and the same URL
    is navigated to again before the cancelled fetch has rejected, that
    rejection removes the entries of the second navigation: its fetch
    is still running and its signal is not aborted, but the URL is no
    longer pending and [cancel] no longer reaches it. *)
Theorem settlement_of_cancelled_navigation_untracks_successor
    s url options1 options2 :
  reachable s ->
  pending s !! normalizeUrl url = None ->
  let first := nextPromise s in
  let second := S (S first) in
  exists s',
    run [Navigate url options1; Cancel url; Navigate url options2;
         FetchSettled first (RejectedWith AbortError)] s = Some s'
    /\ requests s' !! second
       = Some {| requestUrl := normalizeUrl url;
                 requestSignal := S (nextController s);
                 requestKind := Navigation;
                 requestTimer := Some (S (nextTimer s)) |}
    /\ settled s' !! second = None
    /\ (S (nextController s) ∉ aborted s')
    /\ isPending url s' = false
    /\ cancel url s' = s'.
Proof.
  intros Hr Hfree first second.
  pose proof (NavigationFacts.reachable_registered hrefWithoutHash optionsTimeout
                s Hr) as HR.
  assert (Hunsettled : forall p, (first <= p)%nat -> settled s !! p = None).
  { intros p Hp. destruct (settled s !! p) eqn:Hs; [|done].
    pose proof (reachable_settled_issued s p Hr (mk_is_Some _ _ Hs)).
    subst first. lia. }
  destruct (navigate_fresh s url options1 Hfree)
    as (Hp1 & Ha1 & Hrq1 & Hs1 & _ & _ & Hn1 & Hc1 & Ht1 & Hab1 & Hold1).
  set (s1 := (navigate url options1 s).2) in *.
  assert (HR1 : registered s1)
    by (by apply (NavigationFacts.registered_navigate hrefWithoutHash optionsTimeout)).
  set (s2 := cancel url s1).
  assert (Es2 : s2 = setPending (delete (normalizeUrl url) (pending s1))
                       (setActiveRequests (delete (normalizeUrl url) (activeRequests s1))
                          (setAborted (aborted s1 ∪ {[nextController s]}) s1)))
    by (subst s2; unfold NavigationController.cancel; by rewrite Ha1).
  assert (Hfree2 : pending s2 !! normalizeUrl url = None)
    by (rewrite Es2; simpl; by rewrite lookup_delete_eq).
  destruct (navigate_fresh s2 url options2 Hfree2)
    as (Hp3 & Ha3 & Hrq3 & Hs3 & _ & _ & Hn3 & Hc3 & Ht3 & Hab3 & _).
  set (s3 := (navigate url options2 s2).2) in *.
  assert (Hn2 : nextPromise s2 = second) by (rewrite Es2; simpl; by rewrite Hn1).
  assert (Hc2 : nextController s2 = S (nextController s))
    by (rewrite Es2; simpl; by rewrite Hc1).
  assert (Ht2 : nextTimer s2 = S (nextTimer s)) by (rewrite Es2; simpl; by rewrite Ht1).
  assert (Hrq2 : requests s2 = requests s1) by (by rewrite Es2).
  assert (Hset2 : settled s2 = settled s1) by (by rewrite Es2).
  rewrite Hn2, Hc2, Ht2, Hrq2, Hrq1 in Hrq3. rewrite Hset2, Hs1 in Hs3.
  assert (Hfirst : requests s3 !! first
                   = Some {| requestUrl := normalizeUrl url;
                             requestSignal := nextController s;
                             requestKind := Navigation;
                             requestTimer := Some (nextTimer s) |}).
  { rewrite Hrq3, lookup_insert_ne by (subst second; lia).
    by rewrite lookup_insert_eq. }
  set (s4 := settle first (failure AbortError)
               (setActiveRequests (delete (normalizeUrl url) (activeRequests s3))
                  (setPending (delete (normalizeUrl url) (pending s3)) s3))).
  assert (Hstep4 : fetchSettled first (RejectedWith AbortError) s3 = Some s4).
  { unfold fetchSettled. rewrite Hfirst, Hs3, (Hunsettled first) by lia. done. }
  exists s4. split.
  { simpl. fold s1. fold s2. fold s3. by rewrite Hstep4. }
  split; [subst s4; simpl; rewrite Hrq3; by rewrite lookup_insert_eq|].
  split.
  { subst s4; simpl. rewrite lookup_insert_ne by (subst second; lia).
    rewrite Hs3. apply Hunsettled. subst second. lia. }
  assert (Hpend4 : pending s4 !! normalizeUrl url = None)
    by (subst s4; simpl; by rewrite lookup_delete_eq).
  assert (Hact4 : activeRequests s4 !! normalizeUrl url = None)
    by (subst s4; simpl; by rewrite lookup_delete_eq).
  split.
  { subst s4; simpl. rewrite Hab3.
    assert (HR2 : registered s2)
      by (subst s2; eapply (NavigationFacts.registered_step hrefWithoutHash
                              optionsTimeout s1 (Cancel url)); [done|done]).
    destruct (fresh_controller s2 HR2) as [Hf1 Hf2]. rewrite Hc2 in Hf1, Hf2.
    intros [Hin|Hin]%elem_of_union; [done|].
    destruct (replace options2); [done | by apply elem_of_empty in Hin]. }
  split.
  - unfold ControllerViews.isPending. rewrite Hpend4.
    apply bool_decide_eq_false_2. by intros [? ?].
  - unfold NavigationController.cancel. by rewrite Hact4.
Qed.

(** X24.  The timeout of a navigation is cleared only when its fetch
    fulfils.  When [fetch] itself rejects (the event [RejectedWith] read
    as the rejection of [fetch], before any response), the timer stays
    armed, and when it fires it aborts whatever controller
    [activeRequests] then holds for the URL: a second navigation to the
    same URL, started just before, is aborted at once although it has
    not run for the timeout. *)
Theorem timeout_of_failed_navigation_aborts_successor
    s url options1 options2 e :
  reachable s ->
  pending s !! normalizeUrl url = None ->
  0 <= timeout ->
  let first := nextPromise s in
  let second := S (S first) in
  exists s',
    run [Navigate url options1; FetchSettled first (RejectedWith e);
         Tick timeout; Navigate url options2; TimerFired (nextTimer s)] s
    = Some s'
    /\ requests s' !! second
       = Some {| requestUrl := normalizeUrl url;
                 requestSignal := S (nextController s);
                 requestKind := Navigation;
                 requestTimer := Some (S (nextTimer s)) |}
    /\ settled s' !! second = None
    /\ S (nextController s) ∈ aborted s'
    /\ timers s' !! S (nextTimer s)
       = Some (clock s' + timeout,
               AbortOnTimeout (normalizeUrl url) (S (nextController s))).
Proof.
  intros Hr Hfree Hpos first second.
  pose proof (NavigationFacts.reachable_registered hrefWithoutHash optionsTimeout
                s Hr) as HR.
  assert (Hunsettled : forall p, (first <= p)%nat -> settled s !! p = None).
  { intros p Hp. destruct (settled s !! p) eqn:Hs; [|done].
    pose proof (reachable_settled_issued s p Hr (mk_is_Some _ _ Hs)).
    subst first. lia. }
  destruct (navigate_fresh s url options1 Hfree)
    as (Hp1 & Ha1 & Hrq1 & Hs1 & Htm1 & Hck1 & Hn1 & Hc1 & Ht1 & Hab1 & Hold1).
  set (s1 := (navigate url options1 s).2) in *.
  assert (HR1 : registered s1)
    by (by apply (NavigationFacts.registered_navigate hrefWithoutHash optionsTimeout)).
  set (s2 := settle first (failure e)
               (setActiveRequests (delete (normalizeUrl url) (activeRequests s1))
                  (setPending (delete (normalizeUrl url) (pending s1)) s1))).
  assert (Hstep2 : fetchSettled first (RejectedWith e) s1 = Some s2).
  { unfold fetchSettled. rewrite Hrq1, lookup_insert_eq, Hs1, (Hunsettled first) by lia.
    done. }
  set (s3 := setClock (clock s2 + timeout) s2).
  assert (Hfree3 : pending s3 !! normalizeUrl url = None)
    by (subst s3 s2; simpl; by rewrite lookup_delete_eq).
  destruct (navigate_fresh s3 url options2 Hfree3)
    as (Hp4 & Ha4 & Hrq4 & Hs4 & Htm4 & Hck4 & Hn4 & Hc4 & Ht4 & Hab4 & _).
  set (s4 := (navigate url options2 s3).2) in *.
  assert (Hn3 : nextPromise s3 = second) by (subst s3 s2; simpl; by rewrite Hn1).
  assert (Hc3 : nextController s3 = S (nextController s))
    by (subst s3 s2; simpl; by rewrite Hc1).
  assert (Ht3 : nextTimer s3 = S (nextTimer s)) by (subst s3 s2; simpl; by rewrite Ht1).
  assert (Hck3 : clock s3 = clock s + timeout)
    by (subst s3 s2; simpl; by rewrite Hck1).
  assert (Htm3 : timers s3 = timers s1) by (by subst s3 s2).
  assert (Hset3 : settled s3 = <[first := failure e]> (settled s))
    by (subst s3 s2; simpl; by rewrite Hs1).
  assert (Hab3 : aborted s3 = aborted s1) by (by subst s3 s2).
  assert (Hact3 : activeRequests s3 = delete (normalizeUrl url) (activeRequests s1))
    by (by subst s3 s2).
  rewrite Hn3, Hc3, Ht3 in Hrq4. rewrite Hc3 in Ha4.
  rewrite Ht3, Hc3, Hck3, Htm3, Htm1 in Htm4. rewrite Hck3 in Hck4.
  rewrite Hset3 in Hs4.
  assert (Hold : timers s4 !! nextTimer s
                 = Some (clock s + timeout,
                         AbortOnTimeout (normalizeUrl url) (nextController s))).
  { rewrite Htm4, lookup_insert_ne by lia. by rewrite lookup_insert_eq. }
  assert (Hclean : nextController s ∉ aborted s4).
  { rewrite Hab4, Hab3, Hab1, Hact3.
    destruct (fresh_controller s HR) as [Hf1 Hf2].
    assert (Hf3 : nextController s
                  ∉ (map_img (delete (normalizeUrl url) (activeRequests s1)) : gset nat)).
    { intros [u' Hu']%elem_of_map_img.
      apply lookup_delete_Some in Hu' as [Hne Hu'].
      apply Hf2. apply elem_of_map_img. exists u'. by apply Hold1. }
    intros [[Hin|Hin]%elem_of_union|Hin]%elem_of_union; [done | |].
    - destruct (replace options1); [done | by apply elem_of_empty in Hin].
    - destruct (replace options2); [done | by apply elem_of_empty in Hin]. }
  set (s5 := setAborted (aborted s4 ∪ {[S (nextController s)]})
               (setTimers (delete (nextTimer s) (timers s4)) s4)).
  assert (Hstep5 : timerFired (nextTimer s) s4 = Some s5).
  { unfold timerFired. rewrite Hold, Hck4.
    destruct (Z.leb_spec (clock s + timeout) (clock s + timeout)); [|lia].
    simpl. rewrite bool_decide_eq_false_2 by done. by rewrite Ha4. }
  exists s5. split.
  { simpl. fold s1. rewrite Hstep2.
    destruct (Z.leb_spec 0 timeout); [|lia].
    fold s3. fold s4. by rewrite Hstep5. }
  split; [subst s5; simpl; rewrite Hrq4; by rewrite lookup_insert_eq|].
  split.
  { subst s5; simpl. rewrite Hs4, lookup_insert_ne by (subst second; lia).
    apply Hunsettled. subst second. lia. }
  split; [subst s5; simpl; by apply elem_of_union_r, elem_of_singleton|].
  subst s5; simpl. rewrite lookup_delete_ne by lia.
  rewrite Htm4, lookup_insert_eq. by rewrite Hck4.
Qed.

End Facts.

Import Scenario Visits.

Local Abbreviation go := (navigate sameHref None).
Local Abbreviation navReachable := (reachable sameHref None).

Lemma navState_reachable es s : navRun es init = Some s -> navReachable s.
Proof.
  intros Hrun.
  apply (NavigationFacts.navigation_reachable_run _ _ es init);
    [apply reachable_init | exact Hrun].
Qed.

(** After fifty navigations to [/a] the window is full: a navigation to
    [/b] drops the oldest entry. *)
Lemma history_keeps_latest_fifty_witness :
  length (navigationHistory visited) = 50%nat
  /\ getHistory (go "/b" plain visited).2 = replicate 49 "/a" ++ ["/b"].
Proof.
  split; [vm_compute; reflexivity|].
  destruct (history_keeps_latest_fifty sameHref None visited "/b" plain
              (navState_reachable visits visited ltac:(vm_compute; reflexivity))
              ltac:(vm_compute; reflexivity)) as [_ Hh].
  rewrite Hh. vm_compute. reflexivity.
Defined.

(** The promise returned by the navigation of [arrived] stands for a
    page. *)
Lemma results_are_page_or_error_witness :
  exists r, resultOf arrived 1 = Some r /\ ok r = true /\ error r = None.
Proof.
  eexists. split; [vm_compute; reflexivity|].
  destruct (results_are_page_or_error sameHref None arrived 1 _
              (navState_reachable [Navigate "/a" plain; FetchSettled 0 okResponse]
                 arrived ltac:(vm_compute; reflexivity))
              ltac:(vm_compute; reflexivity))
    as [(Hok & _ & Herr & _)|(Hok & _)]; [by split | discriminate Hok].
Defined.

(** The controller of the navigation to [/b] is the one its fetch was
    given; the prefetch of [/c] has none. *)
Lemma active_requests_are_pending_navigations_witness :
  let s := navState [Navigate "/b" plain; PrefetchUrl "/c"] in
  activeRequests s !! "/b" = Some 0%nat
  /\ (size (activeRequests s) <= getPendingCount s)%nat.
Proof.
  intros s.
  destruct (active_requests_are_pending_navigations sameHref None s "/b" 0
              NavigationFacts.two_pending_reachable) as [[_ Hact] Hsize].
  split; [|exact Hsize]. apply Hact.
  eexists _, _. split; [vm_compute; reflexivity|].
  split; [vm_compute; reflexivity|]. split; reflexivity.
Defined.

(** With a navigation to [/b] and a prefetch of [/c] pending,
    [cancel] of [/c] changes nothing. *)
Lemma cancel_reaches_pending_navigation_only_witness :
  let s := navState [Navigate "/b" plain; PrefetchUrl "/c"] in
  pending s !! "/c" = Some 2%nat
  /\ cancel sameHref "/c" s = s
  /\ pending (cancel sameHref "/b" s) !! "/c" = Some 2%nat.
Proof.
  intros s.
  assert (Hc : pending s !! normalizeUrl sameHref "/c" = Some 2%nat)
    by (vm_compute; reflexivity).
  split; [exact Hc|]. split.
  - destruct (cancel_reaches_pending_navigation_only sameHref None s "/c"
                NavigationFacts.two_pending_reachable) as [Hentry _].
    simpl in Hentry. rewrite Hc in Hentry.
    destruct Hentry as (rq & Hrq & Hkind).
    vm_compute in Hrq. injection Hrq as <-. exact Hkind.
  - destruct (cancel_reaches_pending_navigation_only sameHref None s "/b"
                NavigationFacts.two_pending_reachable) as [_ Hother].
    destruct (Hother "/c") as [Hp _]; [intros [= ?]|].
    rewrite Hp. exact Hc.
Defined.

(** From the start: navigate to [/a], cancel, navigate to [/a] again,
    and the first fetch rejects. *)
Lemma settlement_of_cancelled_navigation_untracks_successor_witness :
  exists s',
    navRun [Navigate "/a" plain; Cancel "/a"; Navigate "/a" plain;
            FetchSettled 0 (RejectedWith AbortError)] init = Some s'
    /\ settled s' !! 2%nat = None
    /\ (1%nat ∉ aborted s')
    /\ ControllerViews.isPending sameHref "/a" s' = false.
Proof.
  destruct (settlement_of_cancelled_navigation_untracks_successor sameHref None
              init "/a" plain plain (reachable_init _ _) eq_refl)
    as (s' & Hrun & _ & Hset & Hab & Hpend & _).
  exists s'. split; [exact Hrun|]. split; [exact Hset|]. split; [exact Hab | exact Hpend].
Defined.

(** From the start: the fetch of a navigation to [/a] fails, and 30 s
    later [/a] is navigated to again as the old timer fires. *)
Lemma timeout_of_failed_navigation_aborts_successor_witness :
  exists s',
    navRun [Navigate "/a" plain; FetchSettled 0 (RejectedWith (NetworkError "offline"));
            Tick 30000; Navigate "/a" plain; TimerFired 0] init = Some s'
    /\ settled s' !! 2%nat = None
    /\ 1%nat ∈ aborted s'.
Proof.
  destruct (timeout_of_failed_navigation_aborts_successor sameHref None
              init "/a" plain plain (NetworkError "offline")
              (reachable_init _ _) eq_refl ltac:(vm_compute; discriminate))
    as (s' & Hrun & _ & Hset & Hab & _).
  exists s'. split; [exact Hrun|]. split; [exact Hset | exact Hab].
Defined.

End ControllerFacts.

(** ** Escaping *)

Module HtmlFacts.
Import Html.

Lemma replaceAll_app c r a b :
  replaceAll c r (a ++ b) = replaceAll c r a ++ replaceAll c r b.
Proof. unfold replaceAll. by rewrite flat_map_app. Qed.

Lemma replaceAll_cons c r x text :
  replaceAll c r (x :: text) = (if x =? c then r else [x]) ++ replaceAll c r text.
Proof. done. Qed.

Lemma replaceAll_absent c r text :
  Forall (fun x => x <> c) text -> replaceAll c r text = text.
Proof.
  induction 1 as [|x text Hx _ IH]; [done|].
  rewrite replaceAll_cons, IH. by destruct (Z.eqb_spec x c).
Qed.

Lemma escapeHtml_app a b : escapeHtml (a ++ b) = escapeHtml a ++ escapeHtml b.
Proof. unfold escapeHtml. by rewrite !replaceAll_app. Qed.

Lemma escapeHtml_unit x : escapeHtml [x] = entity x.
Proof.
  unfold entity.
  destruct (Z.eqb_spec x ampersand) as [->|?]; [reflexivity|].
  destruct (Z.eqb_spec x lessThan) as [->|?]; [reflexivity|].
  destruct (Z.eqb_spec x greaterThan) as [->|?]; [reflexivity|].
  destruct (Z.eqb_spec x doubleQuote) as [->|?]; [reflexivity|].
  destruct (Z.eqb_spec x singleQuote) as [->|?]; [reflexivity|].
  unfold escapeHtml.
  rewrite (replaceAll_absent ampersand) by (by constructor).
  rewrite (replaceAll_absent lessThan) by (by constructor).
  rewrite (replaceAll_absent greaterThan) by (by constructor).
  rewrite (replaceAll_absent doubleQuote) by (by constructor).
  by rewrite (replaceAll_absent singleQuote) by (by constructor).
Qed.

Lemma escapeHtml_cons x text : escapeHtml (x :: text) = entity x ++ escapeHtml text.
Proof. by rewrite <- escapeHtml_unit, <- escapeHtml_app. Qed.

Lemma escapeHtml_entities text : escapeHtml text = flat_map entity text.
Proof.
  induction text as [|x text IH]; [done|].
  by rewrite escapeHtml_cons, IH.
Qed.

Lemma entity_clean x : Forall (fun y => ~ markup y) (entity x).
Proof.
  unfold entity, markup.
  destruct (Z.eqb_spec x ampersand);
    [repeat constructor; vm_compute; intros [|[|[|]]]; discriminate|].
  destruct (Z.eqb_spec x lessThan);
    [repeat constructor; vm_compute; intros [|[|[|]]]; discriminate|].
  destruct (Z.eqb_spec x greaterThan);
    [repeat constructor; vm_compute; intros [|[|[|]]]; discriminate|].
  destruct (Z.eqb_spec x doubleQuote);
    [repeat constructor; vm_compute; intros [|[|[|]]]; discriminate|].
  destruct (Z.eqb_spec x singleQuote);
    [repeat constructor; vm_compute; intros [|[|[|]]]; discriminate|].
  repeat constructor. tauto.
Qed.

(** X25.  [escapeHtml] is a character-by-character substitution: the five
    passes together replace each [&], [<], [>], double and single quote
    of the input by its entity and leave every other code unit alone, so
    the ampersand of an entity written by one pass is never escaped by
    another; and the output holds no [<], [>] or quote. *)
Theorem escapeHtml_substitutes_each_character text :
  escapeHtml text = flat_map entity text
  /\ Forall (fun y => ~ markup y) (escapeHtml text).
Proof.
  split; [apply escapeHtml_entities|].
  rewrite escapeHtml_entities.
  induction text as [|x text IH]; simpl; [constructor|].
  apply Forall_app. split; [apply entity_clean | exact IH].
Qed.

Lemma entity_head x :
  (exists tail, entity x = ampersand :: tail /\ tail <> []) \/ (entity x = [x] /\ x <> ampersand).
Proof.
  unfold entity.
  destruct (Z.eqb_spec x ampersand); [left; by eexists|].
  destruct (Z.eqb_spec x lessThan); [left; by eexists|].
  destruct (Z.eqb_spec x greaterThan); [left; by eexists|].
  destruct (Z.eqb_spec x doubleQuote); [left; by eexists|].
  destruct (Z.eqb_spec x singleQuote); [left; by eexists|].
  by right.
Qed.

Lemma entity_prefix x y a b :
  entity x ++ a = entity y ++ b -> x = y /\ a = b.
Proof.
  unfold entity.
  destruct (Z.eqb_spec x ampersand) as [->|?];
    [|destruct (Z.eqb_spec x lessThan) as [->|?];
      [|destruct (Z.eqb_spec x greaterThan) as [->|?];
        [|destruct (Z.eqb_spec x doubleQuote) as [->|?];
          [|destruct (Z.eqb_spec x singleQuote) as [->|?]]]]];
  (destruct (Z.eqb_spec y ampersand) as [->|?];
    [|destruct (Z.eqb_spec y lessThan) as [->|?];
      [|destruct (Z.eqb_spec y greaterThan) as [->|?];
        [|destruct (Z.eqb_spec y doubleQuote) as [->|?];
          [|destruct (Z.eqb_spec y singleQuote) as [->|?]]]]]);
  vm_compute; intros Heq; simplify_eq; try done.
Qed.

(** X26.  [escapeHtml] loses nothing: two texts with the same escape are the
    same text. *)
Theorem escapeHtml_is_injective text1 text2 :
  escapeHtml text1 = escapeHtml text2 -> text1 = text2.
Proof.
  rewrite !escapeHtml_entities. revert text2.
  induction text1 as [|x text1 IH]; intros [|y text2]; simpl; [done| | |].
  - intros Heq. destruct (entity_head y) as [(tail & Hy & _)|[Hy _]];
      rewrite Hy in Heq; discriminate.
  - intros Heq. destruct (entity_head x) as [(tail & Hx & _)|[Hx _]];
      rewrite Hx in Heq; discriminate.
  - intros Heq. apply entity_prefix in Heq as [-> Heq]. f_equal. by apply IH.
Qed.

Section Json.
Context {Data : Type}.
Variable stringify : Data -> option Text.

Lemma replaceCommentEnd_absent text :
  Forall (fun x => x <> greaterThan) text -> replaceCommentEnd text = text.
Proof.
  induction 1 as [|x text Hx Hrest IH]; [done|].
  cbn [replaceCommentEnd]. rewrite IH.
  destruct text as [|y [|z rest]]; [done | done |].
  destruct (Z.eqb_spec z greaterThan) as [->|Hz].
  - inversion Hrest as [|? ? _ Hrest']. by inversion Hrest'.
  - by rewrite andb_false_r.
Qed.

Lemma replaceAll_Forall (P : Z -> Prop) c r text :
  Forall P r -> Forall P text -> Forall P (replaceAll c r text).
Proof.
  intros Hr. induction 1 as [|x text Hx _ IH]; [constructor|].
  rewrite replaceAll_cons. apply Forall_app. split; [|done].
  destruct (x =? c); [done | by constructor].
Qed.

Lemma replaceAll_removes c r text :
  Forall (fun x => x <> c) r -> Forall (fun x => x <> c) (replaceAll c r text).
Proof.
  intros Hr. induction text as [|x text IH]; [constructor|].
  rewrite replaceAll_cons. apply Forall_app. split; [|done].
  destruct (Z.eqb_spec x c); [done | by constructor].
Qed.

Lemma unitPasses_app a b : unitPasses (a ++ b) = unitPasses a ++ unitPasses b.
Proof. unfold unitPasses. by rewrite !replaceAll_app. Qed.

Lemma unitPasses_unit x : unitPasses [x] = unicodeEscape x.
Proof.
  unfold unicodeEscape.
  destruct (Z.eqb_spec x lessThan) as [->|?]; [reflexivity|].
  destruct (Z.eqb_spec x greaterThan) as [->|?]; [reflexivity|].
  destruct (Z.eqb_spec x slash) as [->|?]; [reflexivity|].
  destruct (Z.eqb_spec x lineSeparator) as [->|?]; [reflexivity|].
  destruct (Z.eqb_spec x paragraphSeparator) as [->|?]; [reflexivity|].
  unfold unitPasses.
  rewrite (replaceAll_absent lessThan) by (by constructor).
  rewrite (replaceAll_absent greaterThan) by (by constructor).
  rewrite (replaceAll_absent slash) by (by constructor).
  rewrite (replaceAll_absent lineSeparator) by (by constructor).
  by rewrite (replaceAll_absent paragraphSeparator) by (by constructor).
Qed.

Lemma unitPasses_escapes str : unitPasses str = flat_map unicodeEscape str.
Proof.
  induction str as [|x str IH]; [done|].
  change (x :: str) with ([x] ++ str).
  by rewrite unitPasses_app, unitPasses_unit, IH.
Qed.

Lemma unicodeEscape_clean x : Forall (fun y => ~ breaksOut y) (unicodeEscape x).
Proof.
  unfold unicodeEscape, breaksOut.
  destruct (Z.eqb_spec x lessThan);
    [repeat constructor; vm_compute; intros [|[|[|[|]]]]; discriminate|].
  destruct (Z.eqb_spec x greaterThan);
    [repeat constructor; vm_compute; intros [|[|[|[|]]]]; discriminate|].
  destruct (Z.eqb_spec x slash);
    [repeat constructor; vm_compute; intros [|[|[|[|]]]]; discriminate|].
  destruct (Z.eqb_spec x lineSeparator);
    [repeat constructor; vm_compute; intros [|[|[|[|]]]]; discriminate|].
  destruct (Z.eqb_spec x paragraphSeparator);
    [repeat constructor; vm_compute; intros [|[|[|[|]]]]; discriminate|].
  repeat constructor. tauto.
Qed.

(** X27.  When [JSON.stringify] gives a string, [safeJsonStringify] returns
    it with every [<], [>], [/], U+2028 and U+2029 written as its
    [\uXXXX] escape and nothing else changed; the pass for [-->] never
    finds a match, the [>] being gone by then.  So the output holds none
    of these code units: it cannot close the script element or open a
    comment. *)
Theorem safeJsonStringify_output_is_inert data str :
  stringify data = Some str ->
  safeJsonStringify stringify data = Some (flat_map unicodeEscape str)
  /\ Forall (fun y => ~ breaksOut y) (flat_map unicodeEscape str).
Proof.
  intros Hstr. unfold safeJsonStringify. rewrite Hstr. split.
  - f_equal. rewrite replaceCommentEnd_absent; [apply unitPasses_escapes|].
    apply replaceAll_Forall; [repeat constructor; by vm_compute|].
    apply replaceAll_removes. repeat constructor; by vm_compute.
  - clear Hstr. induction str as [|x str IH]; simpl; [constructor|].
    apply Forall_app. split; [apply unicodeEscape_clean | exact IH].
Qed.

End Json.

(** A text given as a string and as its code units. *)
Lemma escapeHtml_is_injective_witness :
  escapeHtml (units "a&b") = escapeHtml [97; 38; 98]
  /\ units "a&b" = [97; 38; 98].
Proof.
  split; [reflexivity|].
  apply (escapeHtml_is_injective (units "a&b") [97; 38; 98]). reflexivity.
Defined.

(** A payload that tries to close the script element. *)
Lemma safeJsonStringify_output_is_inert_witness :
  safeJsonStringify (fun d : string => Some (units d)) "</script>-->"
  = Some (unicodeEscapeOf "003c" ++ unicodeEscapeOf "002f" ++ units "script"
          ++ unicodeEscapeOf "003e" ++ units "--" ++ unicodeEscapeOf "003e").
Proof.
  destruct (safeJsonStringify_output_is_inert
              (fun d : string => Some (units d)) "</script>-->" _ eq_refl)
    as [Hout _].
  rewrite Hout. reflexivity.
Defined.

End HtmlFacts.

(** ** Prefetching *)

Module PrefetchingFacts.
Import Prefetching.

Lemma expiring_prefetchUrl url s : expiring s -> expiring (prefetchUrl url s).
Proof.
  intros (Hm & Ht & Hf). unfold prefetchUrl. case_bool_decide as Hin; [done|].
  split; [|split]; simpl.
  - intros u [->%elem_of_singleton|Hu]%elem_of_union.
    + eexists _, _. rewrite lookup_insert_eq. split; [done | lia].
    + destruct (Hm u Hu) as (timer & due & Htm & Hdue).
      exists timer, due. split; [|done]. rewrite lookup_insert_ne; [done|].
      specialize (Ht timer (mk_is_Some _ _ Htm)). lia.
  - intros timer [x Hx]. destruct (decide (timer = nextTimer s)) as [->|Hne]; [lia|].
    rewrite lookup_insert_ne in Hx by done.
    specialize (Ht timer (mk_is_Some _ _ Hx)). lia.
  - intros fetch [x Hx]. destruct (decide (fetch = nextFetch s)) as [->|Hne]; [lia|].
    rewrite lookup_insert_ne in Hx by done.
    specialize (Hf fetch (mk_is_Some _ _ Hx)). lia.
Qed.

Lemma expiring_prefetchRoutes patterns : forall s,
  expiring s -> expiring (prefetchRoutes patterns s).
Proof.
  unfold prefetchRoutes.
  induction patterns as [|p patterns IH]; intros s Hs; simpl; [done|].
  apply IH. by apply expiring_prefetchUrl.
Qed.

Lemma expiring_step s e s' : expiring s -> step e s = Some s' -> expiring s'.
Proof.
  intros HI Hstep. destruct e; simpl in Hstep.
  - injection Hstep as <-. by apply expiring_prefetchUrl.
  - injection Hstep as <-. by apply expiring_prefetchRoutes.
  - injection Hstep as <-. destruct HI as (Hm & Ht & Hf).
    split; [|done]. simpl. intros url Hin. by apply elem_of_empty in Hin.
  - unfold fetchSettled in Hstep. destruct HI as (Hm & Ht & Hf).
    destruct (inFlight s !! fetch) as [url|]; [|done]. injection Hstep as <-.
    split; [done|]. split; [done|]. simpl.
    intros f [x Hx]. apply lookup_delete_Some in Hx as [_ Hx]. apply Hf. by rewrite Hx.
  - unfold fetchSettled in Hstep. destruct HI as (Hm & Ht & Hf).
    destruct (inFlight s !! fetch) as [url|]; [|done]. injection Hstep as <-.
    split; [|split; [done|]]; simpl.
    + intros u [Hu _]%elem_of_difference. by apply Hm.
    + intros f [x Hx]. apply lookup_delete_Some in Hx as [_ Hx]. apply Hf. by rewrite Hx.
  - unfold timerFired in Hstep. destruct HI as (Hm & Ht & Hf).
    destruct (timers s !! timer) as [[due url]|] eqn:Htimer; [|done].
    destruct (due <=? clock s); [|done]. injection Hstep as <-.
    split; [|split; [|done]]; simpl.
    + intros u [Hu Hne]%elem_of_difference.
      destruct (Hm u Hu) as (tm & d & Htm & Hd). exists tm, d. split; [|done].
      rewrite lookup_delete_ne; [done|]. intros <-.
      rewrite Htimer in Htm. injection Htm as _ <-. by apply Hne, elem_of_singleton.
    + intros tm [x Hx]. apply lookup_delete_Some in Hx as [_ Hx]. apply Ht. by rewrite Hx.
  - destruct (Z.leb_spec 0 dt); [|done]. injection Hstep as <-.
    destruct HI as (Hm & Ht & Hf). split; [|done]. simpl.
    intros u Hu. destruct (Hm u Hu) as (tm & d & Htm & Hd).
    exists tm, d. split; [done | lia].
Qed.

Lemma reachable_expiring s : reachable s -> expiring s.
Proof.
  induction 1 as [|s e s' _ IH Hstep].
  - split; [|split]; simpl.
    + intros url Hin. by apply elem_of_empty in Hin.
    + intros timer [x Hx]. by rewrite lookup_empty in Hx.
    + intros fetch [x Hx]. by rewrite lookup_empty in Hx.
  - by eapply expiring_step.
Qed.

(** X28.  No mark is permanent: whenever a URL is marked as prefetched, a
    timer is armed that removes the mark, and it is due at most 30 s
    from now.  So [prefetchUrl] never refuses a URL for longer than
    that. *)
Theorem marks_expire s url :
  reachable s ->
  url ∈ prefetched s ->
  exists timer due s',
    timers s !! timer = Some (due, url)
    /\ due <= clock s + 30000
    /\ run [Tick (Z.max 0 (due - clock s)); TimerFired timer] s = Some s'
    /\ url ∉ prefetched s'.
Proof.
  intros Hr Hin. destruct (reachable_expiring s Hr) as (Hm & _).
  destruct (Hm url Hin) as (timer & due & Htm & Hdue).
  exists timer, due. eexists. split; [done|]. split; [done|]. split.
  - simpl. destruct (Z.leb_spec 0 (Z.max 0 (due - clock s))); [|lia].
    unfold timerFired. simpl. rewrite Htm.
    destruct (Z.leb_spec due (clock s + Z.max 0 (due - clock s))); [|lia]. done.
  - simpl. intros [_ Hne]%elem_of_difference. by apply Hne, elem_of_singleton.
Qed.

Lemma prefetchUrl_unmarked url s :
  url ∉ prefetched s ->
  prefetchUrl url s
  = {| prefetched := {[url]} ∪ prefetched s;
       inFlight := <[nextFetch s := url]> (inFlight s);
       issued := issued s ++ [url];
       timers := <[nextTimer s := (clock s + cleanupDelay, url)]> (timers s);
       clock := clock s;
       nextFetch := S (nextFetch s);
       nextTimer := S (nextTimer s) |}.
Proof. intros Hfree. unfold prefetchUrl. by rewrite bool_decide_eq_false_2. Qed.

(** *** One fetch per URL *)

(** X30.  [prefetchRoutes] fetches each pattern once however often it is
    listed, skips the URLs already marked, and leaves all of them
    marked. *)
Theorem prefetchRoutes_fetches_each_url_once patterns : forall s,
  exists new,
    issued (prefetchRoutes patterns s) = issued s ++ new
    /\ NoDup new
    /\ (forall url, url ∈ new <-> url ∈ patterns /\ url ∉ prefetched s)
    /\ (forall url, url ∈ prefetched (prefetchRoutes patterns s)
                    <-> url ∈ prefetched s \/ url ∈ patterns).
Proof.
  unfold prefetchRoutes.
  induction patterns as [|p patterns IH]; intros s; simpl.
  - exists []. rewrite app_nil_r. split; [done|]. split; [constructor|].
    split; intros url; rewrite !elem_of_nil; tauto.
  - destruct (IH (prefetchUrl p s)) as (new & Hiss & Hnd & Hnew & Hset).
    unfold prefetchUrl in *. case_bool_decide as Hin.
    + exists new. split; [done|]. split; [done|].
      split; intros url; rewrite ?Hnew, ?Hset, elem_of_cons.
      * split; [tauto|]. intros [[->|Hu] Hn]; [done | tauto].
      * split; [tauto|]. intros [Hu|[->|Hu]]; tauto.
    + simpl in *. exists (p :: new). rewrite Hiss, <- app_assoc. split; [done|].
      assert (Hmark : forall url, url ∈ ({[p]} ∪ prefetched s : gset string)
                                  <-> url = p \/ url ∈ prefetched s).
      { intros url. by rewrite elem_of_union, elem_of_singleton. }
      split.
      * constructor; [|done]. rewrite Hnew, Hmark. tauto.
      * split; intros url; rewrite ?Hset, !elem_of_cons, ?Hnew, Hmark.
        -- split.
           ++ intros [->|[Hu Hn]]; [tauto|]. split; [tauto|]. tauto.
           ++ intros [[->|Hu] Hn]; [tauto|].
              destruct (decide (url = p)) as [->|Hne]; tauto.
        -- tauto.
Qed.

(** *** Stale timers *)

(** X29.  The cleanup timer of a call is not cancelled when its fetch fails.
    When the URL is prefetched again after such a failure, the timer of
    the first call removes the mark of the second as it fires, so a
    third call within the window fetches the URL again while the second
    fetch is still in flight. *)
Theorem stale_cleanup_timer_unmarks_retry s url d :
  reachable s ->
  url ∉ prefetched s ->
  0 <= d <= 30000 ->
  exists s',
    run [PrefetchUrl url; FetchRejected (nextFetch s); Tick d; PrefetchUrl url;
         Tick (30000 - d); TimerFired (nextTimer s); PrefetchUrl url] s = Some s'
    /\ issued s' = issued s ++ [url; url; url]
    /\ inFlight s' !! S (nextFetch s) = Some url
    /\ inFlight s' !! S (S (nextFetch s)) = Some url
    /\ clock s' = clock s + 30000.
Proof.
  intros Hr Hfree Hd. destruct (reachable_expiring s Hr) as (_ & Ht & Hf).
  assert (Hgone : forall p : gset string, url ∉ (({[url]} ∪ p) ∖ {[url]})).
  { intros p [_ Hne]%elem_of_difference. by apply Hne, elem_of_singleton. }
  cbn [run step]. rewrite (prefetchUrl_unmarked url s) by done.
  unfold fetchSettled. cbn [inFlight]. rewrite lookup_insert_eq. cbv iota zeta.
  destruct (Z.leb_spec 0 d); [|lia].
  rewrite prefetchUrl_unmarked by apply Hgone. cbn [run step].
  destruct (Z.leb_spec 0 (30000 - d)); [|lia].
  unfold timerFired. cbn [timers setClock setPrefetched setInFlight nextTimer clock].
  rewrite lookup_insert_ne by lia. rewrite lookup_insert_eq.
  unfold cleanupDelay.
  destruct (Z.leb_spec (clock s + 30000) (clock s + d + (30000 - d))); [|lia].
  rewrite prefetchUrl_unmarked by apply Hgone.
  eexists. split; [done|]. cbn.
  split; [by rewrite <- !app_assoc|].
  split.
  - rewrite lookup_insert_ne by lia. by rewrite lookup_insert_eq.
  - split; [by rewrite lookup_insert_eq | lia].
Qed.

Lemma marks_expire_witness :
  exists timer due,
    timers (prefetchUrl "/a" init) !! timer = Some (due, "/a") /\ due <= 30000.
Proof.
  destruct (marks_expire (prefetchUrl "/a" init) "/a") as (timer & due & s' & Htm & Hdue & _).
  - apply (reachable_step init (PrefetchUrl "/a")); [apply reachable_init | reflexivity].
  - vm_compute. set_solver.
  - exists timer, due. split; [exact Htm | exact Hdue].
Defined.

Lemma stale_cleanup_timer_unmarks_retry_witness :
  exists s',
    run [PrefetchUrl "/a"; FetchRejected 0; Tick 29000; PrefetchUrl "/a";
         Tick 1000; TimerFired 0; PrefetchUrl "/a"] init = Some s'
    /\ issued s' = ["/a"; "/a"; "/a"]
    /\ clock s' = 30000.
Proof.
  destruct (stale_cleanup_timer_unmarks_retry init "/a" 29000)
    as (s' & Hrun & Hiss & _ & _ & Hclock).
  - apply reachable_init.
  - apply not_elem_of_empty.
  - lia.
  - exists s'. split; [exact Hrun|]. split; [exact Hiss | exact Hclock].
Defined.

End PrefetchingFacts.
